(** * @mcp-ui/server: [createUIResource] and the experimental JSON-RPC helper

  A shallow embedding of [sdks/typescript/server/src/index.ts].

  - [JS] models the JavaScript values the code inspects (message payloads,
    option bags, errors) together with property reads, optional chaining,
    strict equality with a literal, truthiness and object spread.
  - [Experimental] models [sendExperimentalRequest] and the closures it
    installs ([cleanup], [handler], [onAbort], the timer callback) over an
    explicit state of the page: the module-level counter, the window's
    message listeners, the timer table, the abort signals and the
    environments the closures capture.  Every call into the platform is
    recorded in a log, which is what the properties observe.
  - [Resource] models [createUIResource]; what it imports from [utils.js]
    and [types.js] is a parameter of a section.

  Modelling conventions.  Numbers are the integers they denote ([Z]): ids,
  delays and clock values live in JavaScript's exact integer range.  The
  values travelling in messages are data (no functions, hence no thenables).
  [window] and [window.parent] are fixed for the life of a page.  The DOM
  and the timers are modelled by their contract: listeners run in
  registration order unless removed, a timer holds its delay as a 32-bit
  signed integer and fires once the clock has reached its due time unless
  cleared, an abort signal fires once. *)

From stdpp Require Import gmap strings list fin_maps.
From Stdlib Require Import ZArith Ascii DecimalString Lia.

(** ** JavaScript values *)

Module JS.

#[local] Unset Elimination Schemes.
Inductive Value : Type :=
| Undefined
| Null
| Bool (b : bool)
| Num (n : Z)
| Str (s : string)
| Obj (props : list (string * Value))
| Err (message : string).

#[local] Set Elimination Schemes.

(** The outcome of an expression that may throw. *)
Inductive Completion (A : Type) : Type :=
| Return (a : A)
| Throw (e : Value).
Arguments Return {A} a.
Arguments Throw {A} e.

(** Own properties of an object literal, first binding of a key. *)
Fixpoint own_property (k : string) (props : list (string * Value)) : option Value :=
  match props with
  | [] => None
  | (k', v) :: rest => if String.eqb k k' then Some v else own_property k rest
  end.

Definition has_property (k : string) (props : list (string * Value)) : bool :=
  match own_property k props with Some _ => true | None => false end.

(** [o[k] = v] on an object under construction: an existing key keeps its
    position and takes the new value, a new key goes last. *)
Fixpoint define_property (k : string) (v : Value) (props : list (string * Value))
  : list (string * Value) :=
  match props with
  | [] => [(k, v)]
  | (k', v') :: rest =>
      if String.eqb k k' then (k', v) :: rest
      else (k', v') :: define_property k v rest
  end.

(** [{ ...target, ...source }]: the entries of [source] are defined on
    [target] one after the other, so a later key overrides an earlier one. *)
Definition spread (source target : list (string * Value)) : list (string * Value) :=
  fold_left (fun o kv => define_property (fst kv) (snd kv) o) source target.

Definition type_error : Value := Err "TypeError: cannot read properties of undefined or null".

(** [v.k], for the property names this program reads (none of which is
    defined on a built-in prototype). *)
Definition get (v : Value) (k : string) : Completion Value :=
  match v with
  | Undefined | Null => Throw type_error
  | Obj props => Return (default Undefined (own_property k props))
  | Err m => Return (if String.eqb k "message" then Str m else Undefined)
  | Bool _ | Num _ | Str _ => Return Undefined
  end.

(** [v?.k] *)
Definition get_optional (v : Value) (k : string) : Value :=
  match v with
  | Undefined | Null => Undefined
  | _ => match get v k with Return x => x | Throw _ => Undefined end
  end.

(** [v === 'literal'] and [v === n] *)
Definition strict_eq_string (v : Value) (s : string) : bool :=
  match v with Str s' => String.eqb s' s | _ => false end.

Definition strict_eq_number (v : Value) (n : Z) : bool :=
  match v with Num n' => Z.eqb n' n | _ => false end.

(** ToBoolean *)
Definition truthy (v : Value) : bool :=
  match v with
  | Undefined | Null => false
  | Bool b => b
  | Num n => negb (Z.eqb n 0)
  | Str s => negb (String.eqb s EmptyString)
  | Obj _ | Err _ => true
  end.

Definition is_string (v : Value) : bool :=
  match v with Str _ => true | _ => false end.

(** Template-literal rendering, [`${v}`].  An integer is rendered by its
    decimal digits, as JavaScript does below [10^21]; from there on
    JavaScript writes an exponent, which this rendering does not follow. *)
Definition number_to_string (n : Z) : string :=
  NilZero.string_of_int (Z.to_int n).

Definition to_string (v : Value) : string :=
  match v with
  | Undefined => "undefined"
  | Null => "null"
  | Bool true => "true"
  | Bool false => "false"
  | Num n => number_to_string n
  | Str s => s
  | Obj _ => "[object Object]"
  | Err m => if String.eqb m EmptyString then "Error" else "Error: " +:+ m
  end.

(** Sequencing of computations that may throw. *)
#[export] Instance Completion_bind : MBind Completion :=
  λ A B k c, match c with Return a => k a | Throw e => Throw e end.

End JS.

Import JS.

(** ** The experimental JSON-RPC request helper *)

Module Experimental.

(** *** State of the page *)

(** The environment captured by the closures of one invocation of
    [sendExperimentalRequest].  [timeoutId] is the only captured variable
    that is assigned after the closures exist; [None] is [undefined]. *)
Record Frame : Type := {
  fr_id : Z;
  fr_method : string;
  fr_timeoutMs : Z;
  fr_signal : option nat;
  timeoutId : option nat
}.

Record Timer : Type := {
  tm_id : nat;
  tm_due : Z;
  tm_frame : nat
}.

Record Signal : Type := {
  aborted : bool;
  abort_listeners : list nat
}.

(** Calls into the platform, in the order they are made. *)
Inductive Effect : Type :=
| AddMessageListener (k : nat)
| RemoveMessageListener (k : nat)
| AddAbortListener (s k : nat)
| RemoveAbortListener (s k : nat)
| SetTimeout (t k : nat) (delay : Z)
| ClearTimeout (t : nat)
| PostMessage (target : nat) (message : Value) (targetOrigin : string)
| Resolve (p : nat) (v : Value)
| Reject (p : nat) (reason : Value)
| Uncaught (e : Value).

(** Windows, promises, timers and signals are named by numbers.  A frame
    is keyed by the promise its invocation returned.  [window] and [parent]
    are [window] and [window.parent]; no event changes them. *)
Record World : Type := {
  window : nat;
  parent : nat;
  _experimentalRequestId : Z;
  now : Z;
  frames : gmap nat Frame;
  next_promise : nat;
  message_listeners : list nat;
  timers : list Timer;
  next_timer : nat;
  signals : gmap nat Signal;
  log : list Effect
}.

Definition DEFAULT_EXPERIMENTAL_REQUEST_TIMEOUT_MS : Z := 30000.

Definition initial (self par : nat) : World :=
  {| window := self; parent := par; _experimentalRequestId := 0; now := 0;
     frames := ∅; next_promise := 0; message_listeners := []; timers := [];
     next_timer := 0; signals := ∅; log := [] |}.

Definition set_requestId (n : Z) (w : World) : World :=
  {| window := window w; parent := parent w; _experimentalRequestId := n;
     now := now w; frames := frames w; next_promise := next_promise w;
     message_listeners := message_listeners w; timers := timers w;
     next_timer := next_timer w; signals := signals w; log := log w |}.

Definition set_now (t : Z) (w : World) : World :=
  {| window := window w; parent := parent w;
     _experimentalRequestId := _experimentalRequestId w;
     now := t; frames := frames w; next_promise := next_promise w;
     message_listeners := message_listeners w; timers := timers w;
     next_timer := next_timer w; signals := signals w; log := log w |}.

Definition set_frames (fs : gmap nat Frame) (w : World) : World :=
  {| window := window w; parent := parent w;
     _experimentalRequestId := _experimentalRequestId w;
     now := now w; frames := fs; next_promise := next_promise w;
     message_listeners := message_listeners w; timers := timers w;
     next_timer := next_timer w; signals := signals w; log := log w |}.

Definition set_next_promise (p : nat) (w : World) : World :=
  {| window := window w; parent := parent w;
     _experimentalRequestId := _experimentalRequestId w;
     now := now w; frames := frames w; next_promise := p;
     message_listeners := message_listeners w; timers := timers w;
     next_timer := next_timer w; signals := signals w; log := log w |}.

Definition set_message_listeners (l : list nat) (w : World) : World :=
  {| window := window w; parent := parent w;
     _experimentalRequestId := _experimentalRequestId w;
     now := now w; frames := frames w; next_promise := next_promise w;
     message_listeners := l; timers := timers w;
     next_timer := next_timer w; signals := signals w; log := log w |}.

Definition set_timers (l : list Timer) (w : World) : World :=
  {| window := window w; parent := parent w;
     _experimentalRequestId := _experimentalRequestId w;
     now := now w; frames := frames w; next_promise := next_promise w;
     message_listeners := message_listeners w; timers := l;
     next_timer := next_timer w; signals := signals w; log := log w |}.

Definition set_next_timer (t : nat) (w : World) : World :=
  {| window := window w; parent := parent w;
     _experimentalRequestId := _experimentalRequestId w;
     now := now w; frames := frames w; next_promise := next_promise w;
     message_listeners := message_listeners w; timers := timers w;
     next_timer := t; signals := signals w; log := log w |}.

Definition set_signals (m : gmap nat Signal) (w : World) : World :=
  {| window := window w; parent := parent w;
     _experimentalRequestId := _experimentalRequestId w;
     now := now w; frames := frames w; next_promise := next_promise w;
     message_listeners := message_listeners w; timers := timers w;
     next_timer := next_timer w; signals := m; log := log w |}.

Definition emit (e : Effect) (w : World) : World :=
  {| window := window w; parent := parent w;
     _experimentalRequestId := _experimentalRequestId w;
     now := now w; frames := frames w; next_promise := next_promise w;
     message_listeners := message_listeners w; timers := timers w;
     next_timer := next_timer w; signals := signals w; log := e :: log w |}.

(** *** Platform primitives

    The DOM and timer calls the program makes, by their contract.  Each one
    records itself in the log. *)

(** [window.addEventListener('message', handler)] for the handler of frame
    [k]; registering a listener that is already present does nothing. *)
Definition window_addEventListener (k : nat) (w : World) : World :=
  emit (AddMessageListener k)
    (if decide (k ∈ message_listeners w) then w
     else set_message_listeners (message_listeners w ++ [k]) w).

(** [window.removeEventListener('message', handler)] *)
Definition window_removeEventListener (k : nat) (w : World) : World :=
  emit (RemoveMessageListener k)
    (set_message_listeners (filter (λ j, j ≠ k) (message_listeners w)) w).

(** A signal the page has not touched yet is not aborted and has no
    listeners. *)
Definition fresh_signal : Signal := {| aborted := false; abort_listeners := [] |}.

Definition signal_state (s : nat) (w : World) : Signal :=
  default fresh_signal (signals w !! s).

(** [signal.addEventListener('abort', onAbort)] *)
Definition signal_addEventListener (s k : nat) (w : World) : World :=
  let sg := signal_state s w in
  emit (AddAbortListener s k)
    (if decide (k ∈ abort_listeners sg) then w
     else set_signals
            (<[s := {| aborted := aborted sg;
                       abort_listeners := abort_listeners sg ++ [k] |}]> (signals w)) w).

Definition drop_abort_listener (k : nat) (sg : Signal) : Signal :=
  {| aborted := aborted sg;
     abort_listeners := filter (λ j, j ≠ k) (abort_listeners sg) |}.

(** [signal.removeEventListener('abort', onAbort)] *)
Definition signal_removeEventListener (s k : nat) (w : World) : World :=
  emit (RemoveAbortListener s k)
    (set_signals (alter (drop_abort_listener k) s (signals w)) w).

(** The delay a timer really waits.  [setTimeout] takes its delay as a
    32-bit signed integer: the number given is reduced modulo [2^32] into
    [-2^31 .. 2^31 - 1], and a negative delay counts as [0].  So a delay up
    to [2147483647] is taken as it is, and [2147483648] becomes [0]. *)
Definition timer_delay (delay : Z) : Z :=
  Z.max 0 ((delay + 2 ^ 31) mod 2 ^ 32 - 2 ^ 31).

(** [setTimeout(callback, delay)] for the timer callback of frame [k]: the
    timer is due [timer_delay delay] after the current clock value; the
    fresh timer id is returned. *)
Definition setTimeout (k : nat) (delay : Z) (w : World) : nat * World :=
  let t := next_timer w in
  (t, emit (SetTimeout t k delay)
        (set_next_timer (S t)
           (set_timers (timers w ++ [{| tm_id := t;
                                        tm_due := (now w + timer_delay delay)%Z;
                                        tm_frame := k |}]) w))).

(** [clearTimeout(t)] *)
Definition clearTimeout (t : nat) (w : World) : World :=
  emit (ClearTimeout t) (set_timers (filter (λ x, tm_id x ≠ t) (timers w)) w).

(** [target.postMessage(message, targetOrigin)] *)
Definition postMessage (target : nat) (message : Value) (targetOrigin : string)
    (w : World) : World :=
  emit (PostMessage target message targetOrigin) w.

(** The [resolve] and [reject] functions of promise [p]. *)
Definition resolve (p : nat) (v : Value) (w : World) : World := emit (Resolve p v) w.
Definition reject (p : nat) (reason : Value) (w : World) : World := emit (Reject p reason) w.

(** A promise is settled by the first call of its [resolve] or [reject];
    later calls have no effect on it.  [settlements p l] lists the calls made
    for [p] in a log, most recent first. *)
Inductive PromiseState : Type :=
| Pending
| Fulfilled (v : Value)
| Rejected (reason : Value).

Fixpoint settlements (p : nat) (l : list Effect) : list PromiseState :=
  match l with
  | [] => []
  | Resolve q v :: l' =>
      if decide (q = p) then Fulfilled v :: settlements p l' else settlements p l'
  | Reject q r :: l' =>
      if decide (q = p) then Rejected r :: settlements p l' else settlements p l'
  | _ :: l' => settlements p l'
  end.

Definition promise_state (p : nat) (w : World) : PromiseState :=
  default Pending (last (settlements p (log w))).

(** The messages handed to [postMessage], most recent first. *)
Fixpoint posted (l : list Effect) : list (nat * Value * string) :=
  match l with
  | [] => []
  | PostMessage target message origin :: l' => (target, message, origin) :: posted l'
  | _ :: l' => posted l'
  end.

(** The exceptions that escaped a listener, most recent first. *)
Fixpoint uncaught (l : list Effect) : list Value :=
  match l with
  | [] => []
  | Uncaught e :: l' => e :: uncaught l'
  | _ :: l' => uncaught l'
  end.

(** *** [sendExperimentalRequest] and its closures *)

Record Options : Type := {
  signal : option nat;
  timeoutMs : option Z
}.

Record MessageEvent : Type := {
  source : option nat;
  data : Value
}.

(** The double-quote character of the error messages. *)
Definition quote : string := String "034"%char EmptyString.

Definition abort_error (method : string) : Value :=
  Err ("Experimental request " +:+ quote +:+ method +:+ quote +:+ " was aborted").

Definition timeout_error (method : string) (ms : Z) : Value :=
  Err ("Experimental request " +:+ quote +:+ method +:+ quote +:+ " timed out after "
         +:+ number_to_string ms +:+ "ms").

Definition not_in_iframe_error : Value :=
  Err "sendExperimentalRequest must be called from within an iframe".

(** [cleanup] of frame [k]. *)
Definition cleanup (k : nat) (w : World) : World :=
  match frames w !! k with
  | None => w
  | Some f =>
      let w := window_removeEventListener k w in
      let w := match timeoutId f with
               | Some t => clearTimeout t w
               | None => w
               end in
      match fr_signal f with
      | Some s => signal_removeEventListener s k w
      | None => w
      end
  end.

(** What running a listener did: it returned, or it threw; either way the
    page is left in some state. *)
Inductive Outcome : Type :=
| Returned (w : World)
| Threw (e : Value) (w : World).

(** [handler] of frame [k]. *)
Definition handler (k : nat) (event : MessageEvent) (w : World) : Outcome :=
  match frames w !! k with
  | None => Returned w
  | Some f =>
      if negb (bool_decide (source event = Some (parent w))) then Returned w
      else
        let data := data event in
        if strict_eq_string (get_optional data "jsonrpc") "2.0"
           && strict_eq_number (get_optional data "id") (fr_id f)
        then
          let w := cleanup k w in
          match get data "error" with
          | Throw e => Threw e w
          | Return error =>
              if truthy error then Returned (reject k error w)
              else
                match get data "result" with
                | Throw e => Threw e w
                | Return result => Returned (resolve k result w)
                end
          end
        else Returned w
  end.

(** [onAbort] of frame [k]. *)
Definition onAbort (k : nat) (w : World) : World :=
  match frames w !! k with
  | None => w
  | Some f => reject k (abort_error (fr_method f)) (cleanup k w)
  end.

(** The callback handed to [setTimeout] by frame [k]. *)
Definition onTimeout (k : nat) (w : World) : World :=
  match frames w !! k with
  | None => w
  | Some f => reject k (timeout_error (fr_method f) (fr_timeoutMs f)) (cleanup k w)
  end.

(** [timeoutId = setTimeout(...)] in frame [k]. *)
Definition assign_timeoutId (k t : nat) (w : World) : World :=
  set_frames
    (alter (λ f, {| fr_id := fr_id f; fr_method := fr_method f;
                    fr_timeoutMs := fr_timeoutMs f; fr_signal := fr_signal f;
                    timeoutId := Some t |}) k (frames w)) w.

(** The request envelope:
    [{ jsonrpc: '2.0', id, method, ...(params !== undefined && { params }) }]. *)
Definition envelope (id : Z) (method : string) (params : Value) : Value :=
  Obj (spread (match params with
               | Undefined => []
               | _ => [("params", params)]
               end)
         [("jsonrpc", Str "2.0"); ("id", Num id); ("method", Str method)]).

(** The executor passed to [new Promise], run for the fresh promise [p]. *)
Definition executor (id : Z) (method : string) (params : Value)
    (options : option Options) (ms : Z) (p : nat) (w : World) : World :=
  let sig := options ≫= signal in
  let w := set_frames (<[p := {| fr_id := id; fr_method := method; fr_timeoutMs := ms;
                                 fr_signal := sig; timeoutId := None |}]> (frames w)) w in
  if match sig with Some s => aborted (signal_state s w) | None => false end
  then reject p (abort_error method) w
  else
    let w := match sig with
             | Some s => signal_addEventListener s p w
             | None => w
             end in
    let w := window_addEventListener p w in
    let w := if (0 <? ms)%Z
             then let '(t, w) := setTimeout p ms w in assign_timeoutId p t w
             else w in
    postMessage (parent w) (envelope id method params) "*" w.

(** [Promise.reject(reason)] and [new Promise(executor)]: a fresh promise,
    rejected at once, respectively handed to the executor. *)
Definition Promise_reject (reason : Value) (w : World) : nat * World :=
  let p := next_promise w in
  (p, reject p reason (set_next_promise (S p) w)).

Definition new_Promise (exec : nat → World → World) (w : World) : nat * World :=
  let p := next_promise w in
  (p, exec p (set_next_promise (S p) w)).

(** [sendExperimentalRequest(method, params, options)]; the result is the
    promise returned and the state of the page when the call returns. *)
Definition sendExperimentalRequest (method : string) (params : Value)
    (options : option Options) (w : World) : nat * World :=
  if decide (parent w = window w)
  then Promise_reject not_in_iframe_error w
  else
    let id := (_experimentalRequestId w + 1)%Z in
    let w := set_requestId id w in
    let ms := default DEFAULT_EXPERIMENTAL_REQUEST_TIMEOUT_MS (options ≫= timeoutMs) in
    new_Promise (executor id method params options ms) w.

(** *** The event loop

    What can happen to the page between two runs of its own code: a call of
    [sendExperimentalRequest], a message event, the clock moving forward, or
    an abort controller firing. *)

Inductive Event : Type :=
| Call (method : string) (params : Value) (options : option Options)
| Message (event : MessageEvent)
| Advance (d : Z)
| Abort (s : nat).

(** Running one listener; an exception that escapes it is reported and the
    dispatch goes on. *)
Definition invoke_handler (k : nat) (event : MessageEvent) (w : World) : World :=
  match handler k event w with
  | Returned w' => w'
  | Threw e w' => emit (Uncaught e) w'
  end.

(** Dispatch of a message event on the window: the listeners registered when
    the dispatch starts are run in order, except those removed meanwhile. *)
Definition deliver (event : MessageEvent) (w : World) (k : nat) : World :=
  if decide (k ∈ message_listeners w) then invoke_handler k event w else w.

Definition dispatch_message (event : MessageEvent) (w : World) : World :=
  fold_left (deliver event) (message_listeners w) w.

(** [controller.abort()] for signal [s]: nothing if it has fired before;
    otherwise the signal becomes aborted and its listeners are run. *)
Definition notify_abort (s : nat) (w : World) (k : nat) : World :=
  if decide (k ∈ abort_listeners (signal_state s w)) then onAbort k w else w.

Definition signal_abort (s : nat) (w : World) : World :=
  let sg := signal_state s w in
  if aborted sg then w
  else
    let w := set_signals (<[s := {| aborted := true;
                                    abort_listeners := abort_listeners sg |}]> (signals w)) w in
    fold_left (notify_abort s) (abort_listeners sg) w.

(** The timer that fires next: the earliest due one, the oldest among
    equals. *)
Fixpoint earliest (l : list Timer) : option Timer :=
  match l with
  | [] => None
  | t :: l' =>
      match earliest l' with
      | Some t' => if (tm_due t' <? tm_due t)%Z then Some t' else Some t
      | None => Some t
      end
  end.

(** A due timer [t] leaves the timer table, with the clock at its due time,
    before its callback runs. *)
Definition expire (t : Timer) (w : World) : World :=
  let w := set_now (Z.max (now w) (tm_due t)) w in
  set_timers (filter (λ x, tm_id x ≠ tm_id t) (timers w)) w.

(** The clock moves to [target]; every timer due by then fires at its due
    time, in due order.  Each round removes a timer and no callback of this
    program arms one, so [length (timers w)] rounds are enough
    ([advance_complete] below). *)
Fixpoint run_timers (rounds : nat) (target : Z) (w : World) : World :=
  match rounds with
  | O => set_now (Z.max (now w) target) w
  | S rounds' =>
      match earliest (timers w) with
      | Some t =>
          if (tm_due t <=? target)%Z
          then run_timers rounds' target (onTimeout (tm_frame t) (expire t w))
          else set_now (Z.max (now w) target) w
      | None => set_now (Z.max (now w) target) w
      end
  end.

Definition advance (d : Z) (w : World) : World :=
  run_timers (length (timers w)) (now w + Z.max 0 d)%Z w.

Definition step (e : Event) (w : World) : World :=
  match e with
  | Call method params options => snd (sendExperimentalRequest method params options w)
  | Message event => dispatch_message event w
  | Advance d => advance d w
  | Abort s => signal_abort s w
  end.

(** A session: the events of a page's life, oldest first. *)
Definition run (es : list Event) (w : World) : World := fold_left (λ w e, step e w) es w.

(** *** Sessions and their invariants *)

(** Frame [k] still has something registered with the platform: its message
    listener, its timer, or its abort listener. *)
Definition registered (k : nat) (w : World) : Prop :=
  k ∈ message_listeners w
  ∨ (∃ t, t ∈ timers w ∧ tm_frame t = k)
  ∨ (∃ s sg, signals w !! s = Some sg ∧ k ∈ abort_listeners sg).

(** What holds of the page between any two events of a session. *)
Record consistent (w : World) : Prop := {
  counter_counts : _experimentalRequestId w = Z.of_nat (size (frames w));
  frames_bound : ∀ k f, frames w !! k = Some f →
    k < next_promise w ∧ (0 < fr_id f ≤ _experimentalRequestId w)%Z;
  ids_distinct : ∀ k k' f f', frames w !! k = Some f → frames w !! k' = Some f' →
    fr_id f = fr_id f' → k = k';
  timeoutId_bound : ∀ k f t, frames w !! k = Some f → timeoutId f = Some t →
    t < next_timer w;
  timeoutId_distinct : ∀ k k' f f' t, frames w !! k = Some f → frames w !! k' = Some f' →
    timeoutId f = Some t → timeoutId f' = Some t → k = k';
  timers_owned : ∀ t, t ∈ timers w →
    ∃ f, frames w !! tm_frame t = Some f ∧ timeoutId f = Some (tm_id t);
  timers_distinct : ∀ t t', t ∈ timers w → t' ∈ timers w → tm_id t = tm_id t' → t = t';
  abort_listeners_owned : ∀ s sg k, signals w !! s = Some sg → k ∈ abort_listeners sg →
    ∃ f, frames w !! k = Some f ∧ fr_signal f = Some s;
  message_listeners_owned : ∀ k, k ∈ message_listeners w → is_Some (frames w !! k);
  posted_bound : ∀ target message origin, (target, message, origin) ∈ posted (log w) →
    ∃ props id, message = Obj props ∧ own_property "id" props = Some (Num id)
                ∧ (0 < id ≤ _experimentalRequestId w)%Z;
  settled_unregistered : ∀ k, registered k w → settlements k (log w) = [];
  settled_once : ∀ k, length (settlements k (log w)) ≤ 1;
  log_bound : ∀ k, next_promise w ≤ k → settlements k (log w) = []
}.

(** A message event that answers the request with the given id: it comes
    from the parent window and carries [jsonrpc: '2.0'] and that id. *)
Definition answers (par : nat) (id : Z) (event : MessageEvent) : Prop :=
  source event = Some par
  ∧ get_optional (data event) "jsonrpc" = Str "2.0"
  ∧ get_optional (data event) "id" = Num id.

(** An event that is neither an answer to request [id] nor the firing of
    its signal. *)
Definition quiet (par : nat) (id : Z) (sig : option nat) (e : Event) : Prop :=
  match e with
  | Call _ _ _ => True
  | Message event => ¬ answers par id event
  | Advance _ => True
  | Abort s => sig ≠ Some s
  end.

(** The time a list of events lets pass. *)
Fixpoint elapsed (es : list Event) : Z :=
  match es with
  | [] => 0
  | Advance d :: es' => Z.max 0 d + elapsed es'
  | _ :: es' => elapsed es'
  end.

(** Frame [k] is in flight: its listener is on the window, its timer (if it
    has one) is armed for [due], and its abort listener (if it has a signal)
    is on a signal that has not fired. *)
Record live (k : nat) (f : Frame) (due : Z) (w : World) : Prop := {
  live_frame : frames w !! k = Some f;
  live_listener : k ∈ message_listeners w;
  live_timer : (0 < fr_timeoutMs f)%Z →
    ∃ t, timeoutId f = Some t ∧ {| tm_id := t; tm_due := due; tm_frame := k |} ∈ timers w;
  live_no_timer : (fr_timeoutMs f ≤ 0)%Z → timeoutId f = None;
  live_signal : ∀ s, fr_signal f = Some s →
    ∃ sg, signals w !! s = Some sg ∧ aborted sg = false ∧ k ∈ abort_listeners sg
}.

(** The settlement a closure performs once it has run [cleanup]:
    [resolve(v)] or [reject(r)] of its own promise. *)
Definition settle (k : nat) (o : PromiseState) (w : World) : World :=
  match o with
  | Pending => w
  | Fulfilled v => resolve k v w
  | Rejected r => reject k r w
  end.

(** From [w] to [w'] the page has only moved on: the windows are the same,
    the frames that existed keep their content, and every promise keeps the
    settlements it had. *)
Record evolves (w w' : World) : Prop := {
  same_window : window w' = window w;
  same_parent : parent w' = parent w;
  frames_kept : ∀ k f, frames w !! k = Some f → frames w' !! k = Some f;
  settlements_kept : ∀ j, ∃ extra, settlements j (log w') = extra ++ settlements j (log w)
}.

(** *** Sample payloads

    The answers of the repository's tests: the parent is window [1]. *)

Definition hello_params : Value := Obj [("text", Str "hello")].

Definition ok_response (id : Z) : MessageEvent :=
  {| source := Some 1;
     data := Obj [("jsonrpc", Str "2.0"); ("id", Num id);
                  ("result", Obj [("success", Bool true)])] |}.

Definition error_response (id : Z) : MessageEvent :=
  {| source := Some 1;
     data := Obj [("jsonrpc", Str "2.0"); ("id", Num id);
                  ("error", Obj [("code", Num (-32601));
                                 ("message", Str "Method not found")])] |}.

End Experimental.

(** ** [createUIResource] *)

Module Resource.

Section CreateUIResource.

(** What [createUIResource] imports from [types.js] and [utils.js]: the
    default MIME type, the adapter configuration and the helpers working on
    it, the base64 encoder, and the helper that collects the additional
    properties of the resource. *)
Variable RESOURCE_MIME_TYPE : string.
Variable AdaptersConfig : Type.
Variable wrapHtmlWithAdapters : string → AdaptersConfig → string.
Variable getAdapterMimeType : AdaptersConfig → option string.
Variable utf8ToBase64 : string → string.

(** [options.content]: the discriminant and the two payload fields, each of
    which may hold any value at run time ([Undefined] when absent). *)
Record ResourceContentPayload : Type := {
  type : string;
  htmlString : Value;
  iframeUrl : Value
}.

Record CreateUIResourceOptions : Type := {
  uri : string;
  content : ResourceContentPayload;
  encoding : Value;
  uiMetadata : option (list (string * Value));
  metadata : option (list (string * Value));
  resourceProps : option (list (string * Value));
  embeddedResourceProps : option (list (string * Value));
  adapters : option AdaptersConfig
}.

Variable getAdditionalResourceProps : CreateUIResourceOptions → list (string * Value).

(** The first half of the function: the content string and the MIME type. *)
Definition content_and_mime (options : CreateUIResourceOptions) : Completion (string * string) :=
  if String.eqb (type (content options)) "rawHtml" then
    if negb (String.prefix "ui://" (uri options)) then
      Throw (Err "MCP-UI SDK: URI must start with 'ui://' when content.type is 'rawHtml'.")
    else
      match htmlString (content options) with
      | Str actualContentString =>
          match adapters options with
          | Some config =>
              Return (wrapHtmlWithAdapters actualContentString config,
                      default RESOURCE_MIME_TYPE (getAdapterMimeType config))
          | None => Return (actualContentString, RESOURCE_MIME_TYPE)
          end
      | _ =>
          Throw (Err "MCP-UI SDK: content.htmlString must be provided as a string when content.type is 'rawHtml'.")
      end
  else if String.eqb (type (content options)) "externalUrl" then
    if negb (String.prefix "ui://" (uri options)) then
      Throw (Err "MCP-UI SDK: URI must start with 'ui://' when content.type is 'externalUrl'.")
    else
      match iframeUrl (content options) with
      | Str iframeUrl => Return (iframeUrl, RESOURCE_MIME_TYPE)
      | _ =>
          Throw (Err "MCP-UI SDK: content.iframeUrl must be provided as a string when content.type is 'externalUrl'.")
      end
  else
    Throw (Err "MCP-UI SDK: Invalid content.type specified: [object Object]").

(** The [switch] on [options.encoding]. *)
Definition encode (options : CreateUIResourceOptions) (actualContentString mimeType : string)
  : Completion (list (string * Value)) :=
  if strict_eq_string (encoding options) "text" then
    Return (spread (getAdditionalResourceProps options)
              [("uri", Str (uri options)); ("mimeType", Str mimeType);
               ("text", Str actualContentString)])
  else if strict_eq_string (encoding options) "blob" then
    Return (spread (getAdditionalResourceProps options)
              [("uri", Str (uri options)); ("mimeType", Str mimeType);
               ("blob", Str (utf8ToBase64 actualContentString))])
  else
    Throw (Err ("MCP-UI SDK: Invalid encoding type: " +:+ to_string (encoding options))).

Definition createUIResource (options : CreateUIResourceOptions) : Completion Value :=
  cm ← content_and_mime options;
  resource ← encode options cm.1 cm.2;
  Return (Obj (spread (default [] (embeddedResourceProps options))
                 [("type", Str "resource"); ("resource", Obj resource)])).

End CreateUIResource.

Arguments uri {AdaptersConfig} _.
Arguments content {AdaptersConfig} _.
Arguments encoding {AdaptersConfig} _.
Arguments uiMetadata {AdaptersConfig} _.
Arguments metadata {AdaptersConfig} _.
Arguments resourceProps {AdaptersConfig} _.
Arguments embeddedResourceProps {AdaptersConfig} _.
Arguments adapters {AdaptersConfig} _.

(** Stand-ins for the imported helpers, enough to run the function where it
    does not depend on them: no adapters, the MIME type the tests expect,
    an encoder that is the identity, and nothing added to the resource. *)
Definition plain_createUIResource : CreateUIResourceOptions Empty_set → Completion Value :=
  createUIResource "text/html;profile=mcp-app" Empty_set
    (λ html _, html) (λ _, None) (λ s, s) (λ _, []).

End Resource.

(** ** Sessions: further notions *)

Module Sessions.

Import Experimental.

(** What [handler] makes of the payload of an answer:
    [if (data.error) reject(data.error) else resolve(data.result)]. *)
Definition outcome (data : Value) : PromiseState :=
  match get data "error" with
  | Throw _ => Pending
  | Return error =>
      if truthy error then Rejected error
      else match get data "result" with
           | Throw _ => Pending
           | Return result => Fulfilled result
           end
  end.

(** Nothing dangles: every request that is not settled is in flight, the
    window holds no listener twice, and no armed timer is overdue. *)
Record tidy (w : World) : Prop := {
  unsettled_live : ∀ k f, frames w !! k = Some f → settlements k (log w) = [] →
    ∃ due, live k f due w;
  listeners_nodup : NoDup (message_listeners w);
  timers_ahead : ∀ t, t ∈ timers w → (now w ≤ tm_due t)%Z;
  timers_strictly_ahead : ∀ t f, t ∈ timers w → frames w !! tm_frame t = Some f →
    (fr_timeoutMs f < 2 ^ 31)%Z → (now w < tm_due t)%Z
}.

(** A page that never talked to anyone: no request, no listener, no timer,
    nothing posted, and every promise it returned rejected as not framed. *)
Record inert (w : World) : Prop := {
  inert_top : parent w = window w;
  inert_counter : _experimentalRequestId w = 0%Z;
  inert_frames : frames w = ∅;
  inert_listeners : message_listeners w = [];
  inert_timers : timers w = [];
  inert_signals : ∀ s sg, signals w !! s = Some sg → abort_listeners sg = [];
  inert_posted : posted (log w) = [];
  inert_promises : ∀ p, p < next_promise w →
    settlements p (log w) = [Rejected not_in_iframe_error];
  inert_log : ∀ p, next_promise w ≤ p → settlements p (log w) = []
}.

End Sessions.

Import Experimental.

(** * Properties of the experimental request helper *)

(** ** What [cleanup] touches *)

Lemma cleanup_frames k w : frames (cleanup k w) = frames w.
Proof.
  unfold cleanup. destruct (frames w !! k) as [f|]; [|done].
  by destruct (timeoutId f), (fr_signal f).
Qed.

Lemma cleanup_fixed k w :
  window (cleanup k w) = window w ∧ parent (cleanup k w) = parent w
  ∧ _experimentalRequestId (cleanup k w) = _experimentalRequestId w
  ∧ now (cleanup k w) = now w
  ∧ next_promise (cleanup k w) = next_promise w
  ∧ next_timer (cleanup k w) = next_timer w.
Proof.
  unfold cleanup. destruct (frames w !! k) as [f|]; [|done].
  by destruct (timeoutId f), (fr_signal f).
Qed.

Lemma cleanup_message_listeners k w :
  is_Some (frames w !! k) →
  message_listeners (cleanup k w) = filter (λ j, j ≠ k) (message_listeners w).
Proof.
  intros [f Hf]. unfold cleanup. rewrite Hf.
  by destruct (timeoutId f), (fr_signal f).
Qed.

Lemma cleanup_timers k f w :
  frames w !! k = Some f →
  timers (cleanup k w) =
    match timeoutId f with
    | Some t => filter (λ x, tm_id x ≠ t) (timers w)
    | None => timers w
    end.
Proof.
  intros Hf. unfold cleanup. rewrite Hf.
  by destruct (timeoutId f), (fr_signal f).
Qed.

Lemma cleanup_signals k f w :
  frames w !! k = Some f →
  signals (cleanup k w) =
    match fr_signal f with
    | Some s => alter (drop_abort_listener k) s (signals w)
    | None => signals w
    end.
Proof.
  intros Hf. unfold cleanup. rewrite Hf.
  by destruct (timeoutId f), (fr_signal f).
Qed.

Lemma cleanup_settlements p k w :
  settlements p (log (cleanup k w)) = settlements p (log w).
Proof.
  unfold cleanup. destruct (frames w !! k) as [f|]; [|done].
  by destruct (timeoutId f), (fr_signal f).
Qed.

Lemma cleanup_posted k w : posted (log (cleanup k w)) = posted (log w).
Proof.
  unfold cleanup. destruct (frames w !! k) as [f|]; [|done].
  by destruct (timeoutId f), (fr_signal f).
Qed.

Lemma cleanup_uncaught k w : uncaught (log (cleanup k w)) = uncaught (log w).
Proof.
  unfold cleanup. destruct (frames w !! k) as [f|]; [|done].
  by destruct (timeoutId f), (fr_signal f).
Qed.

Lemma cleanup_listeners_subseteq k w j :
  j ∈ message_listeners (cleanup k w) → j ∈ message_listeners w.
Proof.
  revert j. destruct (frames w !! k) as [f|] eqn:Hf.
  - rewrite cleanup_message_listeners by eauto.
    intros j Hj. apply list_elem_of_filter in Hj. tauto.
  - unfold cleanup. by rewrite Hf.
Qed.

Lemma cleanup_timers_subseteq k w t :
  t ∈ timers (cleanup k w) → t ∈ timers w.
Proof.
  revert t. destruct (frames w !! k) as [f|] eqn:Hf.
  - rewrite (cleanup_timers k f) by done. destruct (timeoutId f); [|done].
    intros j Hj. apply list_elem_of_filter in Hj. tauto.
  - unfold cleanup. by rewrite Hf.
Qed.

Lemma cleanup_signals_lookup k w s sg' :
  signals (cleanup k w) !! s = Some sg' →
  ∃ sg, signals w !! s = Some sg ∧ aborted sg' = aborted sg
        ∧ ∀ j, j ∈ abort_listeners sg' → j ∈ abort_listeners sg.
Proof.
  destruct (frames w !! k) as [f|] eqn:Hf.
  - rewrite (cleanup_signals k f) by done. destruct (fr_signal f) as [s0|].
    + rewrite lookup_alter. case_decide as Hs.
      * subst s0. destruct (signals w !! s) as [sg|] eqn:Hsg; [|done].
        intros [= <-]. exists sg. split_and!; [done..|].
        intros j Hj. cbn in Hj. apply list_elem_of_filter in Hj. tauto.
      * intros H. exists sg'. done.
    + intros H. exists sg'. done.
  - unfold cleanup. rewrite Hf. intros H. exists sg'. done.
Qed.

(** ** One closure running to completion *)

Lemma settle_settlements j k o w :
  settlements j (log (settle k o w)) =
    (if decide (k = j) then match o with Pending => [] | _ => [o] end else [])
    ++ settlements j (log w).
Proof. destruct o; cbn; repeat case_decide; done. Qed.

Lemma settle_posted k o w : posted (log (settle k o w)) = posted (log w).
Proof. by destruct o. Qed.

Lemma settle_uncaught k o w : uncaught (log (settle k o w)) = uncaught (log w).
Proof. by destruct o. Qed.

Lemma settle_fixed k o w :
  window (settle k o w) = window w ∧ parent (settle k o w) = parent w
  ∧ _experimentalRequestId (settle k o w) = _experimentalRequestId w
  ∧ now (settle k o w) = now w
  ∧ frames (settle k o w) = frames w
  ∧ next_promise (settle k o w) = next_promise w
  ∧ message_listeners (settle k o w) = message_listeners w
  ∧ timers (settle k o w) = timers w
  ∧ next_timer (settle k o w) = next_timer w
  ∧ signals (settle k o w) = signals w.
Proof. by destruct o. Qed.

(** After its [cleanup], a frame has nothing registered any more. *)
Lemma cleanup_unregisters k w :
  consistent w → ¬ registered k (cleanup k w).
Proof.
  intros Hc [Hm | [(t & Ht & Hk) | (s & sg' & Hs & Hk)]].
  - assert (k ∈ message_listeners w) as Hin by (by apply (cleanup_listeners_subseteq k)).
    rewrite cleanup_message_listeners in Hm by (by apply message_listeners_owned).
    apply list_elem_of_filter in Hm. tauto.
  - assert (t ∈ timers w) as Hin by (by apply (cleanup_timers_subseteq k)).
    destruct (timers_owned w Hc t Hin) as (f & Hf & Hid). rewrite Hk in Hf.
    rewrite (cleanup_timers k f) in Ht by done. rewrite Hid in Ht.
    apply list_elem_of_filter in Ht. tauto.
  - destruct (cleanup_signals_lookup _ _ _ _ Hs) as (sg & Hsg & _ & Hsub).
    destruct (abort_listeners_owned w Hc s sg k Hsg (Hsub _ Hk)) as (f & Hf & Hfs).
    rewrite (cleanup_signals k f) in Hs by done. rewrite Hfs in Hs.
    rewrite lookup_alter_eq, Hsg in Hs. injection Hs as <-.
    cbn in Hk. apply list_elem_of_filter in Hk. tauto.
Qed.

Lemma cleanup_registered_subset j k w :
  registered j (cleanup k w) → registered j w.
Proof.
  intros [Hm | [(t & Ht & Hk) | (s & sg' & Hs & Hk)]].
  - left. by apply (cleanup_listeners_subseteq k).
  - right; left. exists t. split; [|done]. by apply (cleanup_timers_subseteq k).
  - right; right. destruct (cleanup_signals_lookup _ _ _ _ Hs) as (sg & Hsg & _ & Hsub).
    exists s, sg. split; [done|]. by apply Hsub.
Qed.

(** A closure that runs [cleanup] and settles its own, so far unsettled,
    promise keeps the page consistent. *)
Lemma fire_consistent k o w :
  consistent w → is_Some (frames w !! k) → settlements k (log w) = [] →
  consistent (settle k o (cleanup k w)).
Proof.
  intros Hc [f Hf] Hk.
  destruct (settle_fixed k o (cleanup k w)) as (_ & _ & Eid & _ & Efr & Enp & Eml & Etm & Ent & Esg).
  destruct (cleanup_fixed k w) as (_ & _ & Eid' & _ & Enp' & Ent').
  split; rewrite ?Eid, ?Efr, ?Enp, ?Eml, ?Etm, ?Ent, ?Esg,
                 ?Eid', ?Enp', ?Ent', ?cleanup_frames, ?settle_posted, ?cleanup_posted.
  - apply Hc.
  - apply Hc.
  - apply Hc.
  - apply Hc.
  - apply Hc.
  - intros t Ht. apply (timers_owned w Hc). by apply (cleanup_timers_subseteq k).
  - intros t t' Ht Ht'. apply (timers_distinct w Hc); by apply (cleanup_timers_subseteq k).
  - intros s sg' j Hs Hj.
    destruct (cleanup_signals_lookup _ _ _ _ Hs) as (sg & Hsg & _ & Hsub).
    apply (abort_listeners_owned w Hc s sg); [done|]. by apply Hsub.
  - intros j Hj. apply (message_listeners_owned w Hc). by apply (cleanup_listeners_subseteq k).
  - apply Hc.
  - intros j Hj.
    assert (registered j (cleanup k w)) as Hj'.
    { destruct Hj as [Hm | [(t & Ht & Hjt) | (s & sg' & Hs & Hjs)]].
      - left. by rewrite <- Eml.
      - right; left. exists t. by rewrite <- Etm.
      - right; right. exists s, sg'. by rewrite <- Esg. }
    assert (k ≠ j) as Hne.
    { intros ->. by apply (cleanup_unregisters j w). }
    rewrite settle_settlements, cleanup_settlements. rewrite decide_False by done.
    apply (settled_unregistered w Hc). by apply cleanup_registered_subset in Hj'.
  - intros j. rewrite settle_settlements, cleanup_settlements.
    case_decide as Hj.
    + subst j. rewrite Hk. destruct o; cbn; lia.
    + apply (settled_once w Hc).
  - intros j Hj. rewrite settle_settlements, cleanup_settlements.
    rewrite decide_False.
    + by apply (log_bound w Hc).
    + intros ->. destruct (frames_bound w Hc j f Hf). lia.
Qed.

Lemma fire_keeps_live j fj due k o w :
  consistent w → live j fj due w → j ≠ k → live j fj due (settle k o (cleanup k w)).
Proof.
  intros Hc [Hfj Hl Ht Hnt Hs] Hne.
  destruct (settle_fixed k o (cleanup k w)) as (_ & _ & _ & _ & Efr & _ & Eml & Etm & _ & Esg).
  destruct (frames w !! k) as [f|] eqn:Hf.
  2:{ unfold cleanup in *. rewrite Hf in *. split; rewrite ?Efr, ?Eml, ?Etm, ?Esg; done. }
  split; rewrite ?Efr, ?Eml, ?Etm, ?Esg, ?cleanup_frames.
  - done.
  - rewrite cleanup_message_listeners by eauto. apply list_elem_of_filter. done.
  - intros Hpos. destruct (Ht Hpos) as (t & Hid & Hin). exists t. split; [done|].
    rewrite (cleanup_timers k f) by done. destruct (timeoutId f) as [tk|] eqn:Htk; [|done].
    apply list_elem_of_filter. split; [|done]. cbn. intros ->.
    apply Hne. by apply (timeoutId_distinct w Hc j k fj f tk).
  - done.
  - intros s Hsj. destruct (Hs s Hsj) as (sg & Hsg & Hab & Hin).
    rewrite (cleanup_signals k f) by done. destruct (fr_signal f) as [sk|]; [|by eauto].
    rewrite lookup_alter. case_decide as Hsk.
    + subst sk. rewrite Hsg. cbn. eexists. split; [done|]. cbn. split; [done|].
      apply list_elem_of_filter. done.
    + eauto.
Qed.

(** ** The message listener *)

Lemma strict_eq_string_true v s : strict_eq_string v s = true ↔ v = Str s.
Proof.
  destruct v; cbn; try (split; [discriminate | discriminate]).
  rewrite String.eqb_eq. split; [by intros -> | by intros [= ->]].
Qed.

Lemma strict_eq_number_true v n : strict_eq_number v n = true ↔ v = Num n.
Proof.
  destruct v; cbn; try (split; [discriminate | discriminate]).
  rewrite Z.eqb_eq. split; [by intros -> | by intros [= ->]].
Qed.

(** A payload that carries [jsonrpc: '2.0'] can be read without throwing. *)
Lemma get_after_guard d key :
  get_optional d "jsonrpc" = Str "2.0" → ∃ v, get d key = Return v ∧ get_optional d key = v.
Proof. destruct d; cbn; try discriminate; eauto. Qed.

Lemma handler_match k f event w :
  frames w !! k = Some f → answers (parent w) (fr_id f) event →
  ∃ error result,
    get (data event) "error" = Return error ∧ get (data event) "result" = Return result
    ∧ handler k event w =
        Returned (settle k (if truthy error then Rejected error else Fulfilled result)
                    (cleanup k w)).
Proof.
  intros Hf (Hsrc & Hrpc & Hid).
  destruct (get_after_guard _ "error" Hrpc) as (error & He & _).
  destruct (get_after_guard _ "result" Hrpc) as (result & Hr & _).
  exists error, result. split_and!; [done..|].
  unfold handler. rewrite Hf, bool_decide_true by done. cbn [negb].
  rewrite (proj2 (strict_eq_string_true _ _) Hrpc), (proj2 (strict_eq_number_true _ _) Hid).
  cbn [andb]. rewrite He, Hr. by destruct (truthy error).
Qed.

Lemma handler_no_match k event w :
  (∀ f, frames w !! k = Some f → ¬ answers (parent w) (fr_id f) event) →
  handler k event w = Returned w.
Proof.
  intros Hno. unfold handler. destruct (frames w !! k) as [f|]; [|done].
  case_bool_decide as Hsrc; [|done]. cbn [negb].
  destruct (strict_eq_string _ _) eqn:Hrpc; [|done].
  destruct (strict_eq_number _ _) eqn:Hid; [|done].
  exfalso. apply (Hno f eq_refl). split_and!; [done|..].
  - by apply strict_eq_string_true.
  - by apply strict_eq_number_true.
Qed.

Lemma handler_cases k event w :
  handler k event w = Returned w
  ∨ ∃ f o, frames w !! k = Some f ∧ answers (parent w) (fr_id f) event
           ∧ handler k event w = Returned (settle k o (cleanup k w)).
Proof.
  destruct (frames w !! k) as [f|] eqn:Hf.
  - destruct (decide (source event = Some (parent w))) as [Hsrc|Hsrc].
    + destruct (strict_eq_string (get_optional (data event) "jsonrpc") "2.0") eqn:Hrpc.
      * destruct (strict_eq_number (get_optional (data event) "id") (fr_id f)) eqn:Hid.
        -- right. exists f.
           assert (answers (parent w) (fr_id f) event) as Ha.
           { split_and!; [done|..].
             - by apply strict_eq_string_true.
             - by apply strict_eq_number_true. }
           destruct (handler_match k f event w Hf Ha) as (e & r & _ & _ & ->). eauto.
        -- left. apply handler_no_match. intros f' Hf' (_ & _ & Hid').
           assert (f' = f) as -> by congruence.
           apply strict_eq_number_true in Hid'. congruence.
      * left. apply handler_no_match. intros f' Hf' (_ & Hrpc' & _).
        apply strict_eq_string_true in Hrpc'. congruence.
    + left. apply handler_no_match. intros f' Hf' (Hsrc' & _). done.
  - left. apply handler_no_match. intros f' Hf'. congruence.
Qed.

(** The message listener never throws. *)
Lemma handler_returns k event w : ∃ w', handler k event w = Returned w'.
Proof. destruct (handler_cases k event w) as [-> | (f & o & _ & _ & ->)]; eauto. Qed.

Lemma invoke_handler_cases k event w :
  invoke_handler k event w = w
  ∨ ∃ f o, frames w !! k = Some f ∧ answers (parent w) (fr_id f) event
           ∧ invoke_handler k event w = settle k o (cleanup k w).
Proof.
  unfold invoke_handler.
  destruct (handler_cases k event w) as [-> | (f & o & Hf & Ha & ->)]; [by left|].
  right. by exists f, o.
Qed.

(** ** Moving on *)

Lemma evolves_refl w : evolves w w.
Proof. split; try done. intros j. by exists []. Qed.

Lemma evolves_trans w1 w2 w3 : evolves w1 w2 → evolves w2 w3 → evolves w1 w3.
Proof.
  intros [Hw1 Hp1 Hf1 Hs1] [Hw2 Hp2 Hf2 Hs2]. split.
  - congruence.
  - congruence.
  - eauto.
  - intros j. destruct (Hs1 j) as [x1 E1], (Hs2 j) as [x2 E2].
    exists (x2 ++ x1). by rewrite E2, E1, app_assoc.
Qed.

Lemma fire_evolves k o w : evolves w (settle k o (cleanup k w)).
Proof.
  destruct (settle_fixed k o (cleanup k w)) as (Ew & Ep & _ & _ & Efr & _).
  destruct (cleanup_fixed k w) as (Ew' & Ep' & _).
  split.
  - congruence.
  - congruence.
  - intros j f. by rewrite Efr, cleanup_frames.
  - intros j. rewrite settle_settlements, cleanup_settlements. eauto.
Qed.

(** In a consistent page a settled promise stays as it is. *)
Lemma settled_stays w w' j o :
  evolves w w' → consistent w' → settlements j (log w) = [o] →
  settlements j (log w') = [o].
Proof.
  intros He Hc Hj. destruct (settlements_kept w w' He j) as [extra E].
  pose proof (settled_once w' Hc j) as Hlen. rewrite E, Hj in *.
  rewrite length_app in Hlen. cbn in Hlen.
  destruct extra; [done | cbn in Hlen; lia].
Qed.

Lemma settled_stays_nonempty w w' j :
  evolves w w' → consistent w' → settlements j (log w) ≠ [] →
  settlements j (log w') = settlements j (log w).
Proof.
  intros He Hc Hj. destruct (settlements_kept w w' He j) as [extra E].
  pose proof (settled_once w' Hc j) as Hlen. rewrite E in *.
  rewrite length_app in Hlen.
  destruct (settlements j (log w)); [done|]. cbn in Hlen.
  destruct extra; [done | cbn in Hlen; lia].
Qed.

(** ** Dispatch of a message event *)

Lemma deliver_cases event w k :
  deliver event w k = w
  ∨ ∃ f o, frames w !! k = Some f ∧ k ∈ message_listeners w
           ∧ answers (parent w) (fr_id f) event
           ∧ deliver event w k = settle k o (cleanup k w).
Proof.
  unfold deliver. case_decide as Hk; [|by left].
  destruct (invoke_handler_cases k event w) as [-> | (f & o & Hf & Ha & ->)]; [by left|].
  right. by exists f, o.
Qed.

Lemma deliver_consistent event w k : consistent w → consistent (deliver event w k).
Proof.
  intros Hc. destruct (deliver_cases event w k) as [-> | (f & o & Hf & Hk & _ & ->)]; [done|].
  apply fire_consistent; [done | by eauto |].
  apply (settled_unregistered w Hc). by left.
Qed.

Lemma deliver_evolves event w k : evolves w (deliver event w k).
Proof.
  destruct (deliver_cases event w k) as [-> | (f & o & _ & _ & _ & ->)].
  - apply evolves_refl.
  - apply fire_evolves.
Qed.

Lemma deliver_uncaught event w k : uncaught (log (deliver event w k)) = uncaught (log w).
Proof.
  destruct (deliver_cases event w k) as [-> | (f & o & _ & _ & _ & ->)]; [done|].
  by rewrite settle_uncaught, cleanup_uncaught.
Qed.

Lemma dispatch_fold_consistent event l w :
  consistent w → consistent (fold_left (deliver event) l w).
Proof.
  revert w. induction l as [|k l IH]; intros w Hc; [done|].
  cbn. apply IH. by apply deliver_consistent.
Qed.

Lemma dispatch_fold_evolves event l w : evolves w (fold_left (deliver event) l w).
Proof.
  revert w. induction l as [|k l IH]; intros w; [apply evolves_refl|].
  cbn. eapply evolves_trans; [apply deliver_evolves | apply IH].
Qed.

Lemma dispatch_fold_uncaught event l w :
  uncaught (log (fold_left (deliver event) l w)) = uncaught (log w).
Proof.
  revert w. induction l as [|k l IH]; intros w; [done|].
  cbn. by rewrite IH, deliver_uncaught.
Qed.

(** A message nobody is waiting for leaves the page as it is. *)
Lemma dispatch_fold_ignored event l w :
  (∀ k f, k ∈ message_listeners w → frames w !! k = Some f →
          ¬ answers (parent w) (fr_id f) event) →
  fold_left (deliver event) l w = w.
Proof.
  intros Hno. induction l as [|k l IH]; [done|].
  cbn. destruct (deliver_cases event w k) as [-> | (f & o & Hf & Hk & Ha & _)]; [done|].
  by destruct (Hno k f).
Qed.

Lemma deliver_listeners event w k j :
  j ∈ message_listeners (deliver event w k) → j ∈ message_listeners w.
Proof.
  destruct (deliver_cases event w k) as [-> | (f & o & _ & _ & _ & ->)]; [done|].
  destruct (settle_fixed k o (cleanup k w)) as (_ & _ & _ & _ & _ & _ & -> & _).
  apply cleanup_listeners_subseteq.
Qed.

(** Only a frame that has its listener on the window, and whose id the
    message carries, can be settled by it. *)
Lemma dispatch_fold_only event l w j :
  settlements j (log (fold_left (deliver event) l w)) ≠ settlements j (log w) →
  j ∈ message_listeners w
  ∧ ∃ f, frames w !! j = Some f ∧ answers (parent w) (fr_id f) event.
Proof.
  revert w. induction l as [|k l IH]; intros w Hch; [done|].
  cbn in Hch. destruct (deliver_cases event w k) as [E | (f & o & Hf & Hk & Ha & E)].
  - rewrite E in Hch. by apply IH.
  - destruct (decide (k = j)) as [->|Hne]; [by eauto|].
    assert (settlements j (log (deliver event w k)) = settlements j (log w)) as Hsame.
    { rewrite E, settle_settlements, cleanup_settlements. by rewrite decide_False. }
    rewrite <- Hsame in Hch. destruct (IH _ Hch) as (Hj & f' & Hf' & Ha').
    split; [by apply (deliver_listeners event w k)|].
    pose proof (fire_evolves k o w) as Hev. rewrite <- E in Hev.
    destruct (settle_fixed k o (cleanup k w)) as (_ & _ & _ & _ & Efr & _).
    rewrite E, Efr, cleanup_frames in Hf'. exists f'. split; [done|].
    by rewrite <- (same_parent _ _ Hev).
Qed.

(** The frame the message answers is settled by it, and nothing else
    happens. *)
Lemma dispatch_answer event w k f :
  consistent w → frames w !! k = Some f → k ∈ message_listeners w →
  answers (parent w) (fr_id f) event →
  ∃ error result,
    get (data event) "error" = Return error ∧ get (data event) "result" = Return result
    ∧ dispatch_message event w =
        settle k (if truthy error then Rejected error else Fulfilled result) (cleanup k w).
Proof.
  intros Hc Hf Hk Ha.
  destruct (handler_match k f event w Hf Ha) as (error & result & He & Hr & Hh).
  exists error, result. split_and!; [done..|].
  set (W := settle k _ (cleanup k w)) in *.
  assert (∀ k' f', frames w !! k' = Some f' → answers (parent w) (fr_id f') event → k' = k)
    as Honly.
  { intros k' f' Hf' (_ & _ & Hid'). destruct Ha as (_ & _ & Hid).
    apply (ids_distinct w Hc k' k f' f); congruence. }
  assert (deliver event w k = W) as Hfire.
  { unfold deliver, invoke_handler. by rewrite decide_True, Hh by done. }
  assert (∀ k', k' ≠ k → deliver event w k' = w) as Hskip.
  { intros k' Hne.
    destruct (deliver_cases event w k') as [-> | (f' & o & Hf' & _ & Ha' & _)]; [done|].
    destruct Hne. eauto. }
  assert (∀ l, fold_left (deliver event) l W = W) as Hdone.
  { intros l. apply dispatch_fold_ignored. intros k' f' Hk' Hf' Ha'.
    destruct (settle_fixed k (if truthy error then Rejected error else Fulfilled result)
                (cleanup k w)) as (_ & Ep & _ & _ & Efr & _ & Eml & _).
    destruct (cleanup_fixed k w) as (_ & Ep' & _).
    fold W in Ep, Efr, Eml.
    rewrite Eml, cleanup_message_listeners in Hk' by eauto.
    apply list_elem_of_filter in Hk' as [Hne _].
    rewrite Efr, cleanup_frames in Hf'. rewrite Ep, Ep' in Ha'.
    apply Hne. eauto. }
  unfold dispatch_message. revert Hk. generalize (message_listeners w) as l.
  induction l as [|k' l IH]; intros Hk.
  - by apply elem_of_nil in Hk.
  - cbn. destruct (decide (k' = k)) as [->|Hne].
    + rewrite Hfire. apply Hdone.
    + rewrite Hskip by done. apply IH.
      apply elem_of_cons in Hk as [->|]; done.
Qed.

(** ** Abort *)

Lemma signal_state_elem s w k :
  k ∈ abort_listeners (signal_state s w) →
  ∃ sg, signals w !! s = Some sg ∧ k ∈ abort_listeners sg ∧ signal_state s w = sg.
Proof.
  unfold signal_state. destruct (signals w !! s) as [sg|]; cbn.
  - eauto.
  - intros H. by apply elem_of_nil in H.
Qed.

Lemma cleanup_keeps_abort j k w s sg :
  j ≠ k → signals w !! s = Some sg → j ∈ abort_listeners sg →
  ∃ sg', signals (cleanup k w) !! s = Some sg' ∧ aborted sg' = aborted sg
         ∧ j ∈ abort_listeners sg'.
Proof.
  intros Hne Hsg Hj. destruct (frames w !! k) as [f|] eqn:Hf.
  - rewrite (cleanup_signals k f) by done. destruct (fr_signal f) as [sk|]; [|by eauto].
    rewrite lookup_alter. case_decide as Hsk; [|by eauto].
    subst sk. rewrite Hsg. cbn. eexists. split; [done|]. cbn. split; [done|].
    by apply list_elem_of_filter.
  - unfold cleanup. rewrite Hf. eauto.
Qed.

Lemma onAbort_unfold k f w :
  frames w !! k = Some f →
  onAbort k w = settle k (Rejected (abort_error (fr_method f))) (cleanup k w).
Proof. intros Hf. unfold onAbort. by rewrite Hf. Qed.

Lemma notify_abort_cases s w k :
  notify_abort s w k = w
  ∨ ∃ f, frames w !! k = Some f ∧ k ∈ abort_listeners (signal_state s w)
         ∧ notify_abort s w k
           = settle k (Rejected (abort_error (fr_method f))) (cleanup k w).
Proof.
  unfold notify_abort. case_decide as Hk; [|by left].
  destruct (frames w !! k) as [f|] eqn:Hf.
  - right. exists f. by rewrite (onAbort_unfold k f).
  - left. unfold onAbort. by rewrite Hf.
Qed.

Lemma notify_abort_consistent s w k : consistent w → consistent (notify_abort s w k).
Proof.
  intros Hc. destruct (notify_abort_cases s w k) as [-> | (f & Hf & Hk & ->)]; [done|].
  apply fire_consistent; [done | by eauto |].
  apply (settled_unregistered w Hc). right; right.
  destruct (signal_state_elem _ _ _ Hk) as (sg & Hsg & Hin & _). eauto.
Qed.

Lemma notify_abort_evolves s w k : evolves w (notify_abort s w k).
Proof.
  destruct (notify_abort_cases s w k) as [-> | (f & _ & _ & ->)].
  - apply evolves_refl.
  - apply fire_evolves.
Qed.

Lemma notify_abort_uncaught s w k : uncaught (log (notify_abort s w k)) = uncaught (log w).
Proof.
  destruct (notify_abort_cases s w k) as [-> | (f & _ & _ & ->)]; [done|].
  by rewrite settle_uncaught, cleanup_uncaught.
Qed.

Lemma notify_abort_posted s w k : posted (log (notify_abort s w k)) = posted (log w).
Proof.
  destruct (notify_abort_cases s w k) as [-> | (f & _ & _ & ->)]; [done|].
  by rewrite settle_posted, cleanup_posted.
Qed.

Lemma abort_fold_consistent s l w :
  consistent w → consistent (fold_left (notify_abort s) l w).
Proof.
  revert w. induction l as [|k l IH]; intros w Hc; [done|].
  cbn. apply IH. by apply notify_abort_consistent.
Qed.

Lemma abort_fold_evolves s l w : evolves w (fold_left (notify_abort s) l w).
Proof.
  revert w. induction l as [|k l IH]; intros w; [apply evolves_refl|].
  cbn. eapply evolves_trans; [apply notify_abort_evolves | apply IH].
Qed.

Lemma abort_fold_uncaught s l w :
  uncaught (log (fold_left (notify_abort s) l w)) = uncaught (log w).
Proof.
  revert w. induction l as [|k l IH]; intros w; [done|].
  cbn. by rewrite IH, notify_abort_uncaught.
Qed.

Lemma abort_fold_posted s l w :
  posted (log (fold_left (notify_abort s) l w)) = posted (log w).
Proof.
  revert w. induction l as [|k l IH]; intros w; [done|].
  cbn. by rewrite IH, notify_abort_posted.
Qed.

(** A frame listening on another signal is not disturbed. *)
Lemma abort_fold_keeps_live s l j fj due w :
  consistent w → live j fj due w → fr_signal fj ≠ Some s →
  live j fj due (fold_left (notify_abort s) l w).
Proof.
  revert w. induction l as [|k l IH]; intros w Hc Hl Hs; [done|].
  cbn. apply IH; [by apply notify_abort_consistent | | done].
  destruct (notify_abort_cases s w k) as [-> | (f & Hf & Hk & ->)]; [done|].
  apply fire_keeps_live; [done..|].
  intros ->. destruct (signal_state_elem _ _ _ Hk) as (sg & Hsg & Hin & _).
  destruct (abort_listeners_owned w Hc s sg k Hsg Hin) as (f' & Hf' & Hfs).
  rewrite (live_frame _ _ _ _ Hl) in Hf'. congruence.
Qed.

(** A frame listening on the signal is rejected by its [onAbort]. *)
Lemma abort_fold_fires s j fj l w :
  consistent w → frames w !! j = Some fj →
  (∃ sg, signals w !! s = Some sg ∧ j ∈ abort_listeners sg) → j ∈ l →
  settlements j (log (fold_left (notify_abort s) l w))
  = [Rejected (abort_error (fr_method fj))].
Proof.
  revert w. induction l as [|k l IH]; intros w Hc Hf (sg & Hsg & Hin) Hj.
  - by apply elem_of_nil in Hj.
  - cbn. destruct (decide (k = j)) as [->|Hne].
    + assert (notify_abort s w j
              = settle j (Rejected (abort_error (fr_method fj))) (cleanup j w)) as E.
      { unfold notify_abort. rewrite decide_True.
        - by apply onAbort_unfold.
        - unfold signal_state. by rewrite Hsg. }
      apply (settled_stays (notify_abort s w j)).
      * apply abort_fold_evolves.
      * apply abort_fold_consistent. by apply notify_abort_consistent.
      * rewrite E, settle_settlements, cleanup_settlements, decide_True by done.
        rewrite (settled_unregistered w Hc j); [done|]. right; right. eauto.
    + apply IH.
      * by apply notify_abort_consistent.
      * by apply (frames_kept _ _ (notify_abort_evolves s w k)).
      * destruct (notify_abort_cases s w k) as [-> | (f & _ & _ & ->)]; [by eauto|].
        destruct (settle_fixed k (Rejected (abort_error (fr_method f))) (cleanup k w))
          as (_ & _ & _ & _ & _ & _ & _ & _ & _ & ->).
        destruct (cleanup_keeps_abort j k w s sg) as (sg' & ? & _ & ?); eauto.
      * apply elem_of_cons in Hj as [->|]; done.
Qed.

(** Marking a signal as aborted. *)
Lemma mark_aborted_consistent s w :
  consistent w →
  consistent (set_signals (<[s := {| aborted := true;
                                     abort_listeners := abort_listeners (signal_state s w) |}]>
                             (signals w)) w).
Proof.
  intros Hc.
  assert (∀ s' sg' k, (<[s := {| aborted := true;
                                abort_listeners := abort_listeners (signal_state s w) |}]>
                        (signals w)) !! s' = Some sg' → k ∈ abort_listeners sg' →
                      ∃ sg, signals w !! s' = Some sg ∧ k ∈ abort_listeners sg) as Hsub.
  { intros s' sg' k. rewrite lookup_insert. case_decide as Hs.
    - subst s'. intros [= <-]. cbn. intros Hk.
      destruct (signal_state_elem _ _ _ Hk) as (sg & ? & ? & _). eauto.
    - eauto. }
  split; cbn; try apply Hc.
  - intros s' sg' k Hs' Hk. destruct (Hsub _ _ _ Hs' Hk) as (sg & ? & ?).
    by apply (abort_listeners_owned w Hc s' sg).
  - intros k Hk. apply (settled_unregistered w Hc).
    destruct Hk as [Hm | [Ht | (s' & sg' & Hs' & Hk)]]; [by left | by right; left |].
    right; right. destruct (Hsub _ _ _ Hs' Hk) as (sg & ? & ?). eauto.
Qed.

Lemma signal_abort_consistent s w : consistent w → consistent (signal_abort s w).
Proof.
  intros Hc. unfold signal_abort. destruct (aborted (signal_state s w)); [done|].
  apply abort_fold_consistent. by apply mark_aborted_consistent.
Qed.

Lemma signal_abort_evolves s w : evolves w (signal_abort s w).
Proof.
  unfold signal_abort. destruct (aborted (signal_state s w)); [apply evolves_refl|].
  eapply evolves_trans; [|apply abort_fold_evolves].
  split; cbn; try done. intros j. by exists [].
Qed.

Lemma signal_abort_uncaught s w : uncaught (log (signal_abort s w)) = uncaught (log w).
Proof.
  unfold signal_abort. destruct (aborted (signal_state s w)); [done|].
  by rewrite abort_fold_uncaught.
Qed.

Lemma signal_abort_posted s w : posted (log (signal_abort s w)) = posted (log w).
Proof.
  unfold signal_abort. destruct (aborted (signal_state s w)); [done|].
  by rewrite abort_fold_posted.
Qed.

Lemma signal_abort_keeps_live s j fj due w :
  consistent w → live j fj due w → fr_signal fj ≠ Some s →
  live j fj due (signal_abort s w).
Proof.
  intros Hc Hl Hs. unfold signal_abort. destruct (aborted (signal_state s w)); [done|].
  apply abort_fold_keeps_live; [by apply mark_aborted_consistent | | done].
  destruct Hl as [Hf Hm Ht Hnt Hsig]. split; cbn; try done.
  intros s' Hs'. destruct (Hsig s' Hs') as (sg & ? & ? & ?).
  exists sg. rewrite lookup_insert_ne by congruence. done.
Qed.

Lemma signal_abort_fires s j fj due w :
  consistent w → live j fj due w → fr_signal fj = Some s →
  settlements j (log (signal_abort s w)) = [Rejected (abort_error (fr_method fj))].
Proof.
  intros Hc Hl Hs. destruct (live_signal _ _ _ _ Hl s Hs) as (sg & Hsg & Hab & Hin).
  unfold signal_abort, signal_state. rewrite Hsg. cbn. rewrite Hab.
  apply abort_fold_fires.
  - pose proof (mark_aborted_consistent s w Hc) as Hm.
    unfold signal_state in Hm. by rewrite Hsg in Hm.
  - apply (live_frame _ _ _ _ Hl).
  - cbn. eexists. rewrite lookup_insert_eq. split; [done|]. done.
  - done.
Qed.

(** ** Timers *)

Lemma earliest_None l : earliest l = None → l = [].
Proof.
  destruct l as [|t l]; [done|]. cbn.
  destruct (earliest l) as [t'|]; [|done]. by destruct (tm_due t' <? tm_due t)%Z.
Qed.

Lemma earliest_Some l t :
  earliest l = Some t → t ∈ l ∧ ∀ t', t' ∈ l → (tm_due t ≤ tm_due t')%Z.
Proof.
  revert t. induction l as [|x l IH]; intros t; [done|]. cbn.
  destruct (earliest l) as [t'|] eqn:E.
  - destruct (IH t' eq_refl) as [Hin Hmin].
    destruct (tm_due t' <? tm_due x)%Z eqn:Hlt; intros [= <-].
    + apply Z.ltb_lt in Hlt. split; [by right|].
      intros y Hy. apply elem_of_cons in Hy as [->|Hy]; [lia | by apply Hmin].
    + apply Z.ltb_ge in Hlt. split; [by left|].
      intros y Hy. apply elem_of_cons in Hy as [->|Hy]; [lia|].
      specialize (Hmin y Hy). lia.
  - intros [= <-]. apply earliest_None in E as ->. split; [by left|].
    intros y Hy. apply elem_of_cons in Hy as [->|Hy]; [lia|]. by apply elem_of_nil in Hy.
Qed.

Lemma onTimeout_unfold k f w :
  frames w !! k = Some f →
  onTimeout k w
  = settle k (Rejected (timeout_error (fr_method f) (fr_timeoutMs f))) (cleanup k w).
Proof. intros Hf. unfold onTimeout. by rewrite Hf. Qed.

Lemma expire_consistent t w : consistent w → consistent (expire t w).
Proof.
  intros Hc. split; cbn; try apply Hc.
  - intros x Hx. apply list_elem_of_filter in Hx as [_ Hx]. by apply (timers_owned w Hc).
  - intros x y Hx Hy. apply list_elem_of_filter in Hx as [_ Hx].
    apply list_elem_of_filter in Hy as [_ Hy]. by apply (timers_distinct w Hc).
  - intros k Hk. apply (settled_unregistered w Hc).
    destruct Hk as [Hm | [(x & Hx & Hxk) | Hs]]; [by left | | by right; right].
    right; left. exists x. cbn in Hx. apply list_elem_of_filter in Hx as [_ Hx]. done.
Qed.

Lemma expire_length t w : t ∈ timers w → length (timers (expire t w)) < length (timers w).
Proof.
  intros Ht. cbn. induction (timers w) as [|x l IH]; [by apply elem_of_nil in Ht|].
  rewrite filter_cons. apply elem_of_cons in Ht as [<-|Ht].
  - rewrite decide_False by (intros H; by apply H). cbn.
    pose proof (length_filter (λ x, tm_id x ≠ tm_id t) l). lia.
  - specialize (IH Ht). case_decide; cbn; lia.
Qed.

Lemma cleanup_timers_length k w : length (timers (cleanup k w)) ≤ length (timers w).
Proof.
  destruct (frames w !! k) as [f|] eqn:Hf.
  - rewrite (cleanup_timers k f) by done. destruct (timeoutId f); [|done].
    apply length_filter.
  - unfold cleanup. by rewrite Hf.
Qed.

Lemma fire_timer_cases t w :
  consistent w → t ∈ timers w →
  ∃ f, frames w !! tm_frame t = Some f ∧ timeoutId f = Some (tm_id t)
       ∧ settlements (tm_frame t) (log w) = []
       ∧ onTimeout (tm_frame t) (expire t w)
         = settle (tm_frame t) (Rejected (timeout_error (fr_method f) (fr_timeoutMs f)))
             (cleanup (tm_frame t) (expire t w)).
Proof.
  intros Hc Ht. destruct (timers_owned w Hc t Ht) as (f & Hf & Hid).
  exists f. split_and!; [done..| |].
  - apply (settled_unregistered w Hc). right; left. eauto.
  - by apply onTimeout_unfold.
Qed.

Lemma fire_timer_consistent t w :
  consistent w → t ∈ timers w → consistent (onTimeout (tm_frame t) (expire t w)).
Proof.
  intros Hc Ht. destruct (fire_timer_cases t w Hc Ht) as (f & Hf & _ & Hs & ->).
  apply fire_consistent; [by apply expire_consistent | by eauto | done].
Qed.

Lemma fire_timer_evolves t w :
  consistent w → t ∈ timers w → evolves w (onTimeout (tm_frame t) (expire t w)).
Proof.
  intros Hc Ht. destruct (fire_timer_cases t w Hc Ht) as (f & _ & _ & _ & ->).
  eapply evolves_trans; [|apply fire_evolves].
  split; cbn; try done. intros j. by exists [].
Qed.

Lemma fire_timer_length t w :
  consistent w → t ∈ timers w →
  length (timers (onTimeout (tm_frame t) (expire t w))) < length (timers w).
Proof.
  intros Hc Ht. destruct (fire_timer_cases t w Hc Ht) as (f & _ & _ & _ & ->).
  destruct (settle_fixed (tm_frame t) (Rejected (timeout_error (fr_method f) (fr_timeoutMs f)))
              (cleanup (tm_frame t) (expire t w))) as (_ & _ & _ & _ & _ & _ & _ & -> & _).
  pose proof (cleanup_timers_length (tm_frame t) (expire t w)).
  pose proof (expire_length t w Ht). lia.
Qed.

Lemma run_timers_unfold rounds target w t :
  earliest (timers w) = Some t → (tm_due t ≤ target)%Z →
  run_timers (S rounds) target w
  = run_timers rounds target (onTimeout (tm_frame t) (expire t w)).
Proof. intros E Hd. cbn. rewrite E. apply Z.leb_le in Hd. by rewrite Hd. Qed.

Lemma run_timers_stop rounds target w :
  (∀ t, earliest (timers w) = Some t → (target < tm_due t)%Z) →
  run_timers rounds target w = set_now (Z.max (now w) target) w.
Proof.
  intros Hno. destruct rounds; [done|]. cbn.
  destruct (earliest (timers w)) as [t|]; [|done].
  specialize (Hno t eq_refl). apply Z.leb_gt in Hno. by rewrite Hno.
Qed.

(** Case analysis for one round of the timer loop. *)
Lemma run_timers_round rounds target w :
  run_timers rounds target w = set_now (Z.max (now w) target) w
  ∨ ∃ rounds' t, rounds = S rounds' ∧ t ∈ timers w
                 ∧ (∀ t', t' ∈ timers w → (tm_due t ≤ tm_due t')%Z)
                 ∧ (tm_due t ≤ target)%Z
                 ∧ run_timers rounds target w
                   = run_timers rounds' target (onTimeout (tm_frame t) (expire t w)).
Proof.
  destruct rounds as [|rounds']; [by left|].
  destruct (earliest (timers w)) as [t|] eqn:E.
  - destruct (decide (tm_due t ≤ target)%Z) as [Hd|Hd].
    + right. exists rounds', t. destruct (earliest_Some _ _ E) as [Hin Hmin].
      split_and!; [done..|]. by apply run_timers_unfold.
    + left. apply run_timers_stop. intros t' ?. assert (t' = t) as -> by congruence. lia.
  - left. apply run_timers_stop. intros t' ?. congruence.
Qed.

Lemma set_now_consistent n w : consistent w → consistent (set_now n w).
Proof. intros Hc. split; cbn; apply Hc. Qed.

Lemma run_timers_consistent rounds target w :
  consistent w → consistent (run_timers rounds target w).
Proof.
  revert w. induction rounds as [|rounds IH]; intros w Hc.
  - by apply set_now_consistent.
  - destruct (run_timers_round (S rounds) target w)
      as [-> | (r & t & [= <-] & Hin & _ & _ & ->)].
    + by apply set_now_consistent.
    + apply IH. by apply fire_timer_consistent.
Qed.

Lemma run_timers_evolves rounds target w :
  consistent w → evolves w (run_timers rounds target w).
Proof.
  assert (∀ n w, evolves w (set_now n w)) as Hnow.
  { intros n w'. split; cbn; try done. intros j. by exists []. }
  revert w. induction rounds as [|rounds IH]; intros w Hc.
  - apply Hnow.
  - destruct (run_timers_round (S rounds) target w)
      as [-> | (r & t & [= <-] & Hin & _ & _ & ->)]; [apply Hnow|].
    eapply evolves_trans; [by apply fire_timer_evolves|].
    apply IH. by apply fire_timer_consistent.
Qed.

Lemma run_timers_uncaught rounds target w :
  consistent w → uncaught (log (run_timers rounds target w)) = uncaught (log w).
Proof.
  revert w. induction rounds as [|rounds IH]; intros w Hc; [done|].
  destruct (run_timers_round (S rounds) target w)
    as [-> | (r & t & [= <-] & Hin & _ & _ & ->)]; [done|].
  rewrite IH by (by apply fire_timer_consistent).
  destruct (fire_timer_cases t w Hc Hin) as (f & _ & _ & _ & ->).
  by rewrite settle_uncaught, cleanup_uncaught.
Qed.

Lemma run_timers_posted rounds target w :
  consistent w → posted (log (run_timers rounds target w)) = posted (log w).
Proof.
  revert w. induction rounds as [|rounds IH]; intros w Hc; [done|].
  destruct (run_timers_round (S rounds) target w)
    as [-> | (r & t & [= <-] & Hin & _ & _ & ->)]; [done|].
  rewrite IH by (by apply fire_timer_consistent).
  destruct (fire_timer_cases t w Hc Hin) as (f & _ & _ & _ & ->).
  by rewrite settle_posted, cleanup_posted.
Qed.

(** The clock ends at the target. *)
Lemma run_timers_now rounds target w :
  consistent w → now (run_timers rounds target w) = Z.max (now w) target.
Proof.
  revert w. induction rounds as [|rounds IH]; intros w Hc; [done|].
  destruct (run_timers_round (S rounds) target w)
    as [-> | (r & t & [= <-] & Hin & _ & Hd & ->)]; [done|].
  rewrite IH by (by apply fire_timer_consistent).
  destruct (fire_timer_cases t w Hc Hin) as (f & _ & _ & _ & ->).
  destruct (settle_fixed (tm_frame t) (Rejected (timeout_error (fr_method f) (fr_timeoutMs f)))
              (cleanup (tm_frame t) (expire t w))) as (_ & _ & _ & -> & _).
  destruct (cleanup_fixed (tm_frame t) (expire t w)) as (_ & _ & _ & -> & _).
  cbn. lia.
Qed.

(** With as many rounds as there are timers, no timer that is due is left. *)
Lemma run_timers_complete rounds target w :
  consistent w → length (timers w) ≤ rounds →
  ∀ t, t ∈ timers (run_timers rounds target w) → (target < tm_due t)%Z.
Proof.
  revert w. induction rounds as [|rounds IH]; intros w Hc Hlen t.
  - cbn. destruct (timers w); [|cbn in Hlen; lia]. intros H. by apply elem_of_nil in H.
  - destruct (run_timers_round (S rounds) target w)
      as [E | (r & t0 & [= <-] & Hin & Hmin & Hd & ->)].
    + rewrite E. cbn. intros Ht.
      destruct (earliest (timers w)) as [t0|] eqn:E0.
      * destruct (earliest_Some _ _ E0) as [Hin Hmin].
        destruct (decide (tm_due t0 ≤ target)%Z) as [Hd|Hd].
        -- rewrite (run_timers_unfold rounds target w t0 E0 Hd) in E.
           pose proof (f_equal (λ x, length (timers x)) E) as El. cbn in El.
           pose proof (fire_timer_length t0 w Hc Hin) as Hlt.
           assert (consistent (onTimeout (tm_frame t0) (expire t0 w))) as Hc'
               by (by apply fire_timer_consistent).
           apply (IH _ Hc'); [lia|]. by rewrite E.
        -- specialize (Hmin t Ht). lia.
      * apply earliest_None in E0. rewrite E0 in Ht. by apply elem_of_nil in Ht.
    + apply IH; [by apply fire_timer_consistent|].
      pose proof (fire_timer_length t0 w Hc Hin). lia.
Qed.

(** A timer that is not yet due stays armed, and its frame in flight. *)
Lemma live_timer_unique j fj due w t :
  consistent w → live j fj due w → t ∈ timers w → tm_frame t = j →
  (0 < fr_timeoutMs fj)%Z ∧ tm_due t = due.
Proof.
  intros Hc Hl Ht Hj. destruct (timers_owned w Hc t Ht) as (f & Hf & Hid).
  rewrite Hj, (live_frame _ _ _ _ Hl) in Hf. injection Hf as <-.
  destruct (decide (0 < fr_timeoutMs fj)%Z) as [Hpos|Hnpos].
  - split; [done|]. destruct (live_timer _ _ _ _ Hl Hpos) as (t' & Hid' & Hin').
    assert (t = {| tm_id := t'; tm_due := due; tm_frame := j |}) as ->; [|done].
    apply (timers_distinct w Hc); [done..|]. cbn. congruence.
  - rewrite (live_no_timer _ _ _ _ Hl) in Hid by lia. done.
Qed.

Lemma expire_keeps_live j fj due w t :
  consistent w → live j fj due w → t ∈ timers w → tm_frame t ≠ j →
  live j fj due (expire t w).
Proof.
  intros Hc [Hf Hm Ht Hnt Hs] Hin Hne. split; cbn; try done.
  intros Hpos. destruct (Ht Hpos) as (t' & Hid & Hin'). exists t'. split; [done|].
  apply list_elem_of_filter. split; [|done]. cbn. intros E. apply Hne.
  by rewrite <- (timers_distinct w Hc _ _ Hin' Hin E).
Qed.

Lemma run_timers_keeps_live rounds target j fj due w :
  consistent w → live j fj due w → ((0 < fr_timeoutMs fj)%Z → (target < due)%Z) →
  live j fj due (run_timers rounds target w).
Proof.
  revert w. induction rounds as [|rounds IH]; intros w Hc Hl Hdue.
  - by destruct Hl.
  - destruct (run_timers_round (S rounds) target w)
      as [-> | (r & t & [= <-] & Hin & _ & Hd & ->)]; [by destruct Hl|].
    assert (tm_frame t ≠ j) as Hne.
    { intros Hj. destruct (live_timer_unique j fj due w t Hc Hl Hin Hj) as [Hpos E].
      specialize (Hdue Hpos). lia. }
    apply IH; [by apply fire_timer_consistent | | done].
    destruct (fire_timer_cases t w Hc Hin) as (f & _ & _ & _ & ->).
    apply fire_keeps_live; [by apply expire_consistent | | done].
    by apply expire_keeps_live.
Qed.

(** A timer that is due fires, and its frame is rejected with the timeout
    error. *)
Lemma run_timers_fires rounds target j fj due w :
  consistent w → live j fj due w → (0 < fr_timeoutMs fj)%Z → (due ≤ target)%Z →
  length (timers w) ≤ rounds →
  settlements j (log (run_timers rounds target w))
  = [Rejected (timeout_error (fr_method fj) (fr_timeoutMs fj))].
Proof.
  revert w. induction rounds as [|rounds IH]; intros w Hc Hl Hpos Hdue Hlen.
  - destruct (live_timer _ _ _ _ Hl Hpos) as (t & _ & Hin).
    destruct (timers w); [by apply elem_of_nil in Hin | cbn in Hlen; lia].
  - destruct (live_timer _ _ _ _ Hl Hpos) as (tj & Hidj & Hinj).
    destruct (run_timers_round (S rounds) target w)
      as [E | (r & t & [= <-] & Hin & Hmin & Hd & ->)].
    + exfalso. cbn in E. destruct (earliest (timers w)) as [t|] eqn:E0.
      * destruct (earliest_Some _ _ E0) as [Hin Hmin]. specialize (Hmin _ Hinj). cbn in Hmin.
        assert ((tm_due t <=? target)%Z = true) as Hle by (apply Z.leb_le; lia).
        rewrite Hle in E.
        pose proof (f_equal (λ x, length (timers x)) E) as El. cbn in El.
        pose proof (fire_timer_length t w Hc Hin) as Hlt.
        pose proof (run_timers_complete rounds target _
                      (fire_timer_consistent t w Hc Hin)) as Hcomp.
        rewrite E in Hcomp. cbn in Hcomp.
        specialize (Hcomp ltac:(lia) _ Hinj). cbn in Hcomp. lia.
      * apply earliest_None in E0. rewrite E0 in Hinj. by apply elem_of_nil in Hinj.
    + destruct (decide (tm_frame t = j)) as [<-|Hne].
      * destruct (fire_timer_cases t w Hc Hin) as (f & Hf & _ & Hs & E).
        rewrite (live_frame _ _ _ _ Hl) in Hf. injection Hf as <-.
        apply (settled_stays (onTimeout (tm_frame t) (expire t w))).
        -- apply run_timers_evolves. by apply fire_timer_consistent.
        -- apply run_timers_consistent. by apply fire_timer_consistent.
        -- rewrite E, settle_settlements, cleanup_settlements, decide_True by done.
           cbn. by rewrite Hs.
      * apply IH; [by apply fire_timer_consistent | | done | done |].
        -- destruct (fire_timer_cases t w Hc Hin) as (f & _ & _ & _ & ->).
           apply fire_keeps_live; [by apply expire_consistent | | done].
           by apply expire_keeps_live.
        -- pose proof (fire_timer_length t w Hc Hin). lia.
Qed.

(** [advance] runs the timer loop long enough: afterwards every timer left
    in the table is due later than the time reached. *)
Lemma advance_complete d w :
  consistent w →
  ∀ t, t ∈ timers (advance d w) → (now w + Z.max 0 d < tm_due t)%Z.
Proof. intros Hc. unfold advance. by apply run_timers_complete. Qed.

(** ** A call of [sendExperimentalRequest] *)

Lemma fresh_promise w : consistent w → frames w !! next_promise w = None.
Proof.
  intros Hc. destruct (frames w !! next_promise w) as [f|] eqn:Hf; [|done].
  destruct (frames_bound w Hc _ _ Hf). lia.
Qed.

Lemma fresh_listener w : consistent w → next_promise w ∉ message_listeners w.
Proof.
  intros Hc Hin. destruct (message_listeners_owned w Hc _ Hin) as [f Hf].
  by rewrite fresh_promise in Hf.
Qed.

Lemma fresh_abort_listener s w :
  consistent w → next_promise w ∉ abort_listeners (signal_state s w).
Proof.
  intros Hc Hin. destruct (signal_state_elem _ _ _ Hin) as (sg & Hsg & Hk & _).
  destruct (abort_listeners_owned w Hc s sg _ Hsg Hk) as (f & Hf & _).
  by rewrite fresh_promise in Hf.
Qed.

Lemma signal_addEventListener_fresh s k w :
  k ∉ abort_listeners (signal_state s w) →
  signal_addEventListener s k w
  = emit (AddAbortListener s k)
      (set_signals (<[s := {| aborted := aborted (signal_state s w);
                              abort_listeners := abort_listeners (signal_state s w) ++ [k] |}]>
                      (signals w)) w).
Proof. intros H. unfold signal_addEventListener. by rewrite decide_False. Qed.

Lemma window_addEventListener_fresh k w :
  k ∉ message_listeners w →
  window_addEventListener k w
  = emit (AddMessageListener k) (set_message_listeners (message_listeners w ++ [k]) w).
Proof. intros H. unfold window_addEventListener. by rewrite decide_False. Qed.

(** A delay the platform's timers can hold is waited for as it is, and no
    timer is armed for the past. *)
Lemma timer_delay_small delay : (0 ≤ delay < 2 ^ 31)%Z → timer_delay delay = delay.
Proof.
  intros H. unfold timer_delay. rewrite Z.mod_small by lia. lia.
Qed.

Lemma timer_delay_nonneg delay : (0 ≤ timer_delay delay)%Z.
Proof. unfold timer_delay. lia. Qed.

(** The state the executor leaves behind when the signal, if any, has not
    fired. *)
Lemma executor_issue id method params options ms p w :
  p ∉ message_listeners w →
  (∀ s, options ≫= signal = Some s →
        aborted (signal_state s w) = false ∧ p ∉ abort_listeners (signal_state s w)) →
  executor id method params options ms p w
  = {| window := window w; parent := parent w;
       _experimentalRequestId := _experimentalRequestId w;
       now := now w;
       frames := <[p := {| fr_id := id; fr_method := method; fr_timeoutMs := ms;
                           fr_signal := options ≫= signal;
                           timeoutId := if (0 <? ms)%Z then Some (next_timer w) else None |}]>
                   (frames w);
       next_promise := next_promise w;
       message_listeners := message_listeners w ++ [p];
       timers := timers w ++ (if (0 <? ms)%Z
                              then [{| tm_id := next_timer w;
                                       tm_due := (now w + timer_delay ms)%Z;
                                       tm_frame := p |}]
                              else []);
       next_timer := (if (0 <? ms)%Z then S (next_timer w) else next_timer w);
       signals := match options ≫= signal with
                  | Some s => <[s := {| aborted := false;
                                        abort_listeners :=
                                          abort_listeners (signal_state s w) ++ [p] |}]>
                                (signals w)
                  | None => signals w
                  end;
       log := PostMessage (parent w) (envelope id method params) "*"
                :: (if (0 <? ms)%Z then [SetTimeout (next_timer w) p ms] else [])
                ++ AddMessageListener p
                :: match options ≫= signal with
                   | Some s => [AddAbortListener s p]
                   | None => []
                   end
                ++ log w |}.
Proof.
  intros Hfl Hsig. unfold executor.
  destruct (options ≫= signal) as [s|] eqn:Es; cbv zeta.
  - destruct (Hsig s eq_refl) as [Hna Hfa].
    change (signal_state s (set_frames ?x w)) with (signal_state s w). rewrite Hna.
    rewrite signal_addEventListener_fresh by exact Hfa.
    rewrite window_addEventListener_fresh by exact Hfl.
    change (signal_state s (set_frames ?x w)) with (signal_state s w). rewrite Hna.
    destruct (0 <? ms)%Z; cbn; unfold assign_timeoutId, postMessage, emit; cbn;
      by rewrite ?alter_insert_eq, ?app_nil_r.
  - rewrite window_addEventListener_fresh by exact Hfl.
    destruct (0 <? ms)%Z; cbn; unfold assign_timeoutId, postMessage, emit; cbn;
      by rewrite ?alter_insert_eq, ?app_nil_r.
Qed.

(** The state a call leaves behind when it goes through: the page is
    framed and the signal, if any, has not fired. *)
Lemma send_issue method params options w :
  consistent w → parent w ≠ window w →
  (∀ s, options ≫= signal = Some s → aborted (signal_state s w) = false) →
  let p := next_promise w in
  let id := (_experimentalRequestId w + 1)%Z in
  let ms := default DEFAULT_EXPERIMENTAL_REQUEST_TIMEOUT_MS (options ≫= timeoutMs) in
  let sig := options ≫= signal in
  sendExperimentalRequest method params options w
  = (p, {| window := window w; parent := parent w;
           _experimentalRequestId := id;
           now := now w;
           frames := <[p := {| fr_id := id; fr_method := method; fr_timeoutMs := ms;
                               fr_signal := sig;
                               timeoutId := if (0 <? ms)%Z then Some (next_timer w)
                                            else None |}]>
                       (frames w);
           next_promise := S p;
           message_listeners := message_listeners w ++ [p];
           timers := timers w ++ (if (0 <? ms)%Z
                                  then [{| tm_id := next_timer w;
                                       tm_due := (now w + timer_delay ms)%Z;
                                           tm_frame := p |}]
                                  else []);
           next_timer := (if (0 <? ms)%Z then S (next_timer w) else next_timer w);
           signals := match sig with
                      | Some s => <[s := {| aborted := false;
                                            abort_listeners :=
                                              abort_listeners (signal_state s w) ++ [p] |}]>
                                    (signals w)
                      | None => signals w
                      end;
           log := PostMessage (parent w) (envelope id method params) "*"
                    :: (if (0 <? ms)%Z then [SetTimeout (next_timer w) p ms] else [])
                    ++ AddMessageListener p
                    :: match sig with Some s => [AddAbortListener s p] | None => [] end
                    ++ log w |}).
Proof.
  intros Hc Hframed Hsig. cbv zeta.
  unfold sendExperimentalRequest. rewrite decide_False by done.
  unfold new_Promise. f_equal. rewrite executor_issue.
  - done.
  - exact (fresh_listener w Hc).
  - intros s Hs. split; [exact (Hsig s Hs) | exact (fresh_abort_listener s w Hc)].
Qed.

Lemma send_top method params options w :
  parent w = window w →
  sendExperimentalRequest method params options w
  = (next_promise w, reject (next_promise w) not_in_iframe_error
                       (set_next_promise (S (next_promise w)) w)).
Proof. intros H. unfold sendExperimentalRequest. by rewrite decide_True. Qed.

Lemma send_aborted method params options s w :
  parent w ≠ window w → options ≫= signal = Some s → aborted (signal_state s w) = true →
  let p := next_promise w in
  let id := (_experimentalRequestId w + 1)%Z in
  let ms := default DEFAULT_EXPERIMENTAL_REQUEST_TIMEOUT_MS (options ≫= timeoutMs) in
  sendExperimentalRequest method params options w
  = (p, reject p (abort_error method)
          (set_frames (<[p := {| fr_id := id; fr_method := method; fr_timeoutMs := ms;
                                 fr_signal := Some s; timeoutId := None |}]> (frames w))
             (set_requestId id (set_next_promise (S p) w)))).
Proof.
  intros Hframed Hs Hab. unfold sendExperimentalRequest. rewrite decide_False by done.
  unfold new_Promise, executor. rewrite Hs. unfold signal_state in *. cbn. by rewrite Hab.
Qed.

Lemma registered_bound k w :
  consistent w → registered k w → is_Some (frames w !! k) ∧ k < next_promise w.
Proof.
  intros Hc Hk.
  assert (is_Some (frames w !! k)) as [f Hf].
  { destruct Hk as [Hm | [(t & Ht & <-) | (s & sg & Hs & Hk)]].
    - by apply (message_listeners_owned w Hc).
    - destruct (timers_owned w Hc t Ht) as (f & Hf & _). eauto.
    - destruct (abort_listeners_owned w Hc s sg k Hs Hk) as (f & Hf & _). eauto. }
  split; [by eauto|]. by destruct (frames_bound w Hc k f Hf).
Qed.

Lemma counter_nonneg w : consistent w → (0 ≤ _experimentalRequestId w)%Z.
Proof. intros Hc. rewrite (counter_counts w Hc). lia. Qed.

Lemma envelope_id id method params :
  ∃ props, envelope id method params = Obj props ∧ own_property "id" props = Some (Num id).
Proof. unfold envelope. eexists. split; [done|]. by destruct params. Qed.

Lemma send_top_consistent method params options w :
  consistent w → parent w = window w →
  consistent (snd (sendExperimentalRequest method params options w)).
Proof.
  intros Hc Htop. rewrite send_top by done. cbn [snd].
  split; cbn; try apply Hc.
  - intros k f Hf. destruct (frames_bound w Hc k f Hf). split; [lia | done].
  - intros k Hk. destruct (registered_bound k w Hc Hk) as [_ Hlt].
    rewrite decide_False by lia. by apply (settled_unregistered w Hc).
  - intros k. case_decide as Hk.
    + cbn. subst k. rewrite (log_bound w Hc) by lia. cbn. lia.
    + apply (settled_once w Hc).
  - intros k Hk. rewrite decide_False by lia. apply (log_bound w Hc). lia.
Qed.

Lemma send_aborted_consistent method params options s w :
  consistent w → parent w ≠ window w →
  options ≫= signal = Some s → aborted (signal_state s w) = true →
  consistent (snd (sendExperimentalRequest method params options w)).
Proof.
  intros Hc Hframed Hs Hab. rewrite (send_aborted _ _ _ s) by done. cbn [snd].
  pose proof (fresh_promise w Hc) as Hfresh.
  pose proof (counter_nonneg w Hc) as Hnn.
  assert (∀ k f, frames w !! k = Some f → k ≠ next_promise w) as Hold.
  { intros k f Hf ->. congruence. }
  split; cbn.
  - rewrite map_size_insert_None by done. rewrite (counter_counts w Hc). lia.
  - intros k f. rewrite lookup_insert. case_decide as Hk.
    + intros [= <-]. subst k. cbn. lia.
    + intros Hf. destruct (frames_bound w Hc k f Hf). lia.
  - intros k k' f f'. rewrite !lookup_insert.
    repeat case_decide; subst; try done.
    + intros [= <-] Hf'. cbn. destruct (frames_bound w Hc _ _ Hf'). lia.
    + intros Hf [= <-]. cbn. destruct (frames_bound w Hc _ _ Hf). lia.
    + apply (ids_distinct w Hc).
  - intros k f t. rewrite lookup_insert. case_decide as Hk.
    + by intros [= <-].
    + apply (timeoutId_bound w Hc).
  - intros k k' f f' t. rewrite !lookup_insert.
    repeat case_decide; subst; try done.
    + by intros [= <-].
    + by intros _ [= <-].
    + apply (timeoutId_distinct w Hc).
  - intros t Ht. destruct (timers_owned w Hc t Ht) as (f & Hf & Hid).
    exists f. by rewrite lookup_insert_ne by (symmetry; eauto).
  - apply Hc.
  - intros s' sg k Hs' Hk.
    destruct (abort_listeners_owned w Hc s' sg k Hs' Hk) as (f & Hf & Hfs).
    exists f. by rewrite lookup_insert_ne by (symmetry; eauto).
  - intros k Hk. destruct (message_listeners_owned w Hc k Hk) as [f Hf].
    exists f. by rewrite lookup_insert_ne by (symmetry; eauto).
  - intros target message origin Hin.
    destruct (posted_bound w Hc _ _ _ Hin) as (props & id & ? & ? & ?).
    exists props, id. split; [done|]. split; [done|lia].
  - intros k Hk. destruct (registered_bound k w Hc Hk) as [_ Hlt].
    rewrite decide_False by lia. by apply (settled_unregistered w Hc).
  - intros k. case_decide as Hk.
    + cbn. subst k. rewrite (log_bound w Hc) by lia. cbn. lia.
    + apply (settled_once w Hc).
  - intros k Hk. rewrite decide_False by lia. apply (log_bound w Hc). lia.
Qed.

Lemma send_issue_consistent method params options w :
  consistent w → parent w ≠ window w →
  (∀ s, options ≫= signal = Some s → aborted (signal_state s w) = false) →
  consistent (snd (sendExperimentalRequest method params options w)).
Proof.
  intros Hc Hframed Hsig. rewrite send_issue by done. cbn [snd].
  pose proof (fresh_promise w Hc) as Hfresh.
  pose proof (counter_nonneg w Hc) as Hnn.
  set (ms := default DEFAULT_EXPERIMENTAL_REQUEST_TIMEOUT_MS (options ≫= timeoutMs)).
  assert (∀ k f, frames w !! k = Some f → k ≠ next_promise w) as Hold.
  { intros k f Hf ->. congruence. }
  assert (∀ t, t ∈ timers w → tm_id t < next_timer w ∧ tm_frame t ≠ next_promise w) as Htm.
  { intros t Ht. destruct (timers_owned w Hc t Ht) as (f & Hf & Hid).
    split; [by apply (timeoutId_bound w Hc (tm_frame t) f) | by eauto]. }
  assert (∀ k l, settlements k
            (PostMessage (parent w)
               (envelope (_experimentalRequestId w + 1) method params) "*"
             :: (if (0 <? ms)%Z then [SetTimeout (next_timer w) (next_promise w) ms] else [])
             ++ AddMessageListener (next_promise w)
             :: match options ≫= signal with
                | Some s => [AddAbortListener s (next_promise w)]
                | None => []
                end ++ l) = settlements k l) as Hlog.
  { intros k l. by destruct (0 <? ms)%Z, (options ≫= signal). }
  split; cbn [window parent _experimentalRequestId now frames next_promise
              message_listeners timers next_timer signals log].
  - rewrite map_size_insert_None by done. rewrite (counter_counts w Hc). lia.
  - intros k f. rewrite lookup_insert. case_decide as Hk.
    + intros [= <-]. subst k. cbn. lia.
    + intros Hf. destruct (frames_bound w Hc k f Hf). lia.
  - intros k k' f f'. rewrite !lookup_insert.
    repeat case_decide; subst; try done.
    + intros [= <-] Hf'. cbn. destruct (frames_bound w Hc _ _ Hf'). lia.
    + intros Hf [= <-]. cbn. destruct (frames_bound w Hc _ _ Hf). lia.
    + apply (ids_distinct w Hc).
  - intros k f t. rewrite lookup_insert. case_decide as Hk.
    + intros [= <-]. cbn. destruct (0 <? ms)%Z; [|done]. intros [= <-]. lia.
    + intros Hf Ht. pose proof (timeoutId_bound w Hc k f t Hf Ht).
      destruct (0 <? ms)%Z; lia.
  - intros k k' f f' t. rewrite !lookup_insert.
    repeat case_decide; subst; try done.
    + intros [= <-] Hf'. cbn. destruct (0 <? ms)%Z; [|done]. intros [= <-] Ht.
      pose proof (timeoutId_bound w Hc _ _ _ Hf' Ht). lia.
    + intros Hf [= <-] Ht. cbn. destruct (0 <? ms)%Z; [|done]. intros [= <-].
      pose proof (timeoutId_bound w Hc _ _ _ Hf Ht). lia.
    + apply (timeoutId_distinct w Hc).
  - intros t Ht. apply elem_of_app in Ht as [Ht|Ht].
    + destruct (timers_owned w Hc t Ht) as (f & Hf & Hid).
      exists f. by rewrite lookup_insert_ne by (symmetry; eauto).
    + destruct (0 <? ms)%Z; [|by apply elem_of_nil in Ht].
      apply list_elem_of_singleton in Ht as ->. cbn. rewrite lookup_insert_eq. eauto.
  - intros t t' Ht Ht'. apply elem_of_app in Ht as [Ht|Ht]; apply elem_of_app in Ht' as [Ht'|Ht'].
    + by apply (timers_distinct w Hc).
    + destruct (0 <? ms)%Z; [|by apply elem_of_nil in Ht'].
      apply list_elem_of_singleton in Ht' as ->. cbn. destruct (Htm t Ht). lia.
    + destruct (0 <? ms)%Z; [|by apply elem_of_nil in Ht].
      apply list_elem_of_singleton in Ht as ->. cbn. destruct (Htm t' Ht'). lia.
    + destruct (0 <? ms)%Z; [|by apply elem_of_nil in Ht].
      apply list_elem_of_singleton in Ht as ->. by apply list_elem_of_singleton in Ht' as ->.
  - intros s' sg' k Hs' Hk.
    assert ((∃ sg, signals w !! s' = Some sg ∧ k ∈ abort_listeners sg)
            ∨ (k = next_promise w ∧ options ≫= signal = Some s')) as [(sg & Hsg & Hin)|[-> Hs]].
    { destruct (options ≫= signal) as [s|]; [|by eauto].
      rewrite lookup_insert in Hs'. case_decide as Hss; [|by eauto].
      subst s'. injection Hs' as <-. cbn in Hk. apply elem_of_app in Hk as [Hk|Hk].
      - left. destruct (signal_state_elem _ _ _ Hk) as (sg & ? & ? & _). eauto.
      - right. by apply list_elem_of_singleton in Hk as ->. }
    + destruct (abort_listeners_owned w Hc s' sg k Hsg Hin) as (f & Hf & Hfs).
      exists f. by rewrite lookup_insert_ne by (symmetry; eauto).
    + rewrite lookup_insert_eq. eauto.
  - intros k Hk. apply elem_of_app in Hk as [Hk|Hk].
    + destruct (message_listeners_owned w Hc k Hk) as [f Hf].
      exists f. by rewrite lookup_insert_ne by (symmetry; eauto).
    + apply list_elem_of_singleton in Hk as ->. rewrite lookup_insert_eq. eauto.
  - intros target message origin Hin.
    assert ((target, message, origin)
            = (parent w, envelope (_experimentalRequestId w + 1) method params, "*")
            ∨ (target, message, origin) ∈ posted (log w)) as [[= -> -> ->]|Hold'].
    { destruct (0 <? ms)%Z, (options ≫= signal); cbn in Hin;
        apply elem_of_cons in Hin as [?|?]; eauto. }
    + destruct (envelope_id (_experimentalRequestId w + 1) method params) as (props & E & Hid).
      exists props, (_experimentalRequestId w + 1)%Z. split; [done|]. split; [done|lia].
    + destruct (posted_bound w Hc _ _ _ Hold') as (props & id & ? & ? & ?).
      exists props, id. split; [done|]. split; [done|lia].
  - intros k Hk. rewrite Hlog.
    destruct (decide (k = next_promise w)) as [->|Hne]; [by apply (log_bound w Hc)|].
    apply (settled_unregistered w Hc).
    destruct Hk as [Hm | [(t & Ht & Hkt) | (s' & sg' & Hs' & Hk)]].
    + left. cbn in Hm. apply elem_of_app in Hm as [Hm|Hm]; [done|].
      by apply list_elem_of_singleton in Hm.
    + right; left. cbn in Ht. apply elem_of_app in Ht as [Ht|Ht]; [by eauto|].
      destruct (0 <? ms)%Z; [|by apply elem_of_nil in Ht].
      apply list_elem_of_singleton in Ht as ->. cbn in Hkt. congruence.
    + right; right. cbn in Hs'. destruct (options ≫= signal) as [s|]; [|by eauto].
      rewrite lookup_insert in Hs'. case_decide as Hss; [|by eauto].
      subst s'. injection Hs' as <-. cbn in Hk. apply elem_of_app in Hk as [Hk|Hk].
      * destruct (signal_state_elem _ _ _ Hk) as (sg & ? & ? & _). eauto.
      * by apply list_elem_of_singleton in Hk.
  - intros k. rewrite Hlog. apply (settled_once w Hc).
  - intros k Hk. rewrite Hlog. apply (log_bound w Hc). lia.
Qed.

Lemma send_consistent method params options w :
  consistent w → consistent (snd (sendExperimentalRequest method params options w)).
Proof.
  intros Hc. destruct (decide (parent w = window w)) as [Htop|Hframed].
  - by apply send_top_consistent.
  - destruct (options ≫= signal) as [s|] eqn:Hs.
    + destruct (aborted (signal_state s w)) eqn:Hab.
      * by apply (send_aborted_consistent _ _ _ s).
      * apply send_issue_consistent; [done..|]. intros s' Hs'. congruence.
    + apply send_issue_consistent; [done..|]. intros s' Hs'. congruence.
Qed.

Lemma send_cases method params options w :
  consistent w →
  (parent w = window w
   ∧ snd (sendExperimentalRequest method params options w)
     = reject (next_promise w) not_in_iframe_error (set_next_promise (S (next_promise w)) w))
  ∨ (∃ s, parent w ≠ window w ∧ options ≫= signal = Some s
          ∧ aborted (signal_state s w) = true)
  ∨ (parent w ≠ window w
     ∧ ∀ s, options ≫= signal = Some s → aborted (signal_state s w) = false).
Proof.
  intros Hc. destruct (decide (parent w = window w)) as [Htop|Hframed].
  - left. by rewrite send_top.
  - right. destruct (options ≫= signal) as [s|] eqn:Hs.
    + destruct (aborted (signal_state s w)) eqn:Hab.
      * left. by exists s.
      * right. split; [done|]. intros s' Hs'. congruence.
    + right. split; [done|]. intros s' Hs'. congruence.
Qed.

Lemma send_evolves method params options w :
  consistent w → evolves w (snd (sendExperimentalRequest method params options w)).
Proof.
  intros Hc. pose proof (fresh_promise w Hc) as Hfresh.
  assert (∀ k f, frames w !! k = Some f → k ≠ next_promise w) as Hold.
  { intros k f Hf ->. congruence. }
  destruct (send_cases method params options w Hc)
    as [[Htop ->] | [(s & Hframed & Hs & Hab) | [Hframed Hsig]]].
  - split; cbn; try done. intros j. case_decide; [|by exists []].
    by exists [Rejected not_in_iframe_error].
  - rewrite (send_aborted _ _ _ s) by done. split; cbn; try done.
    + intros k f Hf. by rewrite lookup_insert_ne by (symmetry; eauto).
    + intros j. case_decide; [|by exists []]. by exists [Rejected (abort_error method)].
  - rewrite send_issue by done. split; cbn; try done.
    + intros k f Hf. by rewrite lookup_insert_ne by (symmetry; eauto).
    + intros j. exists [].
      by destruct (0 <? _)%Z, (options ≫= signal).
Qed.

Lemma send_uncaught method params options w :
  consistent w →
  uncaught (log (snd (sendExperimentalRequest method params options w))) = uncaught (log w).
Proof.
  intros Hc. destruct (send_cases method params options w Hc)
    as [[Htop ->] | [(s & Hframed & Hs & Hab) | [Hframed Hsig]]].
  - done.
  - by rewrite (send_aborted _ _ _ s).
  - rewrite send_issue by done. cbn. by destruct (0 <? _)%Z, (options ≫= signal).
Qed.

Lemma send_now method params options w :
  consistent w → now (snd (sendExperimentalRequest method params options w)) = now w.
Proof.
  intros Hc. destruct (send_cases method params options w Hc)
    as [[Htop ->] | [(s & Hframed & Hs & Hab) | [Hframed Hsig]]].
  - done.
  - by rewrite (send_aborted _ _ _ s).
  - by rewrite send_issue.
Qed.

(** A call does not disturb the frames in flight. *)
Lemma send_keeps_live method params options j fj due w :
  consistent w → live j fj due w →
  live j fj due (snd (sendExperimentalRequest method params options w)).
Proof.
  intros Hc Hl. pose proof (fresh_promise w Hc) as Hfresh.
  pose proof Hl as [Hf Hm Ht Hnt Hsg].
  assert (j ≠ next_promise w) as Hne by (intros ->; congruence).
  destruct (send_cases method params options w Hc)
    as [[Htop ->] | [(s & Hframed & Hs & Hab) | [Hframed Hsig]]].
  - by split.
  - rewrite (send_aborted _ _ _ s) by done. split; cbn; try done.
    by rewrite lookup_insert_ne.
  - rewrite send_issue by done. split; cbn.
    + by rewrite lookup_insert_ne.
    + apply elem_of_app. by left.
    + intros Hpos. destruct (Ht Hpos) as (t & ? & ?). exists t. split; [done|].
      apply elem_of_app. by left.
    + done.
    + intros s Hs. destruct (Hsg s Hs) as (sg & Hsig' & Hab & Hin).
      destruct (options ≫= signal) as [s'|]; [|by eauto].
      rewrite lookup_insert. case_decide as Hss; [|by eauto].
      subst s'. eexists. split; [done|]. cbn. split; [done|].
      apply elem_of_app. left. unfold signal_state. by rewrite Hsig'.
Qed.

(** A call that goes through is in flight when it returns. *)
Lemma send_live method params options w :
  consistent w → parent w ≠ window w →
  (∀ s, options ≫= signal = Some s → aborted (signal_state s w) = false) →
  let ms := default DEFAULT_EXPERIMENTAL_REQUEST_TIMEOUT_MS (options ≫= timeoutMs) in
  ∃ f, fr_id f = (_experimentalRequestId w + 1)%Z ∧ fr_method f = method
       ∧ fr_timeoutMs f = ms ∧ fr_signal f = options ≫= signal
       ∧ live (next_promise w) f (now w + timer_delay ms)
           (snd (sendExperimentalRequest method params options w)).
Proof.
  intros Hc Hframed Hsig ms. rewrite send_issue by done. fold ms.
  exists {| fr_id := _experimentalRequestId w + 1; fr_method := method; fr_timeoutMs := ms;
            fr_signal := options ≫= signal;
            timeoutId := if (0 <? ms)%Z then Some (next_timer w) else None |}.
  split_and!; [done..|]. split; cbn.
  - by rewrite lookup_insert_eq.
  - apply elem_of_app. right. by left.
  - intros Hpos. apply Z.ltb_lt in Hpos. rewrite Hpos. eexists. split; [done|].
    apply elem_of_app. right. by left.
  - intros Hnpos. apply Z.ltb_ge in Hnpos. by rewrite Hnpos.
  - intros s Hs. rewrite Hs. eexists. rewrite lookup_insert_eq. split; [done|].
    cbn. split; [done|]. apply elem_of_app. right. by left.
Qed.

(** ** Sessions *)

Lemma initial_consistent self par : consistent (initial self par).
Proof.
  split; cbn; try done.
  - intros t Ht. by apply elem_of_nil in Ht.
  - intros t t' Ht. by apply elem_of_nil in Ht.
  - intros k Hk. by apply elem_of_nil in Hk.
  - intros ??? H. by apply elem_of_nil in H.
  - lia.
Qed.

Lemma advance_consistent d w : consistent w → consistent (advance d w).
Proof. apply run_timers_consistent. Qed.

Lemma step_consistent e w : consistent w → consistent (step e w).
Proof.
  intros Hc. destruct e; cbn.
  - by apply send_consistent.
  - by apply dispatch_fold_consistent.
  - by apply advance_consistent.
  - by apply signal_abort_consistent.
Qed.

Lemma step_evolves e w : consistent w → evolves w (step e w).
Proof.
  intros Hc. destruct e; cbn.
  - by apply send_evolves.
  - apply dispatch_fold_evolves.
  - by apply run_timers_evolves.
  - apply signal_abort_evolves.
Qed.

Lemma run_consistent es w : consistent w → consistent (run es w).
Proof.
  revert w. induction es as [|e es IH]; intros w Hc; [done|].
  cbn. apply IH. by apply step_consistent.
Qed.

Lemma run_evolves es w : consistent w → evolves w (run es w).
Proof.
  revert w. induction es as [|e es IH]; intros w Hc; [apply evolves_refl|].
  cbn. eapply evolves_trans; [by apply step_evolves|].
  apply IH. by apply step_consistent.
Qed.

Lemma session_consistent self par es : consistent (run es (initial self par)).
Proof. apply run_consistent, initial_consistent. Qed.

Lemma run_app es1 es2 w : run (es1 ++ es2) w = run es2 (run es1 w).
Proof. unfold run. apply fold_left_app. Qed.

Lemma session_windows self par es :
  window (run es (initial self par)) = self ∧ parent (run es (initial self par)) = par.
Proof.
  pose proof (run_evolves es _ (initial_consistent self par)) as He.
  split; [by rewrite (same_window _ _ He) | by rewrite (same_parent _ _ He)].
Qed.

(** ** Frames in flight through quiet events *)

Lemma dispatch_fold_keeps_live event l j fj due w :
  consistent w → live j fj due w → ¬ answers (parent w) (fr_id fj) event →
  live j fj due (fold_left (deliver event) l w).
Proof.
  revert w. induction l as [|k l IH]; intros w Hc Hl Hq; [done|].
  cbn. apply IH.
  - by apply deliver_consistent.
  - destruct (deliver_cases event w k) as [-> | (f & o & Hf & _ & Ha & ->)]; [done|].
    apply fire_keeps_live; [done..|]. intros ->.
    rewrite (live_frame _ _ _ _ Hl) in Hf. injection Hf as <-. by destruct Hq.
  - by rewrite (same_parent _ _ (deliver_evolves event w k)).
Qed.

Lemma fire_now k o w : now (settle k o (cleanup k w)) = now w.
Proof.
  destruct (settle_fixed k o (cleanup k w)) as (_ & _ & _ & -> & _).
  by destruct (cleanup_fixed k w) as (_ & _ & _ & -> & _).
Qed.

Lemma dispatch_now event l w : now (fold_left (deliver event) l w) = now w.
Proof.
  revert w. induction l as [|k l IH]; intros w; [done|].
  cbn. rewrite IH.
  destruct (deliver_cases event w k) as [-> | (f & o & _ & _ & _ & ->)]; [done|].
  apply fire_now.
Qed.

Lemma abort_fold_now s l w : now (fold_left (notify_abort s) l w) = now w.
Proof.
  revert w. induction l as [|k l IH]; intros w; [done|].
  cbn. rewrite IH.
  destruct (notify_abort_cases s w k) as [-> | (f & _ & _ & ->)]; [done|].
  apply fire_now.
Qed.

Lemma abort_now s w : now (signal_abort s w) = now w.
Proof.
  unfold signal_abort. destruct (aborted (signal_state s w)); [done|].
  by rewrite abort_fold_now.
Qed.

(** The time an event lets pass. *)
Lemma step_now e w :
  consistent w → now (step e w) = (now w + elapsed [e])%Z.
Proof.
  intros Hc. destruct e; cbn.
  - rewrite send_now by done. lia.
  - unfold dispatch_message. rewrite dispatch_now. lia.
  - unfold advance. rewrite run_timers_now by done. lia.
  - rewrite abort_now. lia.
Qed.

Lemma elapsed_nonneg es : (0 ≤ elapsed es)%Z.
Proof. induction es as [|[] es IH]; cbn; lia. Qed.

Lemma elapsed_app es1 es2 : elapsed (es1 ++ es2) = (elapsed es1 + elapsed es2)%Z.
Proof. induction es1 as [|[] es1 IH]; cbn; lia. Qed.

Lemma run_now es w : consistent w → now (run es w) = (now w + elapsed es)%Z.
Proof.
  revert w. induction es as [|e es IH]; intros w Hc; [cbn; lia|].
  change (run (e :: es) w) with (run es (step e w)).
  rewrite IH by (by apply step_consistent). rewrite step_now by done.
  change (e :: es) with ([e] ++ es). rewrite (elapsed_app [e] es). lia.
Qed.

Lemma step_keeps_live e j fj due w :
  consistent w → live j fj due w →
  quiet (parent w) (fr_id fj) (fr_signal fj) e →
  ((0 < fr_timeoutMs fj)%Z → (now w + elapsed [e] < due)%Z) →
  live j fj due (step e w).
Proof.
  intros Hc Hl Hq Hdue. destruct e; cbn in *.
  - by apply send_keeps_live.
  - by apply dispatch_fold_keeps_live.
  - apply run_timers_keeps_live; [done..|]. intros Hpos. specialize (Hdue Hpos). lia.
  - by apply signal_abort_keeps_live.
Qed.

(** Through events that neither answer it, nor fire its signal, nor let
    its timeout pass, a frame stays in flight. *)
Lemma run_keeps_live es j fj due w :
  consistent w → live j fj due w →
  Forall (quiet (parent w) (fr_id fj) (fr_signal fj)) es →
  ((0 < fr_timeoutMs fj)%Z → (now w + elapsed es < due)%Z) →
  live j fj due (run es w).
Proof.
  revert w. induction es as [|e es IH]; intros w Hc Hl Hq Hdue; [done|].
  change (run (e :: es) w) with (run es (step e w)).
  apply Forall_cons in Hq as [Hqe Hq].
  change (e :: es) with ([e] ++ es) in Hdue. rewrite (elapsed_app [e] es) in Hdue.
  pose proof (elapsed_nonneg es). pose proof (elapsed_nonneg [e]).
  apply IH.
  - by apply step_consistent.
  - apply step_keeps_live; [done..|]. intros Hpos. specialize (Hdue Hpos). lia.
  - by rewrite (same_parent _ _ (step_evolves e w Hc)).
  - intros Hpos. specialize (Hdue Hpos). rewrite step_now by done. lia.
Qed.

(** A frame in flight is pending. *)
Lemma live_pending j fj due w :
  consistent w → live j fj due w → promise_state j w = Pending.
Proof.
  intros Hc Hl. unfold promise_state.
  rewrite (settled_unregistered w Hc j); [done|]. left. apply (live_listener _ _ _ _ Hl).
Qed.

Lemma settled_state j o w : settlements j (log w) = [o] → promise_state j w = o.
Proof. intros H. unfold promise_state. by rewrite H. Qed.

(** No event makes a listener throw. *)
Lemma step_uncaught e w : consistent w → uncaught (log (step e w)) = uncaught (log w).
Proof.
  intros Hc. destruct e; cbn.
  - by apply send_uncaught.
  - apply dispatch_fold_uncaught.
  - by apply run_timers_uncaught.
  - apply signal_abort_uncaught.
Qed.

Lemma session_uncaught self par es : uncaught (log (run es (initial self par))) = [].
Proof.
  assert (∀ w, consistent w → uncaught (log (run es w)) = uncaught (log w)) as H.
  { induction es as [|e es IH]; intros w Hc; [done|].
    change (run (e :: es) w) with (run es (step e w)).
    rewrite IH by (by apply step_consistent). by apply step_uncaught. }
  by rewrite H by apply initial_consistent.
Qed.

(** ** Stale responses *)

(** A response for a request that is already settled leaves the page exactly
    as it is. *)
Lemma stale_response_ignored k f event w :
  consistent w → frames w !! k = Some f → settlements k (log w) ≠ [] →
  get_optional (data event) "id" = Num (fr_id f) →
  step (Message event) w = w.
Proof.
  intros Hc Hf Hk Hid. cbn. unfold dispatch_message.
  apply dispatch_fold_ignored. intros k' f' Hk' Hf' (_ & _ & Hid').
  assert (k' = k) as -> by (apply (ids_distinct w Hc k' k f' f); congruence).
  apply Hk. apply (settled_unregistered w Hc). by left.
Qed.

Lemma stale_response_later k f o event es w :
  consistent w → frames w !! k = Some f → settlements k (log w) = [o] →
  get_optional (data event) "id" = Num (fr_id f) →
  step (Message event) (run es w) = run es w
  ∧ promise_state k (run es w) = o.
Proof.
  intros Hc Hf Hk Hid.
  pose proof (run_consistent es w Hc) as Hc'.
  pose proof (run_evolves es w Hc) as He.
  pose proof (settled_stays w (run es w) k o He Hc' Hk) as Hk'.
  split.
  - apply (stale_response_ignored k f); [done | by apply (frames_kept _ _ He) | | done].
    by rewrite Hk'.
  - by apply settled_state.
Qed.

(** * The properties of the specification *)

(** C1.  In every session, and for every promise [k] returned by
    [sendExperimentalRequest]: [resolve]/[reject] of [k] are called at most
    once altogether (never both, never twice); once [k] is settled, its
    message listener is off the window, it has no timer in the timer table
    and no abort listener on any signal; and from then on no event
    whatsoever - a clock advance firing timers, a message - settles it
    again, a response carrying its id leaving the whole page untouched. *)
Theorem settles_at_most_once (self par : nat) (es : list Event) (k : nat) :
  let w := run es (initial self par) in
  length (settlements k (log w)) ≤ 1
  ∧ (settlements k (log w) ≠ [] →
     (k ∉ message_listeners w)
     ∧ (∀ t, t ∈ timers w → tm_frame t ≠ k)
     ∧ (∀ s sg, signals w !! s = Some sg → k ∉ abort_listeners sg)
     ∧ (∀ e, settlements k (log (step e w)) = settlements k (log w)
             ∧ promise_state k (step e w) = promise_state k w)
     ∧ (∀ f event, frames w !! k = Some f →
                   get_optional (data event) "id" = Num (fr_id f) →
                   step (Message event) w = w)).
Proof.
  intros w. pose proof (session_consistent self par es) as Hc. fold w in Hc.
  split; [apply (settled_once w Hc)|]. intros Hk.
  assert (¬ registered k w) as Hnr.
  { intros Hr. by apply Hk, (settled_unregistered w Hc). }
  split_and!.
  - intros Hm. apply Hnr. by left.
  - intros t Ht Htk. apply Hnr. right; left. eauto.
  - intros s sg Hs Hin. apply Hnr. right; right. eauto.
  - intros e.
    assert (settlements k (log (step e w)) = settlements k (log w)) as E.
    { apply settled_stays_nonempty; [by apply step_evolves | by apply step_consistent | done]. }
    split; [done|]. unfold promise_state. by rewrite E.
  - intros f event Hf Hid. by apply (stale_response_ignored k f).
Qed.

(** C2.  The message listener never throws, whatever the message and the
    state of the page, and in no session does an exception escape a listener.  A message event settles promise [k]
    only if its source is the parent window, [k] has its listener on the
    window, and the id of the message is the id of request [k].  A message
    from any other source, or one whose id is the id of no request with a
    listener on the window, leaves the page exactly as it was: nothing is
    settled and nothing is thrown. *)
Theorem only_parent_answers_settle (self par : nat) (es : list Event)
    (event : MessageEvent) :
  let w := run es (initial self par) in
  let w' := step (Message event) w in
  (∀ k w0, ∃ w1, handler k event w0 = Returned w1)
  ∧ uncaught (log w') = []
  ∧ (∀ k, settlements k (log w') ≠ settlements k (log w) →
          source event = Some par
          ∧ k ∈ message_listeners w
          ∧ ∃ f, frames w !! k = Some f
                 ∧ get_optional (data event) "id" = Num (fr_id f))
  ∧ (source event ≠ Some par → w' = w)
  ∧ ((∀ k f, k ∈ message_listeners w → frames w !! k = Some f →
             get_optional (data event) "id" ≠ Num (fr_id f)) →
     w' = w).
Proof.
  intros w w'.
  destruct (session_windows self par es) as [_ Hp]. fold w in Hp.
  subst w'. cbn. unfold dispatch_message. split_and!.
  - intros k w0. apply handler_returns.
  - rewrite dispatch_fold_uncaught. apply session_uncaught.
  - intros k Hk.
    destruct (dispatch_fold_only _ _ _ _ Hk) as (Hin & f & Hf & Hsrc & _ & Hid).
    rewrite Hp in Hsrc. eauto.
  - intros Hsrc. apply dispatch_fold_ignored. intros k f _ _ (Hsrc' & _). congruence.
  - intros Hno. apply dispatch_fold_ignored. intros k f Hk Hf (_ & _ & Hid).
    by apply (Hno k f).
Qed.

(** The setting of the properties about one call: a call made in a framed
    page whose signal, if any, has not fired. *)
Lemma issued_call self par es0 method params options :
  par ≠ self →
  let w0 := run es0 (initial self par) in
  (∀ s, options ≫= signal = Some s → aborted (signal_state s w0) = false) →
  let T := default DEFAULT_EXPERIMENTAL_REQUEST_TIMEOUT_MS (options ≫= timeoutMs) in
  let p := fst (sendExperimentalRequest method params options w0) in
  let w1 := snd (sendExperimentalRequest method params options w0) in
  consistent w1 ∧ parent w1 = par ∧ now w1 = now w0
  ∧ ∃ f, fr_id f = (_experimentalRequestId w0 + 1)%Z ∧ fr_method f = method
         ∧ fr_timeoutMs f = T ∧ fr_signal f = options ≫= signal
         ∧ live p f (now w0 + timer_delay T) w1.
Proof.
  intros Hframed w0 Hsig T p w1.
  pose proof (session_consistent self par es0) as Hc. fold w0 in Hc.
  destruct (session_windows self par es0) as [Hw Hp]. fold w0 in Hw, Hp.
  assert (parent w0 ≠ window w0) as Hframed' by congruence.
  split_and!.
  - by apply send_consistent.
  - subst w1. by rewrite (same_parent _ _ (send_evolves method params options w0 Hc)).
  - by apply send_now.
  - destruct (send_live method params options w0 Hc Hframed' Hsig)
      as (f & ? & ? & ? & ? & Hl).
    exists f. split_and!; try done.
    subst p. by rewrite send_issue.
Qed.

(** C3, amended.  A call made in a framed page, with a signal (if any)
    that has not fired, and with effective timeout [T] - [options.timeoutMs],
    or 30000 when it is omitted: through any events that neither answer the
    request nor fire its signal, if [0 < T] and [T] is a delay the
    platform's timers can hold, [T < 2^31], the promise is pending as long
    as less than [T] has elapsed and is rejected, with the error naming the
    method and [T], by the clock advance that reaches [T]; if [T] is [0] (or
    negative) it stays pending however much time elapses. *)
Theorem timeout_boundary (self par : nat) (es0 : list Event)
    (method : string) (params : Value) (options : option Options) (es : list Event) :
  let w0 := run es0 (initial self par) in
  let id := (_experimentalRequestId w0 + 1)%Z in
  let T := default DEFAULT_EXPERIMENTAL_REQUEST_TIMEOUT_MS (options ≫= timeoutMs) in
  let p := fst (sendExperimentalRequest method params options w0) in
  let w1 := snd (sendExperimentalRequest method params options w0) in
  par ≠ self →
  (∀ s, options ≫= signal = Some s → aborted (signal_state s w0) = false) →
  Forall (quiet par id (options ≫= signal)) es →
  (options ≫= timeoutMs = None → T = 30000%Z)
  ∧ ((0 < T)%Z → (T < 2 ^ 31)%Z → (elapsed es < T)%Z →
     promise_state p (run es w1) = Pending
     ∧ ∀ d, (T ≤ elapsed es + d)%Z →
            promise_state p (run (es ++ [Advance d]) w1)
            = Rejected (timeout_error method T))
  ∧ ((T ≤ 0)%Z → promise_state p (run es w1) = Pending).
Proof.
  intros w0 id T p w1 Hframed Hsig Hq.
  destruct (issued_call self par es0 method params options Hframed Hsig)
    as (Hc1 & Hp1 & Hn1 & f & Hid & Hm & HT & Hs & Hl).
  fold w0 T p w1 in Hc1, Hp1, Hn1, Hid, Hl, HT.
  assert (Forall (quiet (parent w1) (fr_id f) (fr_signal f)) es) as Hq'.
  { by rewrite Hp1, Hid, Hs. }
  split_and!.
  - intros E. subst T. by rewrite E.
  - intros Hpos Hbound Hel.
    rewrite timer_delay_small in Hl by lia.
    assert (live p f (now w0 + T) (run es w1)) as Hl'.
    { apply run_keeps_live; [done..|]. intros _. lia. }
    pose proof (run_consistent es w1 Hc1) as Hc2.
    split; [by apply (live_pending p f (now w0 + T)%Z)|].
    intros d Hd. rewrite run_app. cbn. apply settled_state.
    rewrite <- Hm, <- HT. unfold advance.
    apply (run_timers_fires _ _ p f (now w0 + T)%Z); [done | done | lia | | done].
    rewrite run_now by done. lia.
  - intros Hnpos. apply (live_pending p f (now w0 + timer_delay T)%Z).
    + by apply run_consistent.
    + apply run_keeps_live; [done..|]. intros ?. lia.
Qed.

(** C3 as stated fails for a timeout the platform's timers cannot hold: a
    call with [timeoutMs] [2147483648] is rejected with the timeout error as
    soon as the clock moves, here after one millisecond, long before
    [2147483648] have elapsed. *)
Lemma large_timeout_fires_at_once :
  let T := 2147483648%Z in
  let options := Some {| signal := None; timeoutMs := Some T |} in
  let w0 := initial 0 1 in
  let p := fst (sendExperimentalRequest "x/slow" Undefined options w0) in
  let w1 := snd (sendExperimentalRequest "x/slow" Undefined options w0) in
  (0 < T)%Z
  ∧ (elapsed [Advance 1] < T)%Z
  ∧ promise_state p w1 = Pending
  ∧ promise_state p (run [Advance 1] w1) = Rejected (timeout_error "x/slow" T)
  ∧ promise_state p (run [Advance 1] w1) ≠ Pending.
Proof. vm_compute. split_and!; done. Qed.

(** C5.  When the parent's message carrying [jsonrpc: '2.0'] and the id of
    a request whose listener is on the window arrives, and the [error]
    field of the message, when it is present, holds an error object, the
    promise of that request is settled, once, according to the payload:
    rejected with the value of the [error] field when the field is present,
    and otherwise resolved with the value of the [result] field. *)
Theorem response_settles (self par : nat) (es0 : list Event)
    (k : nat) (f : Frame) (event : MessageEvent) :
  let w := run es0 (initial self par) in
  let w' := step (Message event) w in
  frames w !! k = Some f → k ∈ message_listeners w →
  answers par (fr_id f) event →
  (∀ fields error, data event = Obj fields → own_property "error" fields = Some error →
                   ∃ props, error = Obj props) →
  ∃ fields,
    data event = Obj fields
    ∧ (∀ error, own_property "error" fields = Some error →
                settlements k (log w') = [Rejected error]
                ∧ promise_state k w' = Rejected error)
    ∧ (own_property "error" fields = None →
       settlements k (log w') = [Fulfilled (default Undefined (own_property "result" fields))]
       ∧ promise_state k w' = Fulfilled (default Undefined (own_property "result" fields))).
Proof.
  intros w w' Hf Hk Ha Hobj.
  pose proof (session_consistent self par es0) as Hc. fold w in Hc.
  destruct (session_windows self par es0) as [_ Hp]. fold w in Hp.
  rewrite <- Hp in Ha.
  destruct (dispatch_answer event w k f Hc Hf Hk Ha) as (error & result & He & Hr & E).
  assert (settlements k (log w')
          = [if truthy error then Rejected error else Fulfilled result]) as Hs.
  { subst w'. cbn. rewrite E, settle_settlements, cleanup_settlements, decide_True by done.
    rewrite (settled_unregistered w Hc k) by (by left). by destruct (truthy error). }
  destruct Ha as (_ & Hj & _).
  destruct (data event) as [| | | | |fields|m] eqn:Ed; try done.
  exists fields. split; [done|]. cbn in He, Hr. injection He as <-. injection Hr as <-.
  split.
  - intros error Herr. destruct (Hobj fields error eq_refl Herr) as [props ->].
    rewrite Herr in Hs. cbn in Hs. split; [done | by apply settled_state].
  - intros Hnone. rewrite Hnone in Hs. cbn in Hs. split; [done | by apply settled_state].
Qed.

(** Outside such messages the listener goes by the truthiness of
    [data.error]: an answer whose [error] field is present but holds [null]
    resolves the promise with [data.result].  Here the first request of a
    page, id 1, is answered by the parent with
    [{ jsonrpc: '2.0', id: 1, error: null, result: 7 }]. *)
Lemma null_error_field_resolves :
  let w0 := initial 0 1 in
  let p := fst (sendExperimentalRequest "x/test" Undefined None w0) in
  let w1 := snd (sendExperimentalRequest "x/test" Undefined None w0) in
  let fields := [("jsonrpc", Str "2.0"); ("id", Num 1); ("error", Null); ("result", Num 7)] in
  let w2 := step (Message {| source := Some 1; data := Obj fields |}) w1 in
  promise_state p w1 = Pending
  ∧ has_property "error" fields = true
  ∧ own_property "error" fields = Some Null
  ∧ promise_state p w2 = Fulfilled (Num 7)
  ∧ promise_state p w2 ≠ Rejected Null.
Proof. vm_compute. split_and!; done. Qed.

(** C6.  A call made in a framed page with a signal (if any) that has not
    fired hands exactly one message to the parent's [postMessage], with
    target origin ["*"]: an object whose [jsonrpc] is ['2.0'], whose [id] is
    a number greater than the id of every message posted before and
    different from the id of every earlier request, whose [method] is the
    method given, and whose [params] is the params given - the key being
    absent altogether when the params are [undefined]. *)
Theorem posts_one_envelope (self par : nat) (es0 : list Event)
    (method : string) (params : Value) (options : option Options) :
  let w0 := run es0 (initial self par) in
  let w1 := snd (sendExperimentalRequest method params options w0) in
  par ≠ self →
  (∀ s, options ≫= signal = Some s → aborted (signal_state s w0) = false) →
  ∃ props id,
    posted (log w1) = (par, Obj props, "*") :: posted (log w0)
    ∧ own_property "jsonrpc" props = Some (Str "2.0")
    ∧ own_property "id" props = Some (Num id)
    ∧ (∀ target props' origin id',
         (target, Obj props', origin) ∈ posted (log w0) →
         own_property "id" props' = Some (Num id') → (id' < id)%Z)
    ∧ (∀ k' f', frames w0 !! k' = Some f' → fr_id f' ≠ id)
    ∧ own_property "method" props = Some (Str method)
    ∧ (params ≠ Undefined → own_property "params" props = Some params)
    ∧ (params = Undefined → has_property "params" props = false).
Proof.
  intros w0 w1 Hframed Hsig.
  pose proof (session_consistent self par es0) as Hc. fold w0 in Hc.
  destruct (session_windows self par es0) as [Hw Hp]. fold w0 in Hw, Hp.
  assert (parent w0 ≠ window w0) as Hframed' by congruence.
  assert (∃ props, envelope (_experimentalRequestId w0 + 1) method params = Obj props
                   ∧ own_property "jsonrpc" props = Some (Str "2.0")
                   ∧ own_property "id" props = Some (Num (_experimentalRequestId w0 + 1))
                   ∧ own_property "method" props = Some (Str method)
                   ∧ (params ≠ Undefined → own_property "params" props = Some params)
                   ∧ (params = Undefined → has_property "params" props = false))
    as (props & E & Hrpc & Hid & Hm & Hpar & Hnopar).
  { unfold envelope. eexists. split; [done|]. by destruct params. }
  exists props, (_experimentalRequestId w0 + 1)%Z. split_and!; try done.
  - subst w1. rewrite send_issue by done. cbn [snd log]. rewrite E, Hp.
    by destruct (0 <? _)%Z, (options ≫= signal).
  - intros target props' origin id' Hin Hid'.
    destruct (posted_bound w0 Hc _ _ _ Hin) as (props'' & id'' & [= <-] & Hid'' & Hb).
    assert (id' = id'') as -> by congruence. lia.
  - intros k' f' Hf'. destruct (frames_bound w0 Hc k' f' Hf'). lia.
Qed.

(** C7.  A call made in a page that is its own parent returns a promise
    that is already rejected, with the error saying that the function must
    be called from within an iframe; the rejection is all the call does:
    nothing is posted, no listener or timer is registered, and no id is
    allocated. *)
Theorem top_level_rejects (self par : nat) (es0 : list Event)
    (method : string) (params : Value) (options : option Options) :
  let w0 := run es0 (initial self par) in
  let p := fst (sendExperimentalRequest method params options w0) in
  let w1 := snd (sendExperimentalRequest method params options w0) in
  parent w0 = window w0 →
  promise_state p w1 = Rejected not_in_iframe_error
  ∧ log w1 = Reject p not_in_iframe_error :: log w0
  ∧ posted (log w1) = posted (log w0)
  ∧ message_listeners w1 = message_listeners w0
  ∧ timers w1 = timers w0
  ∧ signals w1 = signals w0
  ∧ _experimentalRequestId w1 = _experimentalRequestId w0.
Proof.
  intros w0 p w1 Htop.
  pose proof (session_consistent self par es0) as Hc. fold w0 in Hc.
  subst p w1. rewrite send_top by done. cbn. split_and!; try done.
  unfold promise_state. cbn. rewrite decide_True by done.
  by rewrite (log_bound w0 Hc) by lia.
Qed.

(** C8.  In a call that goes through, the message handed to [postMessage]
    is the last thing the call does: the log of the call ends with it, and
    before it - with nothing posted in between - come the registration of
    the message listener, of the abort listener when there is a signal, and
    of the timer when the timeout is positive, the id having been allocated
    first.  So when the call returns the request is fully in flight, and an
    answer delivered at once finds its listener and settles the promise. *)
Theorem registers_before_posting (self par : nat) (es0 : list Event)
    (method : string) (params : Value) (options : option Options) :
  let w0 := run es0 (initial self par) in
  let id := (_experimentalRequestId w0 + 1)%Z in
  let T := default DEFAULT_EXPERIMENTAL_REQUEST_TIMEOUT_MS (options ≫= timeoutMs) in
  let p := fst (sendExperimentalRequest method params options w0) in
  let w1 := snd (sendExperimentalRequest method params options w0) in
  par ≠ self →
  (∀ s, options ≫= signal = Some s → aborted (signal_state s w0) = false) →
  (∃ before,
     log w1 = PostMessage par (envelope id method params) "*" :: before ++ log w0
     ∧ posted before = []
     ∧ AddMessageListener p ∈ before
     ∧ (∀ s, options ≫= signal = Some s → AddAbortListener s p ∈ before)
     ∧ ((0 < T)%Z → ∃ t, SetTimeout t p T ∈ before))
  ∧ _experimentalRequestId w1 = id
  ∧ (∃ f due, fr_id f = id ∧ live p f due w1
              ∧ ((0 < T)%Z → (T < 2 ^ 31)%Z → due = (now w0 + T)%Z))
  ∧ (∀ response, answers par id response →
                 promise_state p (step (Message response) w1) ≠ Pending).
Proof.
  intros w0 id T p w1 Hframed Hsig.
  pose proof (session_consistent self par es0) as Hc. fold w0 in Hc.
  destruct (session_windows self par es0) as [Hw Hp]. fold w0 in Hw, Hp.
  assert (parent w0 ≠ window w0) as Hframed' by congruence.
  destruct (issued_call self par es0 method params options Hframed Hsig)
    as (Hc1 & Hp1 & Hn1 & f & Hid & Hm & HT & Hs & Hl).
  fold w0 T p w1 id in Hc1, Hp1, Hn1, Hid, Hl, HT.
  split_and!.
  - exists ((if (0 <? T)%Z then [SetTimeout (next_timer w0) p T] else [])
            ++ AddMessageListener p
            :: match options ≫= signal with
               | Some s => [AddAbortListener s p]
               | None => []
               end).
    subst p w1. rewrite send_issue by done. cbn [fst snd log]. fold T id. rewrite Hp.
    split_and!.
    + by rewrite <- app_assoc.
    + by destruct (0 <? T)%Z, (options ≫= signal).
    + apply elem_of_app. right. by left.
    + intros s Hs'. rewrite Hs'. apply elem_of_app. right. right. by left.
    + intros Hpos. apply Z.ltb_lt in Hpos. rewrite Hpos. eexists. by left.
  - subst w1. by rewrite send_issue.
  - exists f, (now w0 + timer_delay T)%Z. split_and!; [done | done |].
    intros Hpos Hbound. by rewrite timer_delay_small by lia.
  - intros response Ha.
    rewrite <- Hp1, <- Hid in Ha.
    destruct (dispatch_answer response w1 p f Hc1 (live_frame _ _ _ _ Hl)
                (live_listener _ _ _ _ Hl) Ha) as (error & result & _ & _ & E).
    cbn. rewrite E. unfold promise_state.
    rewrite settle_settlements, cleanup_settlements, decide_True by done.
    rewrite (settled_unregistered w1 Hc1 p) by (left; apply (live_listener _ _ _ _ Hl)).
    by destruct (truthy error).
Qed.

(** C9.  In a framed page, every call allocates as its id the number of ids
    allocated so far in the session plus one - so 1 for the first call - and
    that id is greater than the id of every earlier request, whether that
    request is still pending or has been settled; and no two requests of a
    session ever have the same id. *)
Theorem ids_strictly_increase (self par : nat) (es0 : list Event)
    (method : string) (params : Value) (options : option Options) :
  let w0 := run es0 (initial self par) in
  let p := fst (sendExperimentalRequest method params options w0) in
  let w1 := snd (sendExperimentalRequest method params options w0) in
  par ≠ self →
  (∃ f, frames w1 !! p = Some f
        ∧ fr_id f = (Z.of_nat (size (frames w0)) + 1)%Z
        ∧ _experimentalRequestId w1 = fr_id f
        ∧ ∀ k' f', frames w0 !! k' = Some f' → (fr_id f' < fr_id f)%Z)
  ∧ (∀ k k' f f', frames w1 !! k = Some f → frames w1 !! k' = Some f' →
                  fr_id f = fr_id f' → k = k').
Proof.
  intros w0 p w1 Hframed.
  pose proof (session_consistent self par es0) as Hc. fold w0 in Hc.
  destruct (session_windows self par es0) as [Hw Hp]. fold w0 in Hw, Hp.
  assert (parent w0 ≠ window w0) as Hframed' by congruence.
  assert (consistent w1) as Hc1 by (by apply send_consistent).
  split; [|apply (ids_distinct w1 Hc1)].
  assert (∃ f, frames w1 !! p = Some f ∧ fr_id f = (_experimentalRequestId w0 + 1)%Z
               ∧ _experimentalRequestId w1 = fr_id f) as (f & Hf & Hid & Hctr).
  { subst p w1. destruct (send_cases method params options w0 Hc)
      as [[Htop _] | [(s & _ & Hs & Hab) | [_ Hsig]]]; [done | |].
    - rewrite (send_aborted _ _ _ s) by done. cbn. rewrite lookup_insert_eq. eauto.
    - rewrite send_issue by done. cbn. rewrite lookup_insert_eq. eauto. }
  exists f. split_and!; [done | | done |].
  - rewrite Hid, (counter_counts w0 Hc). done.
  - intros k' f' Hf'. destruct (frames_bound w0 Hc k' f' Hf'). lia.
Qed.

(** * [createUIResource] *)

Section ResourceFacts.

Import Resource.

Variable RESOURCE_MIME_TYPE : string.
Variable AdaptersConfig : Type.
Variable wrapHtmlWithAdapters : string → AdaptersConfig → string.
Variable getAdapterMimeType : AdaptersConfig → option string.
Variable utf8ToBase64 : string → string.
Variable getAdditionalResourceProps :
  CreateUIResourceOptions AdaptersConfig → list (string * Value).

Lemma own_property_define k k' v props :
  own_property k (define_property k' v props)
  = if String.eqb k k' then Some v else own_property k props.
Proof.
  induction props as [|[k0 v0] props IH]; cbn.
  - done.
  - destruct (String.eqb k' k0) eqn:E0; cbn.
    + apply String.eqb_eq in E0 as ->. by destruct (String.eqb k k0).
    + destruct (String.eqb k k0) eqn:E1; [|done].
      apply String.eqb_eq in E1 as ->. by rewrite String.eqb_sym, E0.
Qed.

(** Spreading an object that lacks a key leaves that key of the target as
    it is. *)
Lemma own_property_spread k source target :
  own_property k source = None →
  own_property k (spread source target) = own_property k target.
Proof.
  unfold spread. revert target.
  induction source as [|[k0 v0] source IH]; intros target Hk; [done|].
  cbn in *. destruct (String.eqb k k0) eqn:E; [done|].
  rewrite IH by done. by rewrite own_property_define, E.
Qed.

Lemma bind_Return {A B} (a : A) (k : A → Completion B) : Return a ≫= k = k a.
Proof. done. Qed.

Lemma bind_Throw {A B} (e : Value) (k : A → Completion B) : Throw e ≫= k = Throw e.
Proof. done. Qed.

Lemma content_and_mime_cases (options : CreateUIResourceOptions AdaptersConfig) :
  let compute := content_and_mime RESOURCE_MIME_TYPE AdaptersConfig wrapHtmlWithAdapters
                   getAdapterMimeType in
  let payload := if String.eqb (type (content options)) "rawHtml"
                 then htmlString (content options)
                 else iframeUrl (content options) in
  type (content options) = "rawHtml" ∨ type (content options) = "externalUrl" →
  (String.prefix "ui://" (uri options) = false → ∃ e, compute options = Throw e)
  ∧ (is_string payload = false → ∃ e, compute options = Throw e)
  ∧ (String.prefix "ui://" (uri options) = true → is_string payload = true →
     ∃ cm, compute options = Return cm).
Proof.
  intros compute payload Htype. subst compute payload. unfold content_and_mime.
  destruct options as [u [ty html url] enc um md rp erp ad]. cbn in *.
  destruct Htype as [-> | ->]; cbn [String.eqb Ascii.eqb Bool.eqb];
    (split_and!;
     [ intros ->; cbn; eauto
     | intros Hs; destruct (String.prefix "ui://" u); cbn; [|by eauto];
       match goal with
       | H : is_string ?v = false |- _ => destruct v; try discriminate; eauto
       end
     | intros -> Hs; cbn;
       match goal with
       | H : is_string ?v = true |- _ => destruct v; try discriminate
       end;
       try destruct ad; eauto ]).
Qed.

Lemma encode_cases (options : CreateUIResourceOptions AdaptersConfig) (actual mime : string) :
  let enc := encode AdaptersConfig utf8ToBase64 getAdditionalResourceProps in
  (encoding options ≠ Str "text" → encoding options ≠ Str "blob" →
   enc options actual mime
   = Throw (Err ("MCP-UI SDK: Invalid encoding type: " +:+ to_string (encoding options))))
  ∧ (encoding options = Str "text" ∨ encoding options = Str "blob" →
     own_property "uri" (getAdditionalResourceProps options) = None →
     ∃ resource, enc options actual mime = Return resource
                 ∧ own_property "uri" resource = Some (Str (uri options))).
Proof.
  intros enc. subst enc. unfold encode. split.
  - intros Ht Hb.
    destruct (strict_eq_string (encoding options) "text") eqn:Et.
    { apply strict_eq_string_true in Et. done. }
    destruct (strict_eq_string (encoding options) "blob") eqn:Eb.
    { apply strict_eq_string_true in Eb. done. }
    done.
  - intros [E | E] Hno; rewrite E; cbn; eexists; (split; [done|]);
      by rewrite own_property_spread.
Qed.

(** C10, amended.  For options whose [content.type] is ['rawHtml'] or
    ['externalUrl']: [createUIResource] throws when [options.uri] does not
    start with ['ui://'], and when the content ([htmlString], respectively
    [iframeUrl]) is not a string.  When both validations pass it throws
    again, with the invalid-encoding error, unless [options.encoding] is
    ['text'] or ['blob']; and when the encoding is one of these it returns
    an object whose [type] is ['resource'] and whose [resource.uri] is
    [options.uri], given that the properties spread in after them -
    [getAdditionalResourceProps(options)] into the resource,
    [options.embeddedResourceProps] into the result - do not themselves
    carry a [uri], respectively a [type] or [resource], key. *)
Theorem createUIResource_validates (options : CreateUIResourceOptions AdaptersConfig) :
  let create := createUIResource RESOURCE_MIME_TYPE AdaptersConfig wrapHtmlWithAdapters
                  getAdapterMimeType utf8ToBase64 getAdditionalResourceProps in
  let payload := if String.eqb (type (content options)) "rawHtml"
                 then htmlString (content options)
                 else iframeUrl (content options) in
  let embedded := default [] (embeddedResourceProps options) in
  type (content options) = "rawHtml" ∨ type (content options) = "externalUrl" →
  (String.prefix "ui://" (uri options) = false → ∃ e, create options = Throw e)
  ∧ (is_string payload = false → ∃ e, create options = Throw e)
  ∧ (String.prefix "ui://" (uri options) = true → is_string payload = true →
     (encoding options ≠ Str "text" → encoding options ≠ Str "blob" →
      create options
      = Throw (Err ("MCP-UI SDK: Invalid encoding type: " +:+ to_string (encoding options))))
     ∧ (encoding options = Str "text" ∨ encoding options = Str "blob" →
        own_property "uri" (getAdditionalResourceProps options) = None →
        own_property "type" embedded = None →
        own_property "resource" embedded = None →
        ∃ props resource,
          create options = Return (Obj props)
          ∧ own_property "type" props = Some (Str "resource")
          ∧ own_property "resource" props = Some (Obj resource)
          ∧ own_property "uri" resource = Some (Str (uri options)))).
Proof.
  intros create payload embedded Htype. subst create. unfold createUIResource.
  destruct (content_and_mime_cases options Htype) as (Huri & Hpayload & Hok).
  fold payload in Hpayload, Hok.
  split_and!.
  - intros H. destruct (Huri H) as [e ->]. by exists e.
  - intros H. destruct (Hpayload H) as [e ->]. by exists e.
  - intros H1 H2. destruct (Hok H1 H2) as [cm ->]. rewrite bind_Return.
    destruct (encode_cases options cm.1 cm.2) as [Hbad Hgood]. split.
    + intros Ht Hb. by rewrite (Hbad Ht Hb).
    + intros Henc Hno Hty Hres. destruct (Hgood Henc Hno) as (resource & -> & Hu).
      rewrite bind_Return. eexists _, resource. split; [done|].
      fold embedded. by rewrite !own_property_spread.
Qed.

End ResourceFacts.

(** C10 as stated fails: with a valid [uri] and a string [htmlString] but
    no [encoding] (as in the repository's own tests of the validation
    errors), both validations pass and the function still throws. *)
Lemma valid_content_bad_encoding_throws :
  let plain_createUIResource := Resource.plain_createUIResource in
  let options := {| Resource.uri := "ui://test";
                    Resource.content := {| Resource.type := "rawHtml"; Resource.htmlString := Str "<p>Test</p>";
                                  Resource.iframeUrl := Undefined |};
                    Resource.encoding := Undefined;
                    Resource.uiMetadata := None; Resource.metadata := None;
                    Resource.resourceProps := None;
                    Resource.embeddedResourceProps := None; Resource.adapters := None |} in
  String.prefix "ui://" (Resource.uri options) = true
  ∧ is_string (Resource.htmlString (Resource.content options)) = true
  ∧ plain_createUIResource options
    = Throw (Err "MCP-UI SDK: Invalid encoding type: undefined")
  ∧ ¬ ∃ props, plain_createUIResource options = Return (Obj props).
Proof.
  vm_compute. split_and!; try done. intros [props H]. discriminate.
Qed.


(** * The repository's tests, replayed on the model

    The scenarios of [__tests__/index.test.ts], with the page as window [0]
    and the mock parent as window [1]; the first request of a page has
    id [1]. *)

Example test_rejects_outside_iframe :
  let call := sendExperimentalRequest "x/test" Undefined None (initial 0 0) in
  promise_state call.1 call.2
  = Rejected (Err "sendExperimentalRequest must be called from within an iframe").
Proof. reflexivity. Qed.

Example test_posts_request_to_parent :
  posted (log (sendExperimentalRequest "x/clipboard/write" hello_params None
                 (initial 0 1)).2)
  = [(1, Obj [("jsonrpc", Str "2.0"); ("id", Num 1);
              ("method", Str "x/clipboard/write"); ("params", hello_params)], "*")].
Proof. reflexivity. Qed.

Example test_omits_params :
  posted (log (sendExperimentalRequest "x/ping" Undefined None (initial 0 1)).2)
  = [(1, Obj [("jsonrpc", Str "2.0"); ("id", Num 1); ("method", Str "x/ping")], "*")].
Proof. reflexivity. Qed.

Example test_resolves_with_result :
  promise_state 0
    (run [Call "x/test" (Obj [("key", Str "val")]) None; Message (ok_response 1)]
       (initial 0 1))
  = Fulfilled (Obj [("success", Bool true)]).
Proof. reflexivity. Qed.

Example test_rejects_with_error :
  promise_state 0
    (run [Call "x/test" Undefined None; Message (error_response 1)] (initial 0 1))
  = Rejected (Obj [("code", Num (-32601)); ("message", Str "Method not found")]).
Proof. reflexivity. Qed.

Example test_ignores_other_sources :
  let options := Some {| signal := None; timeoutMs := Some 100%Z |} in
  let spoofed := {| source := Some 2;
                    data := Obj [("jsonrpc", Str "2.0"); ("id", Num 1);
                                 ("result", Obj [("spoofed", Bool true)])] |} in
  promise_state 0 (run [Call "x/test" Undefined options; Message spoofed] (initial 0 1))
  = Pending
  ∧ promise_state 0
      (run [Call "x/test" Undefined options; Message spoofed; Advance 100] (initial 0 1))
    = Rejected (Err ("Experimental request " +:+ quote +:+ "x/test" +:+ quote
                       +:+ " timed out after 100ms")).
Proof. split; reflexivity. Qed.

Example test_ignores_other_ids :
  let options := Some {| signal := None; timeoutMs := Some 100%Z |} in
  promise_state 0
    (run [Call "x/test" Undefined options; Message (ok_response 1000); Advance 100]
       (initial 0 1))
  = Rejected (timeout_error "x/test" 100).
Proof. reflexivity. Qed.

Example test_default_timeout :
  promise_state 0 (run [Call "x/slow" Undefined None; Advance 29999] (initial 0 1))
  = Pending
  ∧ promise_state 0 (run [Call "x/slow" Undefined None; Advance 30000] (initial 0 1))
    = Rejected (Err ("Experimental request " +:+ quote +:+ "x/slow" +:+ quote
                       +:+ " timed out after 30000ms")).
Proof. split; reflexivity. Qed.

Example test_no_timeout_when_zero :
  let options := Some {| signal := None; timeoutMs := Some 0%Z |} in
  promise_state 0 (run [Call "x/test" Undefined options; Advance 999999] (initial 0 1))
  = Pending
  ∧ promise_state 0
      (run [Call "x/test" Undefined options; Advance 999999; Message (ok_response 1)]
         (initial 0 1))
    = Fulfilled (Obj [("success", Bool true)]).
Proof. split; reflexivity. Qed.

Example test_signal_already_aborted :
  let options := Some {| signal := Some 7; timeoutMs := None |} in
  let w := run [Abort 7; Call "x/test" Undefined options] (initial 0 1) in
  promise_state 0 w
  = Rejected (Err ("Experimental request " +:+ quote +:+ "x/test" +:+ quote
                     +:+ " was aborted"))
  ∧ posted (log w) = [].
Proof. split; reflexivity. Qed.

Example test_signal_aborted_mid_request :
  let options := Some {| signal := Some 7; timeoutMs := Some 0%Z |} in
  promise_state 0 (run [Call "x/test" Undefined options; Abort 7] (initial 0 1))
  = Rejected (abort_error "x/test").
Proof. reflexivity. Qed.

Example test_cleans_up_listener :
  let w := run [Call "x/test" Undefined None; Message (ok_response 1)] (initial 0 1) in
  RemoveMessageListener 0 ∈ log w ∧ ClearTimeout 0 ∈ log w
  ∧ message_listeners w = [] ∧ timers w = [].
Proof. vm_compute. split_and!; try done; repeat constructor. Qed.

Example test_invalid_uri_prefix :
  Resource.plain_createUIResource
    {| Resource.uri := "invalid://test-html";
       Resource.content := {| Resource.type := "rawHtml";
                              Resource.htmlString := Str "<p>Test</p>";
                              Resource.iframeUrl := Undefined |};
       Resource.encoding := Str "text";
       Resource.uiMetadata := None; Resource.metadata := None;
       Resource.resourceProps := None; Resource.embeddedResourceProps := None;
       Resource.adapters := None |}
  = Throw (Err "MCP-UI SDK: URI must start with 'ui://' when content.type is 'rawHtml'.").
Proof. reflexivity. Qed.

Example test_iframeUrl_not_a_string :
  Resource.plain_createUIResource
    {| Resource.uri := "ui://test";
       Resource.content := {| Resource.type := "externalUrl";
                              Resource.htmlString := Undefined;
                              Resource.iframeUrl := Num 123 |};
       Resource.encoding := Undefined;
       Resource.uiMetadata := None; Resource.metadata := None;
       Resource.resourceProps := None; Resource.embeddedResourceProps := None;
       Resource.adapters := None |}
  = Throw (Err "MCP-UI SDK: content.iframeUrl must be provided as a string when content.type is 'externalUrl'.").
Proof. reflexivity. Qed.

Example test_text_resource :
  Resource.plain_createUIResource
    {| Resource.uri := "ui://test-html";
       Resource.content := {| Resource.type := "rawHtml";
                              Resource.htmlString := Str "<p>Test</p>";
                              Resource.iframeUrl := Undefined |};
       Resource.encoding := Str "text";
       Resource.uiMetadata := None; Resource.metadata := None;
       Resource.resourceProps := None; Resource.embeddedResourceProps := None;
       Resource.adapters := None |}
  = Return (Obj [("type", Str "resource");
                 ("resource", Obj [("uri", Str "ui://test-html");
                                   ("mimeType", Str "text/html;profile=mcp-app");
                                   ("text", Str "<p>Test</p>")])]).
Proof. reflexivity. Qed.

(** * The properties at work

    Each property is applied to a concrete session: its hypotheses are
    checked by evaluation and the conclusion is read off. *)

Lemma settles_at_most_once_witness :
  let w := run [Call "x/clipboard/write" hello_params None; Message (ok_response 1)]
             (initial 0 1) in
  settlements 0 (log w) = [Fulfilled (Obj [("success", Bool true)])]
  ∧ (0 ∉ message_listeners w)
  ∧ promise_state 0 (step (Advance 30000) w) = promise_state 0 w
  ∧ step (Message (error_response 1)) w = w.
Proof.
  intros w.
  destruct (settles_at_most_once 0 1
              [Call "x/clipboard/write" hello_params None; Message (ok_response 1)] 0)
    as [_ H].
  destruct H as (H1 & _ & _ & H4 & H5); [by vm_compute|].
  split; [by vm_compute|]. split; [exact H1|]. split; [apply H4|].
  apply (H5 {| fr_id := 1; fr_method := "x/clipboard/write"; fr_timeoutMs := 30000;
               fr_signal := None; timeoutId := Some 0 |}); by vm_compute.
Defined.

Lemma only_parent_answers_settle_witness :
  let w := run [Call "x/test" Undefined None] (initial 0 1) in
  let forged := {| source := Some 2; data := data (ok_response 1) |} in
  step (Message forged) w = w
  ∧ step (Message (ok_response 1000)) w = w.
Proof.
  intros w forged. split.
  - destruct (only_parent_answers_settle 0 1 [Call "x/test" Undefined None] forged)
      as (_ & _ & _ & Hsrc & _).
    apply Hsrc. by vm_compute.
  - destruct (only_parent_answers_settle 0 1 [Call "x/test" Undefined None]
                (ok_response 1000)) as (_ & _ & _ & _ & Hid).
    apply Hid. intros k f Hk Hf. vm_compute in Hk. apply list_elem_of_singleton in Hk as ->.
    vm_compute in Hf. injection Hf as <-. by vm_compute.
Defined.

Lemma timeout_boundary_witness :
  let options := Some {| signal := None; timeoutMs := Some 500%Z |} in
  let call := sendExperimentalRequest "x/slow" Undefined options (initial 0 1) in
  promise_state call.1 (run [Advance 499] call.2) = Pending
  ∧ promise_state call.1 (run ([Advance 499] ++ [Advance 1]) call.2)
    = Rejected (timeout_error "x/slow" 500).
Proof.
  intros options call.
  destruct (timeout_boundary 0 1 [] "x/slow" Undefined options [Advance 499])
    as (_ & H & _).
  - lia.
  - intros s Hs. by vm_compute in Hs.
  - repeat constructor.
  - destruct H as [H1 H2]; [by vm_compute | by vm_compute | by vm_compute |].
    split; [exact H1|]. apply H2. by vm_compute.
Defined.

Lemma response_settles_witness :
  let w := run [Call "x/test" Undefined None] (initial 0 1) in
  promise_state 0 (step (Message (error_response 1)) w)
  = Rejected (Obj [("code", Num (-32601)); ("message", Str "Method not found")])
  ∧ promise_state 0 (step (Message (ok_response 1)) w)
    = Fulfilled (Obj [("success", Bool true)]).
Proof.
  intros w.
  assert (frames w !! 0 = Some {| fr_id := 1; fr_method := "x/test"; fr_timeoutMs := 30000;
                                  fr_signal := None; timeoutId := Some 0 |}) as Hf
      by reflexivity.
  assert (0 ∈ message_listeners w) as Hk by (vm_compute; left).
  split.
  - destruct (response_settles 0 1 [Call "x/test" Undefined None] 0 _ (error_response 1)
                Hf Hk) as (fields & Hd & Herr & _).
    + by vm_compute.
    + intros fields error [= <-] [= <-]. by eexists.
    + injection Hd as <-. apply Herr. reflexivity.
  - destruct (response_settles 0 1 [Call "x/test" Undefined None] 0 _ (ok_response 1)
                Hf Hk) as (fields & Hd & _ & Hres).
    + by vm_compute.
    + intros fields error [= <-] Herr. by vm_compute in Herr.
    + injection Hd as <-. apply Hres. reflexivity.
Defined.

Lemma posts_one_envelope_witness :
  let call := sendExperimentalRequest "x/clipboard/write" hello_params None (initial 0 1) in
  ∃ props,
    posted (log call.2) = [(1, Obj props, "*")]
    ∧ own_property "method" props = Some (Str "x/clipboard/write")
    ∧ own_property "params" props = Some hello_params.
Proof.
  intros call.
  destruct (posts_one_envelope 0 1 [] "x/clipboard/write" hello_params None)
    as (props & id & H1 & _ & _ & _ & _ & Hm & Hp & _).
  - lia.
  - intros s Hs. by vm_compute in Hs.
  - exists props. split; [exact H1|]. split; [exact Hm|]. by apply Hp.
Defined.

Lemma top_level_rejects_witness :
  let call := sendExperimentalRequest "x/test" Undefined None (initial 0 0) in
  promise_state call.1 call.2 = Rejected not_in_iframe_error
  ∧ posted (log call.2) = [].
Proof.
  intros call.
  destruct (top_level_rejects 0 0 [] "x/test" Undefined None) as (H1 & _ & H3 & _).
  - reflexivity.
  - split; [exact H1 | exact H3].
Defined.

Lemma registers_before_posting_witness :
  let call := sendExperimentalRequest "x/test" Undefined None (initial 0 1) in
  promise_state call.1 (step (Message (ok_response 1)) call.2) ≠ Pending.
Proof.
  intros call.
  destruct (registers_before_posting 0 1 [] "x/test" Undefined None) as (_ & _ & _ & H).
  - lia.
  - intros s Hs. by vm_compute in Hs.
  - apply H. by vm_compute.
Defined.

Lemma ids_strictly_increase_witness :
  let w0 := run [Call "x/a" Undefined None; Message (ok_response 1)] (initial 0 1) in
  let call := sendExperimentalRequest "x/b" Undefined None w0 in
  ∃ f, frames call.2 !! call.1 = Some f ∧ fr_id f = 2%Z.
Proof.
  intros w0 call.
  destruct (ids_strictly_increase 0 1 [Call "x/a" Undefined None; Message (ok_response 1)]
              "x/b" Undefined None) as [(f & Hf & Hid & _) _].
  - lia.
  - exists f. split; [exact Hf | exact Hid].
Defined.

Lemma createUIResource_validates_witness :
  let options := {| Resource.uri := "ui://test-html";
                    Resource.content := {| Resource.type := "rawHtml";
                                           Resource.htmlString := Str "<p>Test</p>";
                                           Resource.iframeUrl := Undefined |};
                    Resource.encoding := Str "text";
                    Resource.uiMetadata := None; Resource.metadata := None;
                    Resource.resourceProps := None;
                    Resource.embeddedResourceProps := None;
                    Resource.adapters := None |} in
  ∃ props resource,
    Resource.plain_createUIResource options = Return (Obj props)
    ∧ own_property "type" props = Some (Str "resource")
    ∧ own_property "resource" props = Some (Obj resource)
    ∧ own_property "uri" resource = Some (Str "ui://test-html").
Proof.
  intros options.
  destruct (createUIResource_validates "text/html;profile=mcp-app" Empty_set
              (λ html _, html) (λ _, None) (λ s, s) (λ _, []) options) as (_ & _ & H).
  - by left.
  - destruct H as [_ H]; [reflexivity | reflexivity |].
    apply H; [by left | reflexivity..].
Defined.
Import Sessions.

(** * Further properties of the experimental request helper *)

(** ** What a running closure leaves alone *)

Lemma fire_frames k o w : frames (settle k o (cleanup k w)) = frames w.
Proof.
  destruct (settle_fixed k o (cleanup k w)) as (_ & _ & _ & _ & -> & _).
  apply cleanup_frames.
Qed.

Lemma fire_listeners k o w :
  message_listeners (settle k o (cleanup k w)) = message_listeners w
  ∨ message_listeners (settle k o (cleanup k w))
    = filter (λ j, j ≠ k) (message_listeners w).
Proof.
  destruct (settle_fixed k o (cleanup k w)) as (_ & _ & _ & _ & _ & _ & -> & _).
  destruct (frames w !! k) as [f|] eqn:Hf.
  - right. apply cleanup_message_listeners. eauto.
  - left. unfold cleanup. by rewrite Hf.
Qed.

Lemma fire_nodup k o w :
  NoDup (message_listeners w) → NoDup (message_listeners (settle k o (cleanup k w))).
Proof.
  intros Hnd. destruct (fire_listeners k o w) as [-> | ->]; [done|].
  by apply NoDup_filter.
Qed.

Lemma fire_timers k o w t :
  t ∈ timers (settle k o (cleanup k w)) → t ∈ timers w.
Proof.
  destruct (settle_fixed k o (cleanup k w)) as (_ & _ & _ & _ & _ & _ & _ & -> & _).
  apply cleanup_timers_subseteq.
Qed.

(** The three loops keep the frames, shrink the listener list without
    duplicating anything, and arm no timer. *)
Lemma dispatch_fold_static event l w :
  let w' := fold_left (deliver event) l w in
  frames w' = frames w
  ∧ (NoDup (message_listeners w) → NoDup (message_listeners w'))
  ∧ (∀ t, t ∈ timers w' → t ∈ timers w).
Proof.
  revert w. induction l as [|k l IH]; intros w; [done|].
  cbn. destruct (IH (deliver event w k)) as (Hf & Hn & Ht).
  destruct (deliver_cases event w k) as [E | (f & o & _ & _ & _ & E)]; rewrite E in *.
  - done.
  - split_and!.
    + by rewrite Hf, fire_frames.
    + intros Hnd. by apply Hn, fire_nodup.
    + intros t Hin. by eapply fire_timers, Ht.
Qed.

Lemma abort_fold_static s l w :
  let w' := fold_left (notify_abort s) l w in
  frames w' = frames w
  ∧ (NoDup (message_listeners w) → NoDup (message_listeners w'))
  ∧ (∀ t, t ∈ timers w' → t ∈ timers w).
Proof.
  revert w. induction l as [|k l IH]; intros w; [done|].
  cbn. destruct (IH (notify_abort s w k)) as (Hf & Hn & Ht).
  destruct (notify_abort_cases s w k) as [E | (f & _ & _ & E)]; rewrite E in *.
  - done.
  - split_and!.
    + by rewrite Hf, fire_frames.
    + intros Hnd. by apply Hn, fire_nodup.
    + intros t Hin. by eapply fire_timers, Ht.
Qed.

Lemma signal_abort_static s w :
  let w' := signal_abort s w in
  frames w' = frames w
  ∧ (NoDup (message_listeners w) → NoDup (message_listeners w'))
  ∧ (∀ t, t ∈ timers w' → t ∈ timers w).
Proof.
  unfold signal_abort. destruct (aborted (signal_state s w)); [done|].
  exact (abort_fold_static s _ (set_signals _ w)).
Qed.

Lemma run_timers_static rounds target w :
  consistent w →
  let w' := run_timers rounds target w in
  frames w' = frames w
  ∧ (NoDup (message_listeners w) → NoDup (message_listeners w')).
Proof.
  revert w. induction rounds as [|rounds IH]; intros w Hc; [done|].
  destruct (run_timers_round (S rounds) target w)
    as [-> | (r & t & [= <-] & Hin & _ & _ & ->)]; [done|].
  destruct (IH _ (fire_timer_consistent t w Hc Hin)) as (Hf & Hn).
  destruct (fire_timer_cases t w Hc Hin) as (f & _ & _ & _ & E). rewrite E in *.
  split.
  - by rewrite Hf, fire_frames.
  - intros Hnd. apply Hn, fire_nodup. done.
Qed.

(** ** Nothing dangles *)

Lemma answers_dec par id event : answers par id event ∨ ¬ answers par id event.
Proof.
  unfold answers.
  destruct (decide (source event = Some par)) as [Hs|Hs]; [|right; tauto].
  destruct (strict_eq_string (get_optional (data event) "jsonrpc") "2.0") eqn:Hr.
  - destruct (strict_eq_number (get_optional (data event) "id") id) eqn:Hi.
    + left. split_and!; [done|..].
      * by apply strict_eq_string_true.
      * by apply strict_eq_number_true.
    + right. intros (_ & _ & H). apply strict_eq_number_true in H. congruence.
  - right. intros (_ & H & _). apply strict_eq_string_true in H. congruence.
Qed.

Lemma unsettled_before w w' k :
  evolves w w' → settlements k (log w') = [] → settlements k (log w) = [].
Proof.
  intros He Hk. destruct (settlements_kept w w' He k) as [extra E].
  rewrite E in Hk. by apply app_eq_nil in Hk as [_ ?].
Qed.

Lemma initial_tidy self par : tidy (initial self par).
Proof.
  split; cbn.
  - intros k f Hf. by rewrite lookup_empty in Hf.
  - constructor.
  - intros t Ht. by apply elem_of_nil in Ht.
  - intros t f Ht. by apply elem_of_nil in Ht.
Qed.

Lemma dispatch_tidy event w : consistent w → tidy w → tidy (dispatch_message event w).
Proof.
  intros Hc [Hl Hn Ht Hst]. unfold dispatch_message.
  destruct (dispatch_fold_static event (message_listeners w) w) as (Ef & En & Et).
  split.
  - intros k f Hf Hk. rewrite Ef in Hf.
    pose proof (unsettled_before _ _ k (dispatch_fold_evolves event _ w) Hk) as Hk0.
    destruct (Hl k f Hf Hk0) as [due Hlive]. exists due.
    destruct (answers_dec (parent w) (fr_id f) event) as [Ha|Hna].
    + exfalso.
      destruct (dispatch_answer event w k f Hc Hf (live_listener _ _ _ _ Hlive) Ha)
        as (error & result & _ & _ & E).
      unfold dispatch_message in E. rewrite E in Hk.
      rewrite settle_settlements, cleanup_settlements, decide_True in Hk by done.
      by destruct (truthy error).
    + by apply dispatch_fold_keeps_live.
  - by apply En.
  - intros t Hin. rewrite dispatch_now. by apply Ht, Et.
  - intros t f Hin Hf. rewrite dispatch_now. rewrite Ef in Hf. by apply Hst; [apply Et|].
Qed.

Lemma signal_abort_tidy s w : consistent w → tidy w → tidy (signal_abort s w).
Proof.
  intros Hc [Hl Hn Ht Hst].
  destruct (signal_abort_static s w) as (Ef & En & Et).
  split.
  - intros k f Hf Hk. rewrite Ef in Hf.
    pose proof (unsettled_before _ _ k (signal_abort_evolves s w) Hk) as Hk0.
    destruct (Hl k f Hf Hk0) as [due Hlive]. exists due.
    destruct (decide (fr_signal f = Some s)) as [Hs|Hs].
    + exfalso. by rewrite (signal_abort_fires s k f due w Hc Hlive Hs) in Hk.
    + by apply signal_abort_keeps_live.
  - by apply En.
  - intros t Hin. rewrite abort_now. by apply Ht, Et.
  - intros t f Hin Hf. rewrite abort_now. rewrite Ef in Hf. by apply Hst; [apply Et|].
Qed.

Lemma advance_tidy d w : consistent w → tidy w → tidy (advance d w).
Proof.
  intros Hc [Hl Hn Ht Hst]. unfold advance.
  set (target := (now w + Z.max 0 d)%Z).
  destruct (run_timers_static (length (timers w)) target w Hc) as (Ef & En).
  split.
  - intros k f Hf Hk. rewrite Ef in Hf.
    pose proof (unsettled_before _ _ k (run_timers_evolves _ target w Hc) Hk) as Hk0.
    destruct (Hl k f Hf Hk0) as [due Hlive]. exists due.
    destruct (decide (0 < fr_timeoutMs f ∧ due ≤ target)%Z) as [[Hpos Hdue]|Hno].
    + exfalso.
      by rewrite (run_timers_fires _ target k f due w Hc Hlive Hpos Hdue) in Hk.
    + apply run_timers_keeps_live; [done..|]. lia.
  - by apply En.
  - intros t Hin. rewrite run_timers_now by done.
    pose proof (run_timers_complete _ target w Hc (le_n _) t Hin). lia.
  - intros t f Hin _ _. rewrite run_timers_now by done.
    pose proof (run_timers_complete _ target w Hc (le_n _) t Hin). lia.
Qed.

Lemma send_tidy method params options w :
  consistent w → tidy w → tidy (snd (sendExperimentalRequest method params options w)).
Proof.
  intros Hc [Hl Hn Ht Hst].
  pose proof (fresh_promise w Hc) as Hfresh.
  pose proof (send_evolves method params options w Hc) as He.
  assert (∀ k f, k ≠ next_promise w →
            frames (snd (sendExperimentalRequest method params options w)) !! k = Some f →
            settlements k (log (snd (sendExperimentalRequest method params options w))) = [] →
            frames w !! k = Some f →
            ∃ due, live k f due (snd (sendExperimentalRequest method params options w)))
    as Hold.
  { intros k f _ _ Hk Hf. destruct (Hl k f Hf (unsettled_before _ _ k He Hk)) as [due Hlive].
    exists due. by apply send_keeps_live. }
  destruct (send_cases method params options w Hc)
    as [[Htop E] | [(s & Hframed & Hs & Hab) | [Hframed Hsig]]].
  - split.
    + intros k f Hf Hk. apply Hold; try done.
      * intros ->. rewrite E in Hf. cbn in Hf. congruence.
      * rewrite E in Hf. exact Hf.
    + by rewrite E.
    + rewrite E. exact Ht.
    + rewrite E. exact Hst.
  - pose proof (send_aborted method params options s w Hframed Hs Hab) as E.
    cbv zeta in E. split.
    + intros k f Hf Hk. destruct (decide (k = next_promise w)) as [->|Hne].
      * exfalso. rewrite E in Hk. cbn in Hk. by rewrite decide_True in Hk.
      * apply Hold; try done. rewrite E in Hf. cbn in Hf.
        by rewrite lookup_insert_ne in Hf.
    + by rewrite E.
    + rewrite E. exact Ht.
    + rewrite E. cbn. intros t f Hin Hf.
      destruct (timers_owned w Hc t Hin) as (f0 & Hf0 & _).
      rewrite lookup_insert_ne in Hf by (intros Heq; congruence).
      by apply Hst.
  - pose proof (send_issue method params options w Hc Hframed Hsig) as E. cbv zeta in E.
    split.
    + intros k f Hf Hk. destruct (decide (k = next_promise w)) as [->|Hne].
      * destruct (send_live method params options w Hc Hframed Hsig)
          as (f' & _ & _ & _ & _ & Hlive).
        exists (now w + timer_delay (default DEFAULT_EXPERIMENTAL_REQUEST_TIMEOUT_MS
                                       (options ≫= timeoutMs)))%Z.
        by rewrite (live_frame _ _ _ _ Hlive) in Hf; injection Hf as <-.
      * apply Hold; try done. rewrite E in Hf. cbn in Hf.
        by rewrite lookup_insert_ne in Hf.
    + rewrite E. cbn. apply NoDup_app. split_and!; [done| |apply NoDup_singleton].
      intros k Hk Hk'. apply list_elem_of_singleton in Hk' as ->.
      by apply (fresh_listener w Hc).
    + rewrite E. cbn. intros t Hin. apply elem_of_app in Hin as [Hin|Hin]; [by apply Ht|].
      destruct (0 <? _)%Z eqn:Hpos; [|by apply elem_of_nil in Hin].
      apply list_elem_of_singleton in Hin as ->. cbn.
      pose proof (timer_delay_nonneg (default DEFAULT_EXPERIMENTAL_REQUEST_TIMEOUT_MS
                                        (options ≫= timeoutMs))). lia.
    + rewrite E. cbn. intros t f Hin Hf Hbound.
      apply elem_of_app in Hin as [Hin|Hin].
      * destruct (timers_owned w Hc t Hin) as (f0 & Hf0 & _).
        rewrite lookup_insert_ne in Hf by (intros Heq; congruence).
        by apply (Hst t f).
      * destruct (0 <? _)%Z eqn:Hpos; [|by apply elem_of_nil in Hin].
        apply list_elem_of_singleton in Hin as ->. cbn in *.
        rewrite lookup_insert_eq in Hf. injection Hf as <-. cbn in Hbound.
        apply Z.ltb_lt in Hpos. rewrite timer_delay_small by lia. lia.
Qed.

Lemma step_tidy e w : consistent w → tidy w → tidy (step e w).
Proof.
  intros Hc Ht. destruct e; cbn.
  - by apply send_tidy.
  - by apply dispatch_tidy.
  - by apply advance_tidy.
  - by apply signal_abort_tidy.
Qed.

Lemma session_tidy self par es : tidy (run es (initial self par)).
Proof.
  assert (∀ w, consistent w → tidy w → tidy (run es w)) as H.
  { induction es as [|e es IH]; intros w Hc Ht; [done|].
    change (run (e :: es) w) with (run es (step e w)).
    apply IH; [by apply step_consistent | by apply step_tidy]. }
  apply H; [apply initial_consistent | apply initial_tidy].
Qed.

(** ** Reading promise states *)

Lemma settlements_not_pending k l o : o ∈ settlements k l → o ≠ Pending.
Proof.
  induction l as [|e l IH]; cbn; [by intros H; apply elem_of_nil in H|].
  destruct e; try done; case_decide as Hd; try done;
    intros Hin; apply elem_of_cons in Hin as [->|Hin]; auto.
Qed.

Lemma pending_iff_unsettled k w :
  promise_state k w = Pending ↔ settlements k (log w) = [].
Proof.
  unfold promise_state. split.
  - intros H. destruct (settlements k (log w)) as [|o l] eqn:E; [done|].
    exfalso. destruct (last (o :: l)) as [o'|] eqn:El.
    + cbn in H. subst o'. apply last_Some in El as [l' El].
      apply (settlements_not_pending k (log w) Pending); [|done].
      rewrite E, El. apply elem_of_app. right. by left.
    + by apply last_None in El.
  - by intros ->.
Qed.

Lemma outcome_of_answer par id event error result :
  answers par id event →
  get (data event) "error" = Return error → get (data event) "result" = Return result →
  outcome (data event) = (if truthy error then Rejected error else Fulfilled result)
  ∧ outcome (data event) ≠ Pending.
Proof.
  intros _ He Hr. unfold outcome. rewrite He, Hr. by destruct (truthy error).
Qed.

(** ** One answer, one request *)

Lemma filter_ext_in {A} (P Q : A → Prop) `{∀ x, Decision (P x)} `{∀ x, Decision (Q x)}
    (l : list A) :
  (∀ x, x ∈ l → (P x ↔ Q x)) → filter P l = filter Q l.
Proof.
  induction l as [|x l IH]; intros Hpq; [done|].
  rewrite !filter_cons.
  assert (P x ↔ Q x) as Hx by (apply Hpq; by left).
  rewrite IH by (intros y Hy; apply Hpq; by right).
  destruct (decide (P x)), (decide (Q x)); tauto.
Qed.

Lemma filter_all {A} (P : A → Prop) `{∀ x, Decision (P x)} (l : list A) :
  (∀ x, x ∈ l → P x) → filter P l = l.
Proof.
  induction l as [|x l IH]; intros Hp; [done|].
  rewrite filter_cons_True by (apply Hp; by left).
  f_equal. apply IH. intros y Hy. apply Hp. by right.
Qed.

(** The timers [cleanup] clears are exactly those of its frame. *)
Lemma cleanup_timers_of_frame k f w :
  consistent w → frames w !! k = Some f →
  timers (cleanup k w) = filter (λ t, tm_frame t ≠ k) (timers w).
Proof.
  intros Hc Hf. rewrite (cleanup_timers k f) by done.
  destruct (timeoutId f) as [tk|] eqn:Hid.
  - apply filter_ext_in. intros t Ht.
    destruct (timers_owned w Hc t Ht) as (f' & Hf' & Hid').
    split; intros Hne E; apply Hne.
    + rewrite E, Hf in Hf'. injection Hf' as <-. congruence.
    + apply (timeoutId_distinct w Hc (tm_frame t) k f' f tk); [done | done | | done].
      by rewrite Hid', E.
  - symmetry. apply filter_all. intros t Ht E.
    destruct (timers_owned w Hc t Ht) as (f' & Hf' & Hid').
    rewrite E, Hf in Hf'. injection Hf' as <-. congruence.
Qed.

Lemma answer_effect event w k f :
  consistent w → frames w !! k = Some f → k ∈ message_listeners w →
  answers (parent w) (fr_id f) event →
  step (Message event) w = settle k (outcome (data event)) (cleanup k w)
  ∧ outcome (data event) ≠ Pending.
Proof.
  intros Hc Hf Hk Ha.
  destruct (dispatch_answer event w k f Hc Hf Hk Ha) as (error & result & He & Hr & E).
  destruct (outcome_of_answer _ _ _ _ _ Ha He Hr) as [Ho Hnp].
  split; [|done]. cbn. by rewrite E, Ho.
Qed.

Lemma answer_state event w k f :
  consistent w → frames w !! k = Some f → k ∈ message_listeners w →
  answers (parent w) (fr_id f) event →
  promise_state k (step (Message event) w) = outcome (data event)
  ∧ ∀ j, j ≠ k → settlements j (log (step (Message event) w)) = settlements j (log w).
Proof.
  intros Hc Hf Hk Ha. destruct (answer_effect event w k f Hc Hf Hk Ha) as [E Hnp].
  rewrite E. split.
  - apply settled_state. rewrite settle_settlements, cleanup_settlements, decide_True by done.
    rewrite (settled_unregistered w Hc k) by (by left).
    by destruct (outcome (data event)).
  - intros j Hne. rewrite settle_settlements, cleanup_settlements.
    by rewrite decide_False by done.
Qed.

(** X1.  In every session and for every request: its promise is pending
    exactly when its message listener is on the window; it is pending with a
    positive timeout exactly when it has a timer in the timer table; it is
    pending with a signal exactly when its abort listener is on that signal;
    and the window never holds a listener twice.  So listeners and timers
    are in one-to-one correspondence with the requests still pending. *)
Theorem pending_iff_registered (self par : nat) (es : list Event) (k : nat) (f : Frame) :
  let w := run es (initial self par) in
  frames w !! k = Some f →
  (promise_state k w = Pending ↔ k ∈ message_listeners w)
  ∧ (promise_state k w = Pending ∧ (0 < fr_timeoutMs f)%Z
     ↔ ∃ t, t ∈ timers w ∧ tm_frame t = k)
  ∧ (∀ s, promise_state k w = Pending ∧ fr_signal f = Some s
          ↔ k ∈ abort_listeners (signal_state s w))
  ∧ NoDup (message_listeners w).
Proof.
  intros w Hf.
  pose proof (session_consistent self par es) as Hc. fold w in Hc.
  pose proof (session_tidy self par es) as Ht. fold w in Ht.
  assert (∀ j, registered j w → promise_state j w = Pending) as Hreg.
  { intros j Hj. apply pending_iff_unsettled. by apply (settled_unregistered w Hc). }
  assert (promise_state k w = Pending → ∃ due, live k f due w) as Hlive.
  { intros Hp. apply (unsettled_live w Ht k f Hf). by apply pending_iff_unsettled. }
  split_and!.
  - split.
    + intros Hp. destruct (Hlive Hp) as [due Hl]. apply (live_listener _ _ _ _ Hl).
    + intros Hk. apply Hreg. by left.
  - split.
    + intros [Hp Hpos]. destruct (Hlive Hp) as [due Hl].
      destruct (live_timer _ _ _ _ Hl Hpos) as (t & _ & Hin).
      eexists. split; [exact Hin | done].
    + intros (t & Hin & Hk).
      assert (promise_state k w = Pending) as Hp by (apply Hreg; right; left; eauto).
      split; [done|]. destruct (Hlive Hp) as [due Hl].
      by destruct (live_timer_unique k f due w t Hc Hl Hin Hk).
  - intros s. split.
    + intros [Hp Hs]. destruct (Hlive Hp) as [due Hl].
      destruct (live_signal _ _ _ _ Hl s Hs) as (sg & Hsg & _ & Hin).
      unfold signal_state. by rewrite Hsg.
    + intros Hin. destruct (signal_state_elem _ _ _ Hin) as (sg & Hsg & Hk & _).
      split; [apply Hreg; right; right; by eauto|].
      destruct (abort_listeners_owned w Hc s sg k Hsg Hk) as (f' & Hf' & Hs).
      congruence.
  - apply (listeners_nodup w Ht).
Qed.

(** X2.  In every session no timer in the timer table is overdue: every
    armed timer is due now or later; and the deadline of a pending request
    whose timeout is positive and below [2^31] - a delay the platform's
    timers can hold - lies strictly in the future. *)
Theorem timers_never_overdue (self par : nat) (es : list Event) :
  let w := run es (initial self par) in
  (∀ t, t ∈ timers w → (now w ≤ tm_due t)%Z)
  ∧ (∀ k f, frames w !! k = Some f → promise_state k w = Pending →
            (0 < fr_timeoutMs f)%Z →
            ∃ t, t ∈ timers w ∧ tm_frame t = k ∧ (now w ≤ tm_due t)%Z
                 ∧ ((fr_timeoutMs f < 2 ^ 31)%Z → (now w < tm_due t)%Z)).
Proof.
  intros w.
  pose proof (session_tidy self par es) as Ht. fold w in Ht.
  split.
  - apply (timers_ahead w Ht).
  - intros k f Hf Hp Hpos.
    destruct (unsettled_live w Ht k f Hf) as [due Hl]; [by apply pending_iff_unsettled|].
    destruct (live_timer _ _ _ _ Hl Hpos) as (t & _ & Hin).
    eexists. split; [exact Hin|]. split; [done|]. split.
    + by apply (timers_ahead w Ht).
    + intros Hbound. by apply (timers_strictly_ahead w Ht _ f).
Qed.

(** X3.  The answer to a request touches that request only: its listener
    and its timer are the only ones removed, its promise takes the outcome
    of the payload, every other promise keeps its state, every other request
    in flight stays in flight, and nothing is posted. *)
Theorem answer_touches_only_its_request (self par : nat) (es : list Event)
    (k : nat) (f : Frame) (event : MessageEvent) :
  let w := run es (initial self par) in
  let w' := step (Message event) w in
  frames w !! k = Some f → k ∈ message_listeners w → answers par (fr_id f) event →
  message_listeners w' = filter (λ j, j ≠ k) (message_listeners w)
  ∧ timers w' = filter (λ t, tm_frame t ≠ k) (timers w)
  ∧ promise_state k w' = outcome (data event)
  ∧ outcome (data event) ≠ Pending
  ∧ (∀ j, j ≠ k → promise_state j w' = promise_state j w)
  ∧ (∀ j fj due, j ≠ k → live j fj due w → live j fj due w')
  ∧ posted (log w') = posted (log w).
Proof.
  intros w w' Hf Hk Ha.
  pose proof (session_consistent self par es) as Hc. fold w in Hc.
  destruct (session_windows self par es) as [_ Hp]. fold w in Hp. rewrite <- Hp in Ha.
  destruct (answer_effect event w k f Hc Hf Hk Ha) as [E Hnp].
  destruct (answer_state event w k f Hc Hf Hk Ha) as [Hst Hothers].
  fold w' in E, Hst, Hothers.
  destruct (settle_fixed k (outcome (data event)) (cleanup k w))
    as (_ & _ & _ & _ & _ & _ & Eml & Etm & _).
  split_and!; try done.
  - rewrite E, Eml. apply cleanup_message_listeners. eauto.
  - rewrite E, Etm. by apply (cleanup_timers_of_frame k f).
  - intros j Hne. unfold promise_state. by rewrite Hothers.
  - intros j fj due Hne Hl. rewrite E. by apply fire_keeps_live.
  - by rewrite E, settle_posted, cleanup_posted.
Qed.

(** X4.  Answers may arrive in any order: when two different requests are
    in flight, delivering their answers in either order settles each
    promise with the outcome of its own payload and leaves the same
    listeners and timers behind. *)
Theorem answers_commute (self par : nat) (es : list Event)
    (j k : nat) (fj fk : Frame) (ej ek : MessageEvent) :
  let w := run es (initial self par) in
  let w1 := run [Message ej; Message ek] w in
  let w2 := run [Message ek; Message ej] w in
  frames w !! j = Some fj → j ∈ message_listeners w → answers par (fr_id fj) ej →
  frames w !! k = Some fk → k ∈ message_listeners w → answers par (fr_id fk) ek →
  j ≠ k →
  promise_state j w1 = outcome (data ej) ∧ promise_state k w1 = outcome (data ek)
  ∧ promise_state j w2 = outcome (data ej) ∧ promise_state k w2 = outcome (data ek)
  ∧ message_listeners w1 = message_listeners w2
  ∧ timers w1 = timers w2.
Proof.
  intros w w1 w2 Hfj Hj Haj Hfk Hk Hak Hne.
  pose proof (session_consistent self par es) as Hc. fold w in Hc.
  destruct (session_windows self par es) as [_ Hp]. fold w in Hp.
  rewrite <- Hp in Haj, Hak.
  assert (∀ a fa ea b fb eb,
            frames w !! a = Some fa → a ∈ message_listeners w →
            answers (parent w) (fr_id fa) ea →
            frames w !! b = Some fb → b ∈ message_listeners w →
            answers (parent w) (fr_id fb) eb → a ≠ b →
            let v := run [Message ea; Message eb] w in
            promise_state a v = outcome (data ea) ∧ promise_state b v = outcome (data eb)
            ∧ message_listeners v
              = filter (λ x, x ≠ b) (filter (λ x, x ≠ a) (message_listeners w))
            ∧ timers v
              = filter (λ t, tm_frame t ≠ b) (filter (λ t, tm_frame t ≠ a) (timers w)))
    as Hboth.
  { intros a fa ea b fb eb Hfa Ha Haa Hfb Hb Hab Hnab v.
    destruct (answer_effect ea w a fa Hc Hfa Ha Haa) as [E Hnp].
    destruct (answer_state ea w a fa Hc Hfa Ha Haa) as [Hst Hothers].
    set (wa := step (Message ea) w) in *.
    assert (consistent wa) as Hca by (by apply step_consistent).
    pose proof (step_evolves (Message ea) w Hc) as Hev. fold wa in Hev.
    destruct (settle_fixed a (outcome (data ea)) (cleanup a w))
      as (_ & _ & _ & _ & _ & _ & Eml & Etm & _).
    assert (message_listeners wa = filter (λ x, x ≠ a) (message_listeners w)) as Eml'.
    { rewrite E, Eml. apply cleanup_message_listeners. eauto. }
    assert (timers wa = filter (λ t, tm_frame t ≠ a) (timers w)) as Etm'.
    { rewrite E, Etm. by apply (cleanup_timers_of_frame a fa). }
    assert (frames wa !! b = Some fb) as Hfb' by (by apply (frames_kept _ _ Hev)).
    assert (b ∈ message_listeners wa) as Hb'.
    { rewrite Eml'. apply list_elem_of_filter. split; [congruence | done]. }
    assert (answers (parent wa) (fr_id fb) eb) as Hab'
        by (by rewrite (same_parent _ _ Hev)).
    destruct (answer_effect eb wa b fb Hca Hfb' Hb' Hab') as [E' Hnp'].
    destruct (answer_state eb wa b fb Hca Hfb' Hb' Hab') as [Hst' Hothers'].
    change v with (step (Message eb) wa).
    destruct (settle_fixed b (outcome (data eb)) (cleanup b wa))
      as (_ & _ & _ & _ & _ & _ & Eml2 & Etm2 & _).
    split_and!.
    - unfold promise_state. rewrite Hothers' by done. exact Hst.
    - exact Hst'.
    - rewrite E', Eml2, cleanup_message_listeners by eauto. by rewrite Eml'.
    - rewrite E', Etm2, (cleanup_timers_of_frame b fb) by done. by rewrite Etm'. }
  destruct (Hboth j fj ej k fk ek) as (H1 & H2 & H3 & H4); try done.
  destruct (Hboth k fk ek j fj ej) as (H5 & H6 & H7 & H8); try done.
  fold w1 in H1, H2, H3, H4. fold w2 in H5, H6, H7, H8.
  split_and!; try done.
  - rewrite H3, H7, !list_filter_filter. apply list_filter_iff. tauto.
  - rewrite H4, H8, !list_filter_filter. apply list_filter_iff. tauto.
Qed.

Lemma pending_live self par es k f :
  let w := run es (initial self par) in
  frames w !! k = Some f → promise_state k w = Pending → ∃ due, live k f due w.
Proof.
  intros w Hf Hp. apply (unsettled_live w (session_tidy self par es) k f Hf).
  by apply pending_iff_unsettled.
Qed.

Lemma step_keeps_settled e w k :
  consistent w → promise_state k w ≠ Pending →
  promise_state k (step e w) = promise_state k w.
Proof.
  intros Hc Hp. unfold promise_state.
  rewrite (settled_stays_nonempty w (step e w) k); [done | by apply step_evolves
    | by apply step_consistent |].
  intros E. apply Hp. by apply pending_iff_unsettled.
Qed.

(** C4.  A call made in a framed page with a signal [s]. If [s] has already
    fired when the call is made, the promise returned is rejected with the
    abort error naming the method. If [s] fires later, while the promise is
    still pending, the promise is rejected with that same error. In both
    cases, whatever happens next, a message carrying the id of the request
    leaves the page exactly as it is and the promise rejected. *)
Theorem abort_rejects (self par : nat) (es0 : list Event)
    (method : string) (params : Value) (options : option Options) (s : nat)
    (es es' : list Event) (response : MessageEvent) :
  let w0 := run es0 (initial self par) in
  let id := (_experimentalRequestId w0 + 1)%Z in
  let p := fst (sendExperimentalRequest method params options w0) in
  let w1 := snd (sendExperimentalRequest method params options w0) in
  par ≠ self →
  options ≫= signal = Some s →
  get_optional (data response) "id" = Num id →
  (aborted (signal_state s w0) = true →
   promise_state p w1 = Rejected (abort_error method)
   ∧ step (Message response) (run es' w1) = run es' w1
   ∧ promise_state p (run es' w1) = Rejected (abort_error method))
  ∧ (aborted (signal_state s w0) = false →
     promise_state p (run es w1) = Pending →
     let w2 := step (Abort s) (run es w1) in
     promise_state p w2 = Rejected (abort_error method)
     ∧ step (Message response) (run es' w2) = run es' w2
     ∧ promise_state p (run es' w2) = Rejected (abort_error method)).
Proof.
  intros w0 id p w1 Hframed Hs Hid.
  pose proof (session_consistent self par es0) as Hc. fold w0 in Hc.
  destruct (session_windows self par es0) as [Hw Hp]. fold w0 in Hw, Hp.
  assert (parent w0 ≠ window w0) as Hframed' by congruence.
  assert (consistent w1) as Hc1 by (by apply send_consistent).
  split.
  - intros Hab.
    assert (frames w1 !! p
            = Some {| fr_id := id; fr_method := method;
                      fr_timeoutMs := default DEFAULT_EXPERIMENTAL_REQUEST_TIMEOUT_MS
                                        (options ≫= timeoutMs);
                      fr_signal := Some s; timeoutId := None |}
            ∧ settlements p (log w1) = [Rejected (abort_error method)]) as [Hf Hset].
    { subst p w1. rewrite (send_aborted _ _ _ s) by done. cbn.
      rewrite lookup_insert_eq, decide_True by done.
      by rewrite (log_bound w0 Hc) by lia. }
    split; [by apply settled_state|].
    by apply (stale_response_later p _ _ response es' w1 Hc1 Hf Hset).
  - intros Hna Hpend w2.
    assert (∀ s', options ≫= signal = Some s' → aborted (signal_state s' w0) = false) as Hsig.
    { intros s' Hs'. congruence. }
    destruct (issued_call self par es0 method params options Hframed Hsig)
      as (_ & Hp1 & Hn1 & f & Hfid & Hm & HT & Hfs & Hl).
    fold w0 p w1 in Hp1, Hn1, Hfid, Hl. rewrite Hs in Hfs.
    pose proof (run_consistent es w1 Hc1) as Hc2.
    assert (frames (run es w1) !! p = Some f) as Hf1.
    { apply (frames_kept _ _ (run_evolves es w1 Hc1)), (live_frame _ _ _ _ Hl). }
    assert (run es w1 = run (es0 ++ Call method params options :: es) (initial self par))
      as Erun by (by rewrite run_app).
    destruct (pending_live self par (es0 ++ Call method params options :: es) p f)
      as [due Hl']; [by rewrite <- Erun | by rewrite <- Erun |].
    cbv zeta in Hl'. rewrite <- Erun in Hl'.
    assert (consistent w2) as Hc3 by (by apply signal_abort_consistent).
    assert (settlements p (log w2) = [Rejected (abort_error method)]) as Hset.
    { rewrite <- Hm. by apply (signal_abort_fires s p f due). }
    assert (frames w2 !! p = Some f) as Hf.
    { by apply (frames_kept _ _ (signal_abort_evolves s (run es w1))). }
    split; [by apply settled_state|].
    apply (stale_response_later p f _ response es' w2 Hc3 Hf Hset). by rewrite Hfid.
Qed.

(** X5.  Firing a signal rejects, with the abort error naming its method,
    every pending request that was made with that signal, and unregisters
    its listener; every other request keeps the state it had, the pending
    ones stay in flight, and nothing is posted. *)
Theorem firing_signal_rejects_its_requests (self par : nat) (es : list Event) (s : nat) :
  let w := run es (initial self par) in
  let w' := step (Abort s) w in
  (∀ k f, frames w !! k = Some f → promise_state k w = Pending →
     if decide (fr_signal f = Some s)
     then promise_state k w' = Rejected (abort_error (fr_method f))
          ∧ (k ∉ message_listeners w')
          ∧ (∀ t, t ∈ timers w' → tm_frame t ≠ k)
     else promise_state k w' = Pending ∧ ∀ due, live k f due w → live k f due w')
  ∧ (∀ k, promise_state k w ≠ Pending → promise_state k w' = promise_state k w)
  ∧ posted (log w') = posted (log w)
  ∧ now w' = now w.
Proof.
  intros w w'.
  pose proof (session_consistent self par es) as Hc. fold w in Hc.
  assert (consistent w') as Hc' by (by apply step_consistent).
  split_and!.
  - intros k f Hf Hp. destruct (pending_live self par es k f Hf Hp) as [due Hl]. fold w in Hl.
    case_decide as Hs.
    + pose proof (signal_abort_fires s k f due w Hc Hl Hs) as E.
      change (signal_abort s w) with w' in E.
      assert (¬ registered k w') as Hnr.
      { intros Hr. apply (settled_unregistered w' Hc') in Hr. by rewrite E in Hr. }
      split_and!.
      * by apply settled_state.
      * intros Hin. apply Hnr. by left.
      * intros t Hin Hk. apply Hnr. right; left. eauto.
    + split.
      * apply (live_pending k f due w' Hc'). by apply signal_abort_keeps_live.
      * intros due' Hl'. by apply signal_abort_keeps_live.
  - intros k Hp. by apply step_keeps_settled.
  - apply signal_abort_posted.
  - by apply abort_now.
Qed.

(** X6.  A clock advance fires exactly the timers that are due by the time
    it reaches: the request of each such timer is rejected with the timeout
    error naming its method and its timeout and the timer leaves the table;
    a timer due later stays armed and its request pending; a pending
    request without a timeout stays pending.  Promises settled before keep
    their state and nothing is posted. *)
Theorem advance_fires_exactly_due_timers (self par : nat) (es : list Event) (d : Z) :
  let w := run es (initial self par) in
  let w' := step (Advance d) w in
  let target := (now w + Z.max 0 d)%Z in
  (∀ t, t ∈ timers w →
     ∃ f, frames w !! tm_frame t = Some f ∧ (0 < fr_timeoutMs f)%Z
          ∧ if decide (tm_due t ≤ target)%Z
            then promise_state (tm_frame t) w'
                 = Rejected (timeout_error (fr_method f) (fr_timeoutMs f))
                 ∧ (t ∉ timers w') ∧ (tm_frame t ∉ message_listeners w')
            else promise_state (tm_frame t) w' = Pending ∧ t ∈ timers w'
                 ∧ tm_frame t ∈ message_listeners w')
  ∧ (∀ k f, frames w !! k = Some f → promise_state k w = Pending →
            (fr_timeoutMs f ≤ 0)%Z → promise_state k w' = Pending)
  ∧ (∀ k, promise_state k w ≠ Pending → promise_state k w' = promise_state k w)
  ∧ now w' = target
  ∧ posted (log w') = posted (log w).
Proof.
  intros w w' target.
  pose proof (session_consistent self par es) as Hc. fold w in Hc.
  assert (consistent w') as Hc' by (by apply step_consistent).
  split_and!.
  - intros t Hin. destruct (timers_owned w Hc t Hin) as (f & Hf & Hid).
    assert (promise_state (tm_frame t) w = Pending) as Hp.
    { apply pending_iff_unsettled, (settled_unregistered w Hc). right; left. eauto. }
    destruct (pending_live self par es _ f Hf Hp) as [due Hl]. fold w in Hl.
    destruct (live_timer_unique _ f due w t Hc Hl Hin eq_refl) as [Hpos <-].
    exists f. split_and!; [done | done |]. case_decide as Hdue.
    + pose proof (run_timers_fires (length (timers w)) target _ f _ w Hc Hl Hpos Hdue
                    (le_n _)) as E.
      change (run_timers (length (timers w)) target w) with w' in E.
      split_and!.
      * by apply settled_state.
      * intros Hin'. pose proof (advance_complete d w Hc t Hin') as Hlt.
        fold target in Hlt. lia.
      * intros Hin'. assert (registered (tm_frame t) w') as Hr by (by left).
        apply (settled_unregistered w' Hc') in Hr. by rewrite E in Hr.
    + assert (live (tm_frame t) f (tm_due t) w') as Hl'.
      { apply run_timers_keeps_live; [done | done | intros _; lia]. }
      split_and!.
      * by apply (live_pending _ f (tm_due t)).
      * destruct (live_timer _ _ _ _ Hl' Hpos) as (t' & Hid' & Hin').
        rewrite Hid in Hid'. injection Hid' as <-. by destruct t.
      * apply (live_listener _ _ _ _ Hl').
  - intros k f Hf Hp Hno. destruct (pending_live self par es k f Hf Hp) as [due Hl].
    fold w in Hl. apply (live_pending k f due w' Hc').
    apply run_timers_keeps_live; [done | done | intros Hpos; lia].
  - intros k Hp. by apply step_keeps_settled.
  - cbn. unfold advance. rewrite run_timers_now by done. unfold target. lia.
  - by apply run_timers_posted.
Qed.

(** X7.  A message that is not a JSON-RPC 2.0 message - its data is null or
    undefined, or not an object, or has no [jsonrpc] field equal to ['2.0'] -
    leaves any page exactly as it is, whatever its source and whatever id
    it carries. *)
Theorem non_jsonrpc_message_ignored (w : World) (event : MessageEvent) :
  get_optional (data event) "jsonrpc" ≠ Str "2.0" →
  step (Message event) w = w.
Proof.
  intros Hj. cbn. unfold dispatch_message.
  assert (∀ l v, fold_left (deliver event) l v = v) as Hfold; [|apply Hfold].
  induction l as [|k l IH]; intros v; [done|].
  cbn. rewrite <- (IH v) at 2. f_equal.
  unfold deliver. case_decide; [|done].
  unfold invoke_handler, handler. destruct (frames v !! k) as [f|]; [|done].
  destruct (negb _); [done|].
  destruct (get_optional (data event) "jsonrpc") as [| | | |s'| |] eqn:E; try done.
  cbn. destruct (String.eqb s' "2.0") eqn:Es; [|done].
  apply String.eqb_eq in Es. by subst.
Qed.

(** ** What reaches the wire *)

Lemma dispatch_fold_posted event l w :
  posted (log (fold_left (deliver event) l w)) = posted (log w).
Proof.
  revert w. induction l as [|k l IH]; intros w; [done|].
  cbn. rewrite IH.
  destruct (deliver_cases event w k) as [-> | (f & o & _ & _ & _ & ->)]; [done|].
  by rewrite settle_posted, cleanup_posted.
Qed.

Lemma send_issue_posted method params options w :
  consistent w → parent w ≠ window w →
  (∀ s, options ≫= signal = Some s → aborted (signal_state s w) = false) →
  let w' := snd (sendExperimentalRequest method params options w) in
  posted (log w')
  = (parent w, envelope (_experimentalRequestId w + 1) method params, "*") :: posted (log w)
  ∧ ∃ f, frames w' !! next_promise w = Some f
         ∧ fr_id f = (_experimentalRequestId w + 1)%Z ∧ fr_method f = method.
Proof.
  intros Hc Hframed Hsig. cbv zeta. rewrite send_issue by done. cbn. split.
  - by destruct (0 <? _)%Z, (options ≫= signal).
  - eexists. rewrite lookup_insert_eq. done.
Qed.

(** Every event either posts nothing, or is a call that posts the envelope
    of the frame it has just created. *)
Lemma step_posted e w :
  consistent w →
  posted (log (step e w)) = posted (log w)
  ∨ ∃ f params,
      frames (step e w) !! next_promise w = Some f
      ∧ fr_id f = (_experimentalRequestId w + 1)%Z
      ∧ _experimentalRequestId (step e w) = (_experimentalRequestId w + 1)%Z
      ∧ parent w ≠ window w
      ∧ posted (log (step e w))
        = (parent w, envelope (fr_id f) (fr_method f) params, "*") :: posted (log w).
Proof.
  intros Hc. destruct e as [method params options|event|d|s]; cbn.
  - destruct (send_cases method params options w Hc)
      as [[Htop ->] | [(s & Hframed & Hs & Hab) | [Hframed Hsig]]]; [by left | |].
    + left. by rewrite (send_aborted _ _ _ s).
    + right. destruct (send_issue_posted method params options w Hc Hframed Hsig)
        as (Hp & f & Hf & Hid & Hm).
      exists f, params. rewrite Hid, Hm. split_and!; try done.
      by rewrite send_issue.
  - left. apply dispatch_fold_posted.
  - left. by apply run_timers_posted.
  - left. apply signal_abort_posted.
Qed.

Lemma session_posted self par es :
  let w := run es (initial self par) in
  ∀ target message origin, (target, message, origin) ∈ posted (log w) →
    target = par ∧ origin = "*" ∧ par ≠ self
    ∧ ∃ k f params, frames w !! k = Some f
                    ∧ message = envelope (fr_id f) (fr_method f) params.
Proof.
  induction es as [|e es IH] using rev_ind; cbv zeta.
  - intros ??? H. by apply elem_of_nil in H.
  - rewrite run_app. change (run [e] ?w) with (step e w).
    pose proof (session_consistent self par es) as Hc.
    destruct (session_windows self par es) as [Hw Hp].
    set (w := run es (initial self par)) in *.
    pose proof (step_evolves e w Hc) as Hev.
    assert (∀ target message origin, (target, message, origin) ∈ posted (log w) →
              target = par ∧ origin = "*" ∧ par ≠ self
              ∧ ∃ k f params, frames (step e w) !! k = Some f
                              ∧ message = envelope (fr_id f) (fr_method f) params) as Hold.
    { intros target message origin Hin.
      destruct (IH target message origin Hin) as (? & ? & ? & k & f & params & Hf & ?).
      split_and!; try done. exists k, f, params. split; [|done].
      by apply (frames_kept _ _ Hev). }
    intros target message origin Hin.
    destruct (step_posted e w Hc) as [E | (f & params & Hf & _ & _ & Hframed & E)];
      rewrite E in Hin; [by apply Hold|].
    apply elem_of_cons in Hin as [[= -> -> ->] | Hin]; [|by apply Hold].
    rewrite Hw, Hp in Hframed. split_and!; try done. by exists (next_promise w), f, params.
Qed.

Lemma session_posted_count self par es :
  let w := run es (initial self par) in
  (Z.of_nat (length (posted (log w))) ≤ _experimentalRequestId w)%Z.
Proof.
  induction es as [|e es IH] using rev_ind; cbv zeta; [done|].
  rewrite run_app. change (run [e] ?w) with (step e w).
  pose proof (session_consistent self par es) as Hc.
  set (w := run es (initial self par)) in *. cbv zeta in IH.
  assert (_experimentalRequestId w ≤ _experimentalRequestId (step e w))%Z as Hmono.
  { pose proof (step_consistent e w Hc) as Hc'.
    rewrite (counter_counts _ Hc), (counter_counts _ Hc').
    apply inj_le, map_subseteq_size, map_subseteq_spec. intros k f Hf.
    apply (frames_kept _ _ (step_evolves e w Hc) k f Hf). }
  destruct (step_posted e w Hc) as [E | (f & params & _ & _ & Hid & _ & E)]; rewrite E.
  - lia.
  - rewrite Hid. cbn [length]. lia.
Qed.

(** Every request is on the wire or was rejected as aborted on the spot. *)
Lemma session_requests_posted self par es :
  let w := run es (initial self par) in
  ∀ k f, frames w !! k = Some f →
    (∃ params, (par, envelope (fr_id f) (fr_method f) params, "*") ∈ posted (log w))
    ∨ settlements k (log w) = [Rejected (abort_error (fr_method f))].
Proof.
  induction es as [|e es IH] using rev_ind; cbv zeta; [done|].
  rewrite run_app. change (run [e] ?w) with (step e w).
  pose proof (session_consistent self par es) as Hc.
  destruct (session_windows self par es) as [Hw Hp].
  set (w := run es (initial self par)) in *. cbv zeta in IH.
  pose proof (step_consistent e w Hc) as Hc'.
  pose proof (step_evolves e w Hc) as Hev.
  assert (∀ x, x ∈ posted (log w) → x ∈ posted (log (step e w))) as Hsub.
  { intros x Hx. destruct (step_posted e w Hc) as [-> | (? & ? & _ & _ & _ & _ & ->)];
      [done | by right]. }
  intros k f Hf. destruct (frames w !! k) as [f0|] eqn:Hf0.
  - assert (f0 = f) as -> by (apply (frames_kept _ _ Hev) in Hf0; congruence).
    destruct (IH k f Hf0) as [[params Hin] | Hs].
    + left. exists params. by apply Hsub.
    + right. by apply (settled_stays w (step e w)).
  - destruct e as [method params options|event|d|s]; cbn in Hf.
    + destruct (send_cases method params options w Hc)
        as [[Htop E] | [(s & Hframed & Hs & Hab) | [Hframed Hsig]]].
      * rewrite E in Hf. cbn in Hf. congruence.
      * right. cbn. revert Hf. rewrite (send_aborted _ _ _ s) by done. cbn.
        destruct (decide (k = next_promise w)) as [->|Hne].
        -- rewrite lookup_insert_eq. intros [= <-]. cbn. rewrite decide_True by done.
           by rewrite (log_bound w Hc).
        -- rewrite lookup_insert_ne by done. congruence.
      * left. destruct (send_issue_posted method params options w Hc Hframed Hsig)
          as (E & f' & Hf' & Hid & Hm). cbn.
        assert (k = next_promise w) as ->.
        { revert Hf. rewrite send_issue by done. cbn.
          destruct (decide (k = next_promise w)) as [->|Hne]; [done|].
          rewrite lookup_insert_ne by done. congruence. }
        assert (f' = f) as -> by congruence.
        exists params. rewrite E, Hid, Hm, Hp. by left.
    + destruct (dispatch_fold_static event (message_listeners w) w) as [E _].
      unfold dispatch_message in Hf. rewrite E in Hf. congruence.
    + destruct (run_timers_static (length (timers w)) (now w + Z.max 0 d) w Hc) as [E _].
      unfold advance in Hf. rewrite E in Hf. congruence.
    + destruct (signal_abort_static s w) as [E _]. rewrite E in Hf. congruence.
Qed.

(** X8.  Whatever happens in a session, everything the program hands to
    [postMessage] goes to the parent window with target origin ["*"], from
    a page that is not its own parent, and is the request envelope of one of
    the session's requests; there are never more posted messages than ids
    allocated; and every request of the session is on the wire, unless it
    was rejected as aborted when it was made - so a pending request has
    always been posted. *)
Theorem posts_only_request_envelopes (self par : nat) (es : list Event) :
  let w := run es (initial self par) in
  (∀ target message origin, (target, message, origin) ∈ posted (log w) →
     target = par ∧ origin = "*" ∧ par ≠ self
     ∧ ∃ k f params, frames w !! k = Some f
                     ∧ message = envelope (fr_id f) (fr_method f) params)
  ∧ (Z.of_nat (length (posted (log w))) ≤ _experimentalRequestId w)%Z
  ∧ (∀ k f, frames w !! k = Some f →
       (∃ params, (par, envelope (fr_id f) (fr_method f) params, "*") ∈ posted (log w))
       ∨ promise_state k w = Rejected (abort_error (fr_method f))).
Proof.
  intros w. split_and!.
  - apply session_posted.
  - apply session_posted_count.
  - intros k f Hf. destruct (session_requests_posted self par es k f Hf) as [H|H];
      [by left | right; by apply settled_state].
Qed.

(** ** A page at top level *)

Lemma initial_inert self : inert (initial self self).
Proof. split; try done. intros p Hp. cbn in Hp. lia. Qed.

Lemma step_inert e w : inert w → inert (step e w).
Proof.
  intros [Htop Hid Hfr Hml Htm Hsg Hpo Hpr Hlog].
  destruct e as [method params options|event|d|s]; cbn.
  - rewrite send_top by done. cbn. split; cbn; try done.
    + intros p Hp. case_decide as Hd.
      * subst p. by rewrite Hlog.
      * apply Hpr. lia.
    + intros p Hp. rewrite decide_False by lia. apply Hlog. lia.
  - unfold dispatch_message. rewrite Hml. done.
  - unfold advance. rewrite Htm. cbn. split; done.
  - unfold signal_abort.
    assert (abort_listeners (signal_state s w) = []) as Hnil.
    { unfold signal_state. destruct (signals w !! s) as [sg|] eqn:E; [by eapply Hsg | done]. }
    destruct (aborted (signal_state s w)); [done|]. rewrite Hnil. cbn.
    split; cbn; try done.
    intros s' sg. rewrite lookup_insert. case_decide; [by intros [= <-] | apply Hsg].
Qed.

Lemma run_inert es w : inert w → inert (run es w).
Proof.
  revert w. induction es as [|e es IH]; intros w Hw; [done|].
  apply IH. by apply step_inert.
Qed.

(** X9.  In a page that is its own parent nothing ever happens besides
    rejections: after any events nothing has been posted, no listener and
    no timer is registered, no id has been allocated, and every promise
    handed out is rejected with the error saying that the function must be
    called from within an iframe. *)
Theorem top_level_session_is_inert (self : nat) (es : list Event) :
  let w := run es (initial self self) in
  posted (log w) = []
  ∧ message_listeners w = []
  ∧ timers w = []
  ∧ (∀ s, abort_listeners (signal_state s w) = [])
  ∧ _experimentalRequestId w = 0%Z
  ∧ (∀ p, p < next_promise w → promise_state p w = Rejected not_in_iframe_error)
  ∧ (∀ e, posted (log (step e w)) = []).
Proof.
  intros w. pose proof (run_inert es _ (initial_inert self)) as Hi. fold w in Hi.
  split_and!; try apply Hi.
  - intros s. unfold signal_state.
    destruct (signals w !! s) as [sg|] eqn:E; [by eapply (inert_signals w Hi) | done].
  - intros p Hp. apply settled_state. by apply (inert_promises w Hi).
  - intros e. apply (inert_posted _ (step_inert e w Hi)).
Qed.

(** X10.  A call made with a signal that has already fired only rejects:
    nothing is posted and no listener or timer is registered; but, unlike a
    call at top level, it has consumed an id - the next request that is
    sent carries the id after the one that was skipped. *)
Theorem aborted_call_consumes_an_id (self par : nat) (es0 : list Event)
    (method : string) (params : Value) (options : option Options) (s : nat)
    (method' : string) (params' : Value) :
  let w0 := run es0 (initial self par) in
  let p := fst (sendExperimentalRequest method params options w0) in
  let w1 := snd (sendExperimentalRequest method params options w0) in
  let w2 := snd (sendExperimentalRequest method' params' None w1) in
  par ≠ self → options ≫= signal = Some s → aborted (signal_state s w0) = true →
  log w1 = Reject p (abort_error method) :: log w0
  ∧ message_listeners w1 = message_listeners w0
  ∧ timers w1 = timers w0
  ∧ signals w1 = signals w0
  ∧ _experimentalRequestId w1 = (_experimentalRequestId w0 + 1)%Z
  ∧ posted (log w2)
    = (par, envelope (_experimentalRequestId w0 + 2) method' params', "*")
        :: posted (log w0).
Proof.
  intros w0 p w1 w2 Hframed Hs Hab.
  pose proof (session_consistent self par es0) as Hc. fold w0 in Hc.
  destruct (session_windows self par es0) as [Hw Hp]. fold w0 in Hw, Hp.
  assert (parent w0 ≠ window w0) as Hne by (by rewrite Hw, Hp).
  pose proof (send_aborted method params options s w0 Hne Hs Hab) as E. cbv zeta in E.
  subst p. unfold w2. unfold w1. rewrite E. cbn [fst snd].
  split_and!; try done.
  assert (consistent w1) as Hc1 by (by apply send_consistent).
  unfold w1 in Hc1. rewrite E in Hc1. cbn [snd] in Hc1.
  destruct (send_issue_posted method' params' None _ Hc1) as [-> _]; [done | done |].
  cbn -[envelope]. rewrite Hp.
  by replace (_experimentalRequestId w0 + 1 + 1)%Z with (_experimentalRequestId w0 + 2)%Z by lia.
Qed.

(** ** [createUIResource]: errors, content and overrides *)

Lemma own_property_None k (props : list (string * Value)) :
  own_property k props = None ↔ k ∉ props.*1.
Proof.
  induction props as [|[k0 v0] props IH]; cbn.
  - split; [intros _ H; by apply elem_of_nil in H | done].
  - destruct (String.eqb k k0) eqn:E.
    + apply String.eqb_eq in E as ->. split; [done|]. intros H. destruct H. by left.
    + apply String.eqb_neq in E. rewrite IH. split.
      * intros H Hin. apply elem_of_cons in Hin as [?|?]; done.
      * intros H Hin. apply H. by right.
Qed.

(** A key of the object that is spread takes that object's value. *)
Lemma own_property_spread_source k v source target :
  NoDup source.*1 → own_property k source = Some v →
  own_property k (spread source target) = Some v.
Proof.
  unfold spread. revert target.
  induction source as [|[k0 v0] source IH]; intros target Hnd Hk; [done|].
  cbn in *. apply NoDup_cons in Hnd as [Hk0 Hnd].
  destruct (String.eqb k k0) eqn:E.
  - apply String.eqb_eq in E as ->. injection Hk as ->.
    fold (spread source (define_property k0 v target)).
    rewrite own_property_spread by (by apply own_property_None).
    by rewrite own_property_define, String.eqb_refl.
  - by apply IH.
Qed.

Section ResourceContents.

Import Resource.

Variable RESOURCE_MIME_TYPE : string.
Variable AdaptersConfig : Type.
Variable wrapHtmlWithAdapters : string → AdaptersConfig → string.
Variable getAdapterMimeType : AdaptersConfig → option string.
Variable utf8ToBase64 : string → string.
Variable getAdditionalResourceProps :
  CreateUIResourceOptions AdaptersConfig → list (string * Value).

Lemma strict_eq_string_Str (v : Value) (s : string) :
  strict_eq_string v s = true ↔ v = Str s.
Proof.
  split; [apply strict_eq_string_true|]. intros ->. cbn. apply String.eqb_refl.
Qed.

Lemma encode_returns (options : CreateUIResourceOptions AdaptersConfig) (body mime : string) :
  encoding options = Str "text" ∨ encoding options = Str "blob" →
  let extra := getAdditionalResourceProps options in
  ∃ resource,
    encode AdaptersConfig utf8ToBase64 getAdditionalResourceProps options body mime
    = Return resource
    ∧ (∀ k v, NoDup extra.*1 → own_property k extra = Some v →
              own_property k resource = Some v)
    ∧ (own_property "uri" extra = None →
       own_property "uri" resource = Some (Str (uri options)))
    ∧ (own_property "mimeType" extra = None →
       own_property "mimeType" resource = Some (Str mime))
    ∧ (own_property "text" extra = None →
       own_property "text" resource
       = if strict_eq_string (encoding options) "text" then Some (Str body) else None)
    ∧ (own_property "blob" extra = None →
       own_property "blob" resource
       = if strict_eq_string (encoding options) "text" then None
         else Some (Str (utf8ToBase64 body))).
Proof.
  intros Henc extra. unfold encode. fold extra.
  destruct Henc as [-> | ->]; cbn; eexists; (split; [done|]);
    (split_and!; [intros k v Hnd Hk; by apply own_property_spread_source
                 | intros H; by rewrite own_property_spread by done..]).
Qed.

(** Whenever the function returns, the encoding was valid and the result
    is the resource of some content string and MIME type, with the embedded
    properties spread into it. *)
Lemma createUIResource_returns (options : CreateUIResourceOptions AdaptersConfig)
    (result : Value) :
  createUIResource RESOURCE_MIME_TYPE AdaptersConfig wrapHtmlWithAdapters
    getAdapterMimeType utf8ToBase64 getAdditionalResourceProps options = Return result →
  ∃ body mime,
    (encoding options = Str "text" ∨ encoding options = Str "blob")
    ∧ Return result
      = (resource ← encode AdaptersConfig utf8ToBase64 getAdditionalResourceProps
                      options body mime;
         Return (Obj (spread (default [] (embeddedResourceProps options))
                        [("type", Str "resource"); ("resource", Obj resource)]))).
Proof.
  unfold createUIResource.
  destruct (content_and_mime _ _ _ _ options) as [[body mime]|e]; [|done].
  rewrite bind_Return. cbn [fst snd]. intros H. exists body, mime. split; [|done].
  revert H. unfold encode.
  destruct (strict_eq_string (encoding options) "text") eqn:Et.
  { apply strict_eq_string_Str in Et. by left. }
  destruct (strict_eq_string (encoding options) "blob") eqn:Eb.
  { apply strict_eq_string_Str in Eb. by right. }
  done.
Qed.

(** X12.  Which error [createUIResource] throws, and when it returns: an
    unknown [content.type] is reported first, whatever else is wrong; then a
    URI that does not start with [ui://], with a message naming the content
    type; then a payload that is not a string, with a message naming the
    field and the content type.  The function returns exactly when the
    content type is known, the URI has the prefix, the payload is a string
    and the encoding is ['text'] or ['blob']. *)
Theorem createUIResource_error_table (options : CreateUIResourceOptions AdaptersConfig) :
  let create := createUIResource RESOURCE_MIME_TYPE AdaptersConfig wrapHtmlWithAdapters
                  getAdapterMimeType utf8ToBase64 getAdditionalResourceProps in
  let ty := type (content options) in
  let known := ty = "rawHtml" ∨ ty = "externalUrl" in
  let payload := if String.eqb ty "rawHtml" then htmlString (content options)
                 else iframeUrl (content options) in
  let field := if String.eqb ty "rawHtml" then "htmlString" else "iframeUrl" in
  (¬ known →
   create options = Throw (Err "MCP-UI SDK: Invalid content.type specified: [object Object]"))
  ∧ (known → String.prefix "ui://" (uri options) = false →
     create options
     = Throw (Err ("MCP-UI SDK: URI must start with 'ui://' when content.type is '"
                   +:+ ty +:+ "'.")))
  ∧ (known → String.prefix "ui://" (uri options) = true → is_string payload = false →
     create options
     = Throw (Err ("MCP-UI SDK: content." +:+ field
                   +:+ " must be provided as a string when content.type is '"
                   +:+ ty +:+ "'.")))
  ∧ ((∃ v, create options = Return v)
     ↔ known ∧ String.prefix "ui://" (uri options) = true ∧ is_string payload = true
       ∧ (encoding options = Str "text" ∨ encoding options = Str "blob")).
Proof.
  cbv zeta. unfold createUIResource, content_and_mime.
  destruct options as [u [ty html url] enc um md rp erp ad]. cbn [uri content type htmlString
    iframeUrl encoding adapters embeddedResourceProps].
  set (o := {| uri := u |}).
  assert (∀ body mime,
            (∃ v, encode AdaptersConfig utf8ToBase64 getAdditionalResourceProps o body mime
                  ≫= (λ resource, Return (Obj (spread (default [] erp)
                        [("type", Str "resource"); ("resource", Obj resource)]))) = Return v)
            ↔ enc = Str "text" ∨ enc = Str "blob") as Henc.
  { intros body mime. unfold encode. cbn [encoding o].
    destruct (strict_eq_string enc "text") eqn:Et.
    { apply strict_eq_string_Str in Et. split; [by left | by eexists]. }
    destruct (strict_eq_string enc "blob") eqn:Eb.
    { apply strict_eq_string_Str in Eb. split; [by right | by eexists]. }
    split; [by intros [v H] |].
    intros [H | H]; apply strict_eq_string_Str in H; congruence. }
  destruct (String.eqb ty "rawHtml") eqn:E1.
  { apply String.eqb_eq in E1 as ->. destruct (String.prefix "ui://" u) eqn:Hu; cbn [negb].
    - destruct html; (split_and!;
        [ intros H; destruct H; by left | done | done || (intros _ _ _; reflexivity) | ]);
        try (split; [by intros [v H] | by intros (_ & _ & H & _)]).
      destruct ad; rewrite bind_Return, Henc; cbn [fst snd]; tauto.
    - split_and!; [intros H; destruct H; by left | intros _ _; reflexivity | done |].
      split; [by intros [v H] | by intros (_ & H & _)]. }
  destruct (String.eqb ty "externalUrl") eqn:E2.
  { apply String.eqb_eq in E2 as ->. destruct (String.prefix "ui://" u) eqn:Hu; cbn [negb].
    - destruct url; (split_and!;
        [ intros H; destruct H; by right | done | done || (intros _ _ _; reflexivity) | ]);
        try (split; [by intros [v H] | by intros (_ & _ & H & _)]).
      rewrite bind_Return, Henc; cbn [fst snd]; tauto.
    - split_and!; [intros H; destruct H; by right | intros _ _; reflexivity | done |].
      split; [by intros [v H] | by intros (_ & H & _)]. }
  apply String.eqb_neq in E1, E2.
  split_and!; [done | by intros [?|?] | by intros [?|?] |].
  split; [by intros [v H] | by intros ([?|?] & _)].
Qed.

(** X13.  A [rawHtml] resource: with adapters the HTML is wrapped by
    [wrapHtmlWithAdapters] and the MIME type is the adapters' own, or the
    default when they name none; without adapters the HTML is taken as it
    is, with the default MIME type.  With encoding ['text'] the resource
    carries the content under [text] and has no [blob]; with ['blob'] it
    carries the base64 of the content under [blob] and has no [text]
    (as far as the additional resource properties do not name those
    keys). *)
Theorem rawHtml_resource (options : CreateUIResourceOptions AdaptersConfig) (html : string) :
  let create := createUIResource RESOURCE_MIME_TYPE AdaptersConfig wrapHtmlWithAdapters
                  getAdapterMimeType utf8ToBase64 getAdditionalResourceProps in
  let body := match adapters options with
              | Some config => wrapHtmlWithAdapters html config
              | None => html
              end in
  let mime := match adapters options with
              | Some config => default RESOURCE_MIME_TYPE (getAdapterMimeType config)
              | None => RESOURCE_MIME_TYPE
              end in
  let extra := getAdditionalResourceProps options in
  type (content options) = "rawHtml" →
  String.prefix "ui://" (uri options) = true →
  htmlString (content options) = Str html →
  encoding options = Str "text" ∨ encoding options = Str "blob" →
  ∃ resource,
    create options
    = Return (Obj (spread (default [] (embeddedResourceProps options))
                     [("type", Str "resource"); ("resource", Obj resource)]))
    ∧ (own_property "mimeType" extra = None →
       own_property "mimeType" resource = Some (Str mime))
    ∧ (own_property "text" extra = None →
       own_property "text" resource
       = if strict_eq_string (encoding options) "text" then Some (Str body) else None)
    ∧ (own_property "blob" extra = None →
       own_property "blob" resource
       = if strict_eq_string (encoding options) "text" then None
         else Some (Str (utf8ToBase64 body))).
Proof.
  intros create body mime extra Hty Hu Hhtml Henc.
  destruct (encode_returns options body mime Henc)
    as (resource & E & _ & _ & Hmime & Htext & Hblob).
  exists resource.
  split_and!; try done.
  subst create. unfold createUIResource, content_and_mime.
  rewrite Hty, Hu, Hhtml. cbn [String.eqb Ascii.eqb Bool.eqb negb].
  subst body mime. destruct (adapters options); rewrite bind_Return; cbn [fst snd];
    by rewrite E.
Qed.

(** X14.  An [externalUrl] resource carries the URL itself and the default
    MIME type, whatever adapters are configured: adapters neither wrap the
    URL nor change the MIME type.  With encoding ['text'] the URL is under
    [text]; with ['blob'] its base64 is under [blob] (as far as the
    additional resource properties do not name those keys). *)
Theorem externalUrl_resource (options : CreateUIResourceOptions AdaptersConfig) (url : string) :
  let create := createUIResource RESOURCE_MIME_TYPE AdaptersConfig wrapHtmlWithAdapters
                  getAdapterMimeType utf8ToBase64 getAdditionalResourceProps in
  let extra := getAdditionalResourceProps options in
  type (content options) = "externalUrl" →
  String.prefix "ui://" (uri options) = true →
  iframeUrl (content options) = Str url →
  encoding options = Str "text" ∨ encoding options = Str "blob" →
  ∃ resource,
    create options
    = Return (Obj (spread (default [] (embeddedResourceProps options))
                     [("type", Str "resource"); ("resource", Obj resource)]))
    ∧ (own_property "mimeType" extra = None →
       own_property "mimeType" resource = Some (Str RESOURCE_MIME_TYPE))
    ∧ (own_property "text" extra = None →
       own_property "text" resource
       = if strict_eq_string (encoding options) "text" then Some (Str url) else None)
    ∧ (own_property "blob" extra = None →
       own_property "blob" resource
       = if strict_eq_string (encoding options) "text" then None
         else Some (Str (utf8ToBase64 url))).
Proof.
  intros create extra Hty Hu Hurl Henc.
  destruct (encode_returns options url RESOURCE_MIME_TYPE Henc)
    as (resource & E & _ & _ & Hmime & Htext & Hblob).
  exists resource.
  split_and!; try done.
  subst create. unfold createUIResource, content_and_mime.
  rewrite Hty, Hu, Hurl. cbn [String.eqb Ascii.eqb Bool.eqb negb].
  rewrite bind_Return. cbn [fst snd]. by rewrite E.
Qed.

(** X15.  What the caller supplies wins.  Whenever [createUIResource]
    returns, every key of [options.embeddedResourceProps] is in the result
    with the caller's value - also [type] and [resource] - and every key of
    the additional resource properties is in the resource with the caller's
    value - also [uri], [mimeType], [text] and [blob]; the keys the caller
    does not name keep the values the function gives them. *)
Theorem caller_props_override (options : CreateUIResourceOptions AdaptersConfig)
    (result : Value) :
  let create := createUIResource RESOURCE_MIME_TYPE AdaptersConfig wrapHtmlWithAdapters
                  getAdapterMimeType utf8ToBase64 getAdditionalResourceProps in
  let embedded := default [] (embeddedResourceProps options) in
  let extra := getAdditionalResourceProps options in
  create options = Return result →
  ∃ props resource,
    result = Obj props
    ∧ (∀ k v, NoDup embedded.*1 → own_property k embedded = Some v →
              own_property k props = Some v)
    ∧ (own_property "type" embedded = None →
       own_property "type" props = Some (Str "resource"))
    ∧ (own_property "resource" embedded = None →
       own_property "resource" props = Some (Obj resource))
    ∧ (∀ k v, NoDup extra.*1 → own_property k extra = Some v →
              own_property k resource = Some v)
    ∧ (own_property "uri" extra = None →
       own_property "uri" resource = Some (Str (uri options))).
Proof.
  intros create embedded extra Hret.
  destruct (createUIResource_returns options result Hret) as (body & mime & Henc & E).
  destruct (encode_returns options body mime Henc)
    as (resource & E' & Hover & Huri & _).
  rewrite E' in E. cbn in E. injection E as ->.
  eexists _, resource. split_and!; try done.
  - intros k v Hnd Hk. by apply own_property_spread_source.
  - intros H. by rewrite own_property_spread.
  - intros H. by rewrite own_property_spread.
Qed.

End ResourceContents.

(** ** The further properties on concrete sessions *)

Lemma abort_rejects_witness :
  let options := Some {| signal := Some 7; timeoutMs := None |} in
  let call := sendExperimentalRequest "x/test" Undefined options (initial 0 1) in
  let w2 := step (Abort 7) (run [Advance 100] call.2) in
  let late := sendExperimentalRequest "x/late" Undefined options w2 in
  promise_state call.1 w2 = Rejected (abort_error "x/test")
  ∧ step (Message (ok_response 1)) (run [Advance 5] w2) = run [Advance 5] w2
  ∧ promise_state call.1 (run [Advance 5] w2) = Rejected (abort_error "x/test")
  ∧ promise_state late.1 late.2 = Rejected (abort_error "x/late").
Proof.
  intros options call w2 late.
  destruct (abort_rejects 0 1 [] "x/test" Undefined options 7 [Advance 100] [Advance 5]
              (ok_response 1)) as [_ H].
  - lia.
  - reflexivity.
  - reflexivity.
  - destruct H as (H1 & H2 & H3).
    + reflexivity.
    + reflexivity.
    + split; [exact H1|]. split; [exact H2|]. split; [exact H3|].
      destruct (abort_rejects 0 1
                  [Call "x/test" Undefined options; Advance 100; Abort 7]
                  "x/late" Undefined options 7 [] [] (ok_response 2)) as [H' _].
      * lia.
      * reflexivity.
      * reflexivity.
      * destruct H' as (H4 & _); [by vm_compute | exact H4].
Defined.

Lemma pending_iff_registered_witness :
  let w := run [Call "x/test" Undefined None] (initial 0 1) in
  (promise_state 0 w = Pending ↔ 0 ∈ message_listeners w)
  ∧ (∃ t, t ∈ timers w ∧ tm_frame t = 0)
  ∧ NoDup (message_listeners w).
Proof.
  intros w.
  destruct (pending_iff_registered 0 1 [Call "x/test" Undefined None] 0
              {| fr_id := 1; fr_method := "x/test"; fr_timeoutMs := 30000;
                 fr_signal := None; timeoutId := Some 0 |})
    as (H1 & H2 & _ & H4); [reflexivity|].
  split; [exact H1|]. split; [|exact H4].
  apply H2. split; [reflexivity | reflexivity].
Defined.

Lemma timers_never_overdue_witness :
  let w := run [Call "x/test" Undefined None; Advance 100] (initial 0 1) in
  ∃ t, t ∈ timers w ∧ tm_frame t = 0 ∧ (now w < tm_due t)%Z.
Proof.
  intros w.
  destruct (timers_never_overdue 0 1 [Call "x/test" Undefined None; Advance 100])
    as (_ & H).
  destruct (H 0 {| fr_id := 1; fr_method := "x/test"; fr_timeoutMs := 30000;
                   fr_signal := None; timeoutId := Some 0 |})
    as (t & Hin & Hk & _ & Hlt); [reflexivity | reflexivity | reflexivity |].
  exists t. split; [exact Hin|]. split; [exact Hk|]. apply Hlt. reflexivity.
Defined.

Lemma answer_touches_only_its_request_witness :
  let w := run [Call "x/first" Undefined None; Call "x/second" Undefined None]
             (initial 0 1) in
  let w' := step (Message (ok_response 1)) w in
  message_listeners w' = [1]
  ∧ promise_state 0 w' = Fulfilled (Obj [("success", Bool true)])
  ∧ promise_state 1 w' = Pending.
Proof.
  intros w w'.
  destruct (answer_touches_only_its_request 0 1
              [Call "x/first" Undefined None; Call "x/second" Undefined None] 0
              {| fr_id := 1; fr_method := "x/first"; fr_timeoutMs := 30000;
                 fr_signal := None; timeoutId := Some 0 |} (ok_response 1))
    as (H1 & _ & H3 & _ & H5 & _).
  - reflexivity.
  - vm_compute. left.
  - by vm_compute.
  - split; [exact H1|]. split; [exact H3|].
    transitivity (promise_state 1 w); [apply H5; lia | reflexivity].
Defined.

Lemma answers_commute_witness :
  let w := run [Call "x/first" Undefined None; Call "x/second" Undefined None]
             (initial 0 1) in
  let w1 := run [Message (ok_response 1); Message (error_response 2)] w in
  let w2 := run [Message (error_response 2); Message (ok_response 1)] w in
  promise_state 0 w1 = promise_state 0 w2
  ∧ promise_state 1 w1 = promise_state 1 w2
  ∧ message_listeners w1 = message_listeners w2.
Proof.
  intros w w1 w2.
  destruct (answers_commute 0 1
              [Call "x/first" Undefined None; Call "x/second" Undefined None] 0 1
              {| fr_id := 1; fr_method := "x/first"; fr_timeoutMs := 30000;
                 fr_signal := None; timeoutId := Some 0 |}
              {| fr_id := 2; fr_method := "x/second"; fr_timeoutMs := 30000;
                 fr_signal := None; timeoutId := Some 1 |}
              (ok_response 1) (error_response 2))
    as (H1 & H2 & H3 & H4 & H5 & _).
  - reflexivity.
  - vm_compute. left.
  - by vm_compute.
  - reflexivity.
  - vm_compute. right. left.
  - by vm_compute.
  - lia.
  - fold w w1 w2 in H1, H2, H3, H4, H5. split; [congruence|]. split; [congruence | exact H5].
Defined.

Lemma firing_signal_rejects_its_requests_witness :
  let with_signal := Some {| signal := Some 7; timeoutMs := None |} in
  let w := run [Call "x/first" Undefined with_signal; Call "x/second" Undefined None]
             (initial 0 1) in
  promise_state 0 (step (Abort 7) w) = Rejected (abort_error "x/first")
  ∧ promise_state 1 (step (Abort 7) w) = Pending.
Proof.
  intros with_signal w.
  destruct (firing_signal_rejects_its_requests 0 1
              [Call "x/first" Undefined with_signal; Call "x/second" Undefined None] 7)
    as (H & _).
  split.
  - destruct (H 0 {| fr_id := 1; fr_method := "x/first"; fr_timeoutMs := 30000;
                     fr_signal := Some 7; timeoutId := Some 0 |}) as [H0 _];
      [reflexivity | reflexivity | exact H0].
  - destruct (H 1 {| fr_id := 2; fr_method := "x/second"; fr_timeoutMs := 30000;
                     fr_signal := None; timeoutId := Some 1 |}) as [H1 _];
      [reflexivity | reflexivity | exact H1].
Defined.

Lemma advance_fires_exactly_due_timers_witness :
  let quick := Some {| signal := None; timeoutMs := Some 500%Z |} in
  let w := run [Call "x/quick" Undefined quick; Call "x/slow" Undefined None]
             (initial 0 1) in
  promise_state 0 (step (Advance 500) w) = Rejected (timeout_error "x/quick" 500)
  ∧ promise_state 1 (step (Advance 500) w) = Pending.
Proof.
  intros quick w.
  destruct (advance_fires_exactly_due_timers 0 1
              [Call "x/quick" Undefined quick; Call "x/slow" Undefined None] 500)
    as (H & _).
  split.
  - destruct (H {| tm_id := 0; tm_due := 500; tm_frame := 0 |}) as (f & Hf & _ & H0).
    + vm_compute. left.
    + vm_compute in Hf. injection Hf as <-. apply H0.
  - destruct (H {| tm_id := 1; tm_due := 30000; tm_frame := 1 |}) as (f & Hf & _ & H1).
    + vm_compute. right. left.
    + apply H1.
Defined.

Lemma non_jsonrpc_message_ignored_witness :
  let w := run [Call "x/test" Undefined None] (initial 0 1) in
  let event := {| source := Some 1;
                  data := Obj [("id", Num 1); ("result", Obj [("success", Bool true)])] |} in
  step (Message event) w = w.
Proof.
  intros w event. apply non_jsonrpc_message_ignored. by vm_compute.
Defined.

Lemma posts_only_request_envelopes_witness :
  let w := run [Call "x/clipboard/write" hello_params None; Message (ok_response 1)]
             (initial 0 1) in
  (∃ params, (1, envelope 1 "x/clipboard/write" params, "*") ∈ posted (log w))
  ∧ (Z.of_nat (length (posted (log w))) ≤ _experimentalRequestId w)%Z.
Proof.
  intros w.
  destruct (posts_only_request_envelopes 0 1
              [Call "x/clipboard/write" hello_params None; Message (ok_response 1)])
    as (_ & H2 & H3).
  split; [|exact H2].
  destruct (H3 0 {| fr_id := 1; fr_method := "x/clipboard/write"; fr_timeoutMs := 30000;
                    fr_signal := None; timeoutId := Some 0 |}) as [[params Hin] | Hrej].
  - reflexivity.
  - by exists params.
  - by vm_compute in Hrej.
Defined.

Lemma top_level_session_is_inert_witness :
  let w := run [Call "x/test" Undefined None; Advance 30000; Abort 3;
                Message (ok_response 1)] (initial 0 0) in
  posted (log w) = [] ∧ promise_state 0 w = Rejected not_in_iframe_error.
Proof.
  intros w.
  destruct (top_level_session_is_inert 0
              [Call "x/test" Undefined None; Advance 30000; Abort 3;
               Message (ok_response 1)]) as (H1 & _ & _ & _ & _ & H6 & _).
  split; [exact H1|]. apply H6. vm_compute. lia.
Defined.

Lemma aborted_call_consumes_an_id_witness :
  let options := Some {| signal := Some 7; timeoutMs := None |} in
  let w0 := run [Abort 7] (initial 0 1) in
  let w1 := snd (sendExperimentalRequest "x/late" Undefined options w0) in
  let w2 := snd (sendExperimentalRequest "x/next" Undefined None w1) in
  _experimentalRequestId w1 = 1%Z
  ∧ posted (log w1) = []
  ∧ posted (log w2) = [(1, envelope 2 "x/next" Undefined, "*")].
Proof.
  intros options w0 w1 w2.
  destruct (aborted_call_consumes_an_id 0 1 [Abort 7] "x/late" Undefined options 7
              "x/next" Undefined) as (H1 & _ & _ & _ & H5 & H6).
  - lia.
  - reflexivity.
  - reflexivity.
  - fold w0 w1 w2 in H1, H5, H6. split; [exact H5|]. split; [|exact H6].
    by rewrite H1.
Defined.

Lemma createUIResource_error_table_witness :
  let options ty u html enc :=
    {| Resource.uri := u;
       Resource.content := {| Resource.type := ty; Resource.htmlString := html;
                              Resource.iframeUrl := Undefined |};
       Resource.encoding := enc;
       Resource.uiMetadata := None; Resource.metadata := None;
       Resource.resourceProps := None; Resource.embeddedResourceProps := None;
       Resource.adapters := None |} in
  Resource.plain_createUIResource (options "video" "http://x" Undefined Undefined)
  = Throw (Err "MCP-UI SDK: Invalid content.type specified: [object Object]")
  ∧ Resource.plain_createUIResource (options "rawHtml" "http://x" Undefined Undefined)
    = Throw (Err "MCP-UI SDK: URI must start with 'ui://' when content.type is 'rawHtml'.")
  ∧ Resource.plain_createUIResource (options "rawHtml" "ui://x" (Num 5) Undefined)
    = Throw (Err "MCP-UI SDK: content.htmlString must be provided as a string when content.type is 'rawHtml'.")
  ∧ ∃ v, Resource.plain_createUIResource (options "rawHtml" "ui://x" (Str "<p/>") (Str "blob"))
         = Return v.
Proof.
  intros options. split_and!.
  - destruct (createUIResource_error_table "text/html;profile=mcp-app" Empty_set
                (λ html _, html) (λ _, None) (λ s, s) (λ _, [])
                (options "video" "http://x" Undefined Undefined)) as (H & _).
    apply H. by intros [?|?].
  - destruct (createUIResource_error_table "text/html;profile=mcp-app" Empty_set
                (λ html _, html) (λ _, None) (λ s, s) (λ _, [])
                (options "rawHtml" "http://x" Undefined Undefined)) as (_ & H & _).
    apply H; [by left | reflexivity].
  - destruct (createUIResource_error_table "text/html;profile=mcp-app" Empty_set
                (λ html _, html) (λ _, None) (λ s, s) (λ _, [])
                (options "rawHtml" "ui://x" (Num 5) Undefined)) as (_ & _ & H & _).
    apply H; [by left | reflexivity | reflexivity].
  - destruct (createUIResource_error_table "text/html;profile=mcp-app" Empty_set
                (λ html _, html) (λ _, None) (λ s, s) (λ _, [])
                (options "rawHtml" "ui://x" (Str "<p/>") (Str "blob"))) as (_ & _ & _ & H).
    apply H. split_and!; [by left | reflexivity | reflexivity | by right].
Defined.

Lemma rawHtml_resource_witness :
  let options :=
    {| Resource.uri := "ui://widget";
       Resource.content := {| Resource.type := "rawHtml";
                              Resource.htmlString := Str "<p>Hi</p>";
                              Resource.iframeUrl := Undefined |};
       Resource.encoding := Str "blob";
       Resource.uiMetadata := None; Resource.metadata := None;
       Resource.resourceProps := None; Resource.embeddedResourceProps := None;
       Resource.adapters := Some tt |} in
  let create := Resource.createUIResource "text/html;profile=mcp-app" unit
                  (λ html _, "<script></script>" +:+ html)
                  (λ _, Some "text/html+skybridge") (λ s, "b64:" +:+ s) (λ _, []) in
  ∃ resource,
    create options = Return (Obj [("type", Str "resource"); ("resource", Obj resource)])
    ∧ own_property "mimeType" resource = Some (Str "text/html+skybridge")
    ∧ own_property "text" resource = None
    ∧ own_property "blob" resource = Some (Str "b64:<script></script><p>Hi</p>").
Proof.
  intros options create.
  destruct (rawHtml_resource "text/html;profile=mcp-app" unit
              (λ html _, "<script></script>" +:+ html)
              (λ _, Some "text/html+skybridge") (λ s, "b64:" +:+ s) (λ _, [])
              options "<p>Hi</p>") as (resource & E & Hm & Ht & Hb);
    [reflexivity | reflexivity | reflexivity | by right |].
  exists resource. split; [exact E|]. split; [by apply Hm|]. split; [by apply Ht | by apply Hb].
Defined.

Lemma externalUrl_resource_witness :
  let options :=
    {| Resource.uri := "ui://frame";
       Resource.content := {| Resource.type := "externalUrl";
                              Resource.htmlString := Undefined;
                              Resource.iframeUrl := Str "https://example.com" |};
       Resource.encoding := Str "text";
       Resource.uiMetadata := None; Resource.metadata := None;
       Resource.resourceProps := None; Resource.embeddedResourceProps := None;
       Resource.adapters := Some tt |} in
  let create := Resource.createUIResource "text/html;profile=mcp-app" unit
                  (λ html _, "<script></script>" +:+ html)
                  (λ _, Some "text/html+skybridge") (λ s, "b64:" +:+ s) (λ _, []) in
  ∃ resource,
    create options = Return (Obj [("type", Str "resource"); ("resource", Obj resource)])
    ∧ own_property "mimeType" resource = Some (Str "text/html;profile=mcp-app")
    ∧ own_property "text" resource = Some (Str "https://example.com")
    ∧ own_property "blob" resource = None.
Proof.
  intros options create.
  destruct (externalUrl_resource "text/html;profile=mcp-app" unit
              (λ html _, "<script></script>" +:+ html)
              (λ _, Some "text/html+skybridge") (λ s, "b64:" +:+ s) (λ _, [])
              options "https://example.com") as (resource & E & Hm & Ht & Hb);
    [reflexivity | reflexivity | reflexivity | by left |].
  exists resource. split; [exact E|]. split; [by apply Hm|]. split; [by apply Ht | by apply Hb].
Defined.

Lemma caller_props_override_witness :
  let options :=
    {| Resource.uri := "ui://widget";
       Resource.content := {| Resource.type := "rawHtml";
                              Resource.htmlString := Str "<p>Hi</p>";
                              Resource.iframeUrl := Undefined |};
       Resource.encoding := Str "text";
       Resource.uiMetadata := None; Resource.metadata := None;
       Resource.resourceProps := None;
       Resource.embeddedResourceProps :=
         Some [("type", Str "custom"); ("annotations", Obj [("audience", Str "user")])];
       Resource.adapters := None |} in
  ∃ props resource,
    Resource.plain_createUIResource options = Return (Obj props)
    ∧ own_property "type" props = Some (Str "custom")
    ∧ own_property "resource" props = Some (Obj resource)
    ∧ own_property "uri" resource = Some (Str "ui://widget").
Proof.
  intros options.
  destruct (caller_props_override "text/html;profile=mcp-app" Empty_set
              (λ html _, html) (λ _, None) (λ s, s) (λ _, []) options _ eq_refl)
    as (props & resource & E & Hover & _ & Hres & _ & Huri).
  exists props, resource. split; [by rewrite <- E|]. split_and!.
  - apply Hover; [|reflexivity]. cbn. apply NoDup_cons. split; [|apply NoDup_singleton].
    intros Hin. apply list_elem_of_singleton in Hin. discriminate.
  - by apply Hres.
  - by apply Huri.
Defined.
